(** * Partial-sum stores for continual release (lib/partial_sums.py)

    A shallow embedding of the partial-sum stores of BanditLib and the
    properties of their consolidation strategies.

    Conventions of the embedding.
    - Python integers are [Z]; the dictionaries [self.store] and
      [self.tree_store] are [gmap Z NoisePartialSum].
    - Noise values are exact scalars in [Z]; an array adds coordinate by
      coordinate, so every coordinate follows the scalar law.
    - Python exceptions are the [Raise] outcomes of the [result] monad.
    - The noise generator is not part of lib/partial_sums.py: it is a
      record of sampling functions.  A sample is determined by the request
      (scale, sensitivity) and by the number of samples taken before it,
      which the stores thread through as [draws].
    - Scales are floating-point expressions over the generator's [eps] and
      [delta]; they are kept symbolic ([real]) and handed to the sampler
      as written.  [int(np.sqrt(T))] and [int(np.log2(time))] are the
      integer square root and the integer binary logarithm.
    - A recursive method takes a fuel argument; it is started with more
      fuel than the store has entries, which is shown to be enough. *)

From Stdlib Require Import ZArith Lia.
From stdpp Require Import gmap strings list fin_maps.

Local Open Scope Z_scope.

(** ** Exceptions *)

(** The Python exceptions the code can raise, and two outcomes of the
    model's own: [OutOfFuel] for a recursion cut short, [OutOfRange] for an
    input outside the range in which the model follows the float
    arithmetic of the code. *)
Inductive exn :=
| KeyError
| NotImplementedError
| AttributeError
| ValueError
| OverflowError
| ZeroDivisionError
| OutOfFuel
| OutOfRange.

Inductive result (A : Type) :=
| Ok (a : A)
| Raise (e : exn).
Arguments Ok {A} a.
Arguments Raise {A} e.

Global Instance result_bind : MBind result := λ A B k r,
  match r with
  | Ok a => k a
  | Raise e => Raise e
  end.

Definition is_ok {A} (r : result A) : bool :=
  match r with Ok _ => true | Raise _ => false end.

(** [for x in xs: body(x)] over a state that may raise. *)
Fixpoint for_each {A S} (body : A → S → result S) (xs : list A) (s : S) : result S :=
  match xs with
  | [] => Ok s
  | x :: xs' => s' ← body x s; for_each body xs' s'
  end.

(** ** Data model *)

(** class NoisePartialSum: the attributes [start], [size], [noise]. *)
Record NoisePartialSum := mkNoisePartialSum {
  psum_start : Z;
  psum_size : Z;
  psum_noise : Z;
}.

Global Instance NoisePartialSum_eq_dec : EqDecision NoisePartialSum.
Proof. solve_decision. Defined.

(** Floating-point expressions that reach the sampler. *)
Inductive real :=
| R_eps
| R_delta
| R_int (z : Z)
| R_div (a b : real)
| R_mul (a b : real)
| R_log2 (a : real).

(** The noise generator: attributes [noise_type], [T] and the samplers
    [laplacian(scale, sens)] and [generate_noise_tree(eps, delta, T)];
    the last argument of a sampler is the number of earlier samples. *)
Record NoiseGenerator := mkNoiseGenerator {
  noise_type : string;
  T : Z;
  laplacian : real → option Z → nat → Z;
  generate_noise_tree : real → real → Z → nat → Z;
}.

(** Modelled from the spec: the noise source's [zeros()], which is not in
    lib/partial_sums.py, is the additive identity of the noise type. *)
Definition zeros : Z := 0.

(** [np.zeros(shape=...)] at the scalar shape. *)
Definition np_zeros : Z := 0.

(** [int(np.sqrt(T))]: the square root of a negative number is nan, which
    [int] refuses.  [np.sqrt] is the float64 square root, rounded to
    nearest: for an integer below [2^52] its integer part is the integer
    square root, as the root of such a number stays more than half a unit
    in the last place below the next integer.  From [2^52 + 2^27] on the
    float root reaches the next integer at some arguments (the first is
    [67108865^2 - 1]), so horizons from [2^52] on are outside the model. *)
Definition int_sqrt (v : Z) : result Z :=
  if decide (v < 0) then Raise ValueError
  else if decide (v < 2 ^ 52) then Ok (Z.sqrt v)
  else Raise OutOfRange.

(** [int(np.log2(time))]: log2 of zero is -inf, of a negative number nan.
    The value is only handed to the samplers, inside a scale or as a
    horizon; the float logarithm is taken as exact, which leaves out that
    it rounds up to the next integer at some arguments from [2^49 - 1]
    on. *)
Definition int_log2 (v : Z) : result Z :=
  if decide (v = 0) then Raise OverflowError
  else if decide (v < 0) then Raise ValueError
  else Ok (Z.log2 v).

(** [x / z] for the float [x] and the integer [z] (true division):
    ZeroDivisionError when [z] is zero. *)
Definition div_by_int (x : real) (z : Z) : result real :=
  if decide (z = 0) then Raise ZeroDivisionError else Ok (R_div x (R_int z)).

(** Dictionary access: [d[k]] and [del d[k]] raise KeyError on a missing key. *)
Definition getitem (k : Z) (d : gmap Z NoisePartialSum) : result NoisePartialSum :=
  match d !! k with
  | Some p => Ok p
  | None => Raise KeyError
  end.

Definition delitem (k : Z) (d : gmap Z NoisePartialSum) : result (gmap Z NoisePartialSum) :=
  match d !! k with
  | Some _ => Ok (delete k d)
  | None => Raise KeyError
  end.

(** ** class NoisePartialSumStore *)

Record NoisePartialSumStore := mkNoisePartialSumStore {
  noise_generator : NoiseGenerator;
  release_method : string;
  is_theta_level : bool;
  store : gmap Z NoisePartialSum;
  draws : nat;
}.

Definition START_TIME : Z := 1.

Definition set_store (d : gmap Z NoisePartialSum) (s : NoisePartialSumStore) : NoisePartialSumStore :=
  mkNoisePartialSumStore (noise_generator s) (release_method s) (is_theta_level s) d (draws s).

Definition tick (s : NoisePartialSumStore) : NoisePartialSumStore :=
  mkNoisePartialSumStore (noise_generator s) (release_method s) (is_theta_level s)
    (store s) (S (draws s)).

(** [self.noise_generator.laplacian(scale)] *)
Definition draw_laplacian (scale : real) (s : NoisePartialSumStore) : Z * NoisePartialSumStore :=
  (laplacian (noise_generator s) scale None (draws s), tick s).

(** [self.noise_generator.generate_noise_tree(eps, delta, T)] *)
Definition draw_tree (horizon : Z) (s : NoisePartialSumStore) : Z * NoisePartialSumStore :=
  (generate_noise_tree (noise_generator s) R_eps R_delta horizon (draws s), tick s).

Definition recognized_methods : list string :=
  ["tree"; "every"; "once"; "sqrt"; "hybrid"]%string.

(** [__init__] *)
Definition NoisePartialSumStore_init (ng : NoiseGenerator) (method : string)
    (theta : bool) : result NoisePartialSumStore :=
  if decide (method ≠ "tree"%string ∧ noise_type ng ≠ "laplacian"%string)
  then Raise NotImplementedError
  else if decide (method ∉ recognized_methods)
  then Raise NotImplementedError
  else Ok (mkNoisePartialSumStore ng method theta ∅ 0).

Definition is_power_of_two (val : Z) : bool :=
  (Z.land val (val - 1) =? 0) && (0 <? val).

Definition consolidate_for_once (time : Z) (s : NoisePartialSumStore)
  : result NoisePartialSumStore :=
  if decide (time ≠ START_TIME)
  then d ← delitem time (store s); Ok (set_store d s)
  else Ok s.

Definition consolidate_for_every (time : Z) (s : NoisePartialSumStore)
  : result NoisePartialSumStore :=
  p0 ← getitem START_TIME (store s);
  pt ← getitem time (store s);
  let current_total_noise := psum_noise p0 in
  let newly_added_noise := psum_noise pt in
  let new_total_noise := current_total_noise + newly_added_noise in
  let new_psum_size := time in
  let d := <[START_TIME := mkNoisePartialSum 1 new_psum_size new_total_noise]> (store s) in
  if decide (time ≠ START_TIME)
  then d' ← delitem time d; Ok (set_store d' s)
  else Ok (set_store d s).

Definition consolidate_for_sqrt (time : Z) (s : NoisePartialSumStore)
  : result NoisePartialSumStore :=
  block_size ← int_sqrt (T (noise_generator s));
  let block_start := time - block_size + 1 in
  match store s !! block_start with
  | None => Ok s
  | Some _ =>
      d ← for_each delitem (seqZ block_start (time + 1 - block_start)) (store s);
      let '(block_noise, s1) := draw_laplacian (R_mul (R_int 2) R_eps) (set_store d s) in
      if decide (block_start = START_TIME)
      then Ok (set_store
                 (<[START_TIME := mkNoisePartialSum START_TIME block_size block_noise]> d) s1)
      else
        p0 ← getitem START_TIME d;
        Ok (set_store
              (<[START_TIME := mkNoisePartialSum START_TIME
                                 (psum_size p0 + block_size)
                                 (psum_noise p0 + block_noise)]> d) s1)
  end.

Fixpoint consolidate_for_tree_fuel (fuel : nat) (time : Z) (s : NoisePartialSumStore)
  : result NoisePartialSumStore :=
  match fuel with
  | O => Raise OutOfFuel
  | S fuel' =>
      pt ← getitem time (store s);
      let prev_p_sum_time := psum_start pt - psum_size pt in
      match store s !! prev_p_sum_time with
      | None => Ok s
      | Some pp =>
          if decide (psum_size pt = psum_size pp) then
            let new_size := psum_size pt * 2 in
            let '(new_noise, s1) := draw_tree (T (noise_generator s)) s in
            let d := <[prev_p_sum_time :=
                         mkNoisePartialSum prev_p_sum_time new_size new_noise]> (store s1) in
            d' ← delitem time d;
            consolidate_for_tree_fuel fuel' prev_p_sum_time (set_store d' s1)
          else Ok s
      end
  end.

Definition consolidate_for_tree (time : Z) (s : NoisePartialSumStore)
  : result NoisePartialSumStore :=
  consolidate_for_tree_fuel (S (size (store s))) time s.

Fixpoint consolidate_for_hybrid_fuel (fuel : nat) (time : Z) (s : NoisePartialSumStore)
  : result NoisePartialSumStore :=
  match fuel with
  | O => Raise OutOfFuel
  | S fuel' =>
      if is_power_of_two time && bool_decide (time > START_TIME) then
        let new_size := time in
        p0 ← getitem START_TIME (store s);
        pt ← getitem time (store s);
        let new_noise := psum_noise p0 + psum_noise pt in
        Ok (set_store {[START_TIME := mkNoisePartialSum START_TIME new_size new_noise]} s)
      else
        pt ← getitem time (store s);
        let prev_p_sum_time := psum_start pt - psum_size pt in
        match store s !! prev_p_sum_time with
        | None => Ok s
        | Some pp =>
            if decide (psum_size pt = psum_size pp) then
              let new_size := psum_size pt * 2 in
              e ← int_log2 time;
              let '(new_noise, s1) := draw_tree (2 ^ e) s in
              let d := <[prev_p_sum_time :=
                           mkNoisePartialSum prev_p_sum_time new_size new_noise]> (store s1) in
              d' ← delitem time d;
              consolidate_for_hybrid_fuel fuel' prev_p_sum_time (set_store d' s1)
            else Ok s
        end
  end.

Definition consolidate_for_hybrid (time : Z) (s : NoisePartialSumStore)
  : result NoisePartialSumStore :=
  consolidate_for_hybrid_fuel (S (size (store s))) time s.

Definition consolidate_store (time : Z) (s : NoisePartialSumStore)
  : result NoisePartialSumStore :=
  if decide (release_method s = "once"%string) then consolidate_for_once time s
  else if decide (release_method s = "every"%string) then consolidate_for_every time s
  else if decide (release_method s = "sqrt"%string) then consolidate_for_sqrt time s
  else if decide (release_method s = "tree"%string) then consolidate_for_tree time s
  else if decide (release_method s = "hybrid"%string) then consolidate_for_hybrid time s
  else Ok s.

(** [add_noise]: the noise of the new unit partial sum is sampled as the
    release method asks, the partial sum is stored at [time] and the store
    is consolidated. *)
Definition add_noise (time : Z) (s : NoisePartialSumStore) : result NoisePartialSumStore :=
  let horizon := T (noise_generator s) in
  let noise := zeros in
  '(noise, s1) ←
    (if decide (release_method s = "once"%string) then
       if decide (size (store s) = 0%nat)
       then scale ← div_by_int R_eps horizon; Ok (draw_laplacian scale s)
       else Ok (noise, s)
     else if decide (release_method s = "every"%string) then Ok (draw_laplacian R_eps s)
     else if decide (release_method s = "sqrt"%string) then Ok (draw_laplacian R_eps s)
     else if decide (release_method s = "tree"%string) then Ok (draw_tree horizon s)
     else if decide (release_method s = "hybrid"%string) then
       if is_power_of_two time
       then Ok (draw_laplacian (R_div R_eps (R_int 2)) s)
       else
         e ← int_log2 time;
         let time_horizon := 2 ^ e in
         Ok (draw_laplacian
               (R_div (R_div R_eps (R_int 2)) (R_log2 (R_int time_horizon))) s)
     else Ok (noise, s));
  consolidate_store time
    (set_store (<[time := mkNoisePartialSum time 1 noise]> (store s1)) s1).


(** [release_noise]: the loop over [self.store.values()]; the object
    itself is returned next to the value to expose what the call leaves
    behind. *)
Definition release_noise (s : NoisePartialSumStore) : Z * NoisePartialSumStore :=
  let N := zeros in
  (foldl (λ N p_sum, N + psum_noise p_sum) N (map_to_list (store s)).*2, s).

(** ** class _NoisePartialSumStore and its subclasses *)

(** The attributes of [_NoisePartialSumStore.__init__]; the noise
    generator defaults to [None]. *)
Record BaseStore := mkBaseStore {
  base_store : gmap Z NoisePartialSum;
  base_noise_generator : option NoiseGenerator;
  base_draws : nat;
}.

Definition START : Z := 1.

(** An attribute read on [self.noise_generator]. *)
Definition the_generator (g : option NoiseGenerator) : result NoiseGenerator :=
  match g with
  | Some ng => Ok ng
  | None => Raise AttributeError
  end.

(** An attribute read on a field that holds a partial sum or [None]. *)
Definition the_psum (o : option NoisePartialSum) : result NoisePartialSum :=
  match o with
  | Some p => Ok p
  | None => Raise AttributeError
  end.

(** [max(xs)]: ValueError on the empty list. *)
Definition py_max (xs : list Z) : result Z :=
  match xs with
  | [] => Raise ValueError
  | x :: xs' => Ok (foldl Z.max x xs')
  end.

Module _NoisePartialSumStore.

Definition init (ng : option NoiseGenerator) : BaseStore :=
  mkBaseStore ∅ ng 0.

Definition set_store (d : gmap Z NoisePartialSum) (s : BaseStore) : BaseStore :=
  mkBaseStore d (base_noise_generator s) (base_draws s).

(** [consolidate]: [pass]. *)
Definition consolidate (s : BaseStore) : result BaseStore := Ok s.

(** [add], with the [consolidate] that the object's class provides. *)
Definition add_with (consolidate : BaseStore → result BaseStore)
    (time noise : Z) (s : BaseStore) : result BaseStore :=
  consolidate (set_store (<[time := mkNoisePartialSum time 1 noise]> (base_store s)) s).

Definition add := add_with consolidate.

Definition release (s : BaseStore) : Z * BaseStore :=
  if decide (size (base_store s) = 0%nat) then (np_zeros, s)
  else
    let total_noise := np_zeros in
    (foldl (λ total_noise psum, total_noise + psum_noise psum) total_noise
       (map_to_list (base_store s)).*2, s).

End _NoisePartialSumStore.

Module OncePartialSumStore.

Definition init := _NoisePartialSumStore.init.

Definition consolidate (s : BaseStore) : result BaseStore :=
  match base_store s !! START with
  | Some p => Ok (_NoisePartialSumStore.set_store {[START := p]} s)
  | None => Ok (_NoisePartialSumStore.set_store ∅ s)
  end.

Definition add := _NoisePartialSumStore.add_with consolidate.
Definition release := _NoisePartialSumStore.release.

End OncePartialSumStore.

Module EveryPartialSumStore.

Definition init := _NoisePartialSumStore.init.

Definition consolidate (s : BaseStore) : result BaseStore :=
  if decide (size (base_store s) = 0%nat) then Ok s
  else
    let total_noise := np_zeros in
    let total_noise :=
      foldl (λ total_noise psum, total_noise + psum_noise psum) total_noise
        (map_to_list (base_store s)).*2 in
    Ok (_NoisePartialSumStore.set_store
          {[START := mkNoisePartialSum START 1 total_noise]} s).

Definition add := _NoisePartialSumStore.add_with consolidate.
Definition release := _NoisePartialSumStore.release.

End EveryPartialSumStore.

Module TreePartialSumStore.

Definition init := _NoisePartialSumStore.init.

Fixpoint _consolidate_helper_fuel (fuel : nat) (time : Z) (s : BaseStore)
  : result BaseStore :=
  match fuel with
  | O => Raise OutOfFuel
  | S fuel' =>
      pt ← getitem time (base_store s);
      let prev_p_sum_time := psum_start pt - psum_size pt in
      match base_store s !! prev_p_sum_time with
      | None => Ok s
      | Some pp =>
          if decide (psum_size pt = psum_size pp) then
            let new_size := psum_size pt * 2 in
            ng ← the_generator (base_noise_generator s);
            let right_time_bound := psum_start pp + new_size - 1 in
            let new_noise :=
              laplacian ng (R_div R_eps (R_log2 (R_int (T ng))))
                (Some right_time_bound) (base_draws s) in
            let d := <[prev_p_sum_time :=
                         mkNoisePartialSum prev_p_sum_time new_size new_noise]>
                       (base_store s) in
            d' ← delitem time d;
            _consolidate_helper_fuel fuel' prev_p_sum_time
              (mkBaseStore d' (base_noise_generator s) (S (base_draws s)))
          else Ok s
      end
  end.

Definition _consolidate_helper (time : Z) (s : BaseStore) : result BaseStore :=
  _consolidate_helper_fuel (S (size (base_store s))) time s.

Definition consolidate (s : BaseStore) : result BaseStore :=
  max_psum_start ← py_max (psum_start <$> (map_to_list (base_store s)).*2);
  _consolidate_helper max_psum_start s.

Definition add := _NoisePartialSumStore.add_with consolidate.
Definition release := _NoisePartialSumStore.release.

End TreePartialSumStore.

Record TwoLevelStore := mkTwoLevelStore {
  tl_noise_generator : NoiseGenerator;
  tl_draws : nat;
  block_size : Z;
  block_level_store : option NoisePartialSum;
  single_level_store : option NoisePartialSum;
  new_psum : option NoisePartialSum;
}.

Module TwoLevelPartialSumStore.

Definition init (ng : NoiseGenerator) (block_size : Z) : TwoLevelStore :=
  mkTwoLevelStore ng 0 block_size None None None.

Definition consolidate (s : TwoLevelStore) : result TwoLevelStore :=
  (* Consolidate new psum into size-1 psum store *)
  np ← the_psum (new_psum s);
  let single :=
    match single_level_store s with
    | Some sl =>
        mkNoisePartialSum (psum_start sl) (psum_size sl + 1)
          (psum_noise sl + psum_noise np)
    | None =>
        mkNoisePartialSum (psum_start np) (psum_size np) (psum_noise np)
    end in
  (* Consolidate size-1 psum store into block-level psum store *)
  if decide (psum_size single >= block_size s) then
    let new_noise_sens := psum_start single + psum_size single - 1 in
    let new_noise :=
      laplacian (tl_noise_generator s) (R_mul (R_int 2) R_eps)
        (Some new_noise_sens) (tl_draws s) in
    let block :=
      match block_level_store s with
      | Some bl =>
          mkNoisePartialSum (psum_start bl) (psum_size bl + psum_size single)
            (psum_noise bl + new_noise)
      | None => mkNoisePartialSum START (psum_size single) new_noise
      end in
    Ok (mkTwoLevelStore (tl_noise_generator s) (S (tl_draws s)) (block_size s)
          (Some block) None None)
  else
    Ok (mkTwoLevelStore (tl_noise_generator s) (tl_draws s) (block_size s)
          (block_level_store s) (Some single) None).

Definition add (time noise : Z) (s : TwoLevelStore) : result TwoLevelStore :=
  consolidate
    (mkTwoLevelStore (tl_noise_generator s) (tl_draws s) (block_size s)
       (block_level_store s) (single_level_store s)
       (Some (mkNoisePartialSum time 1 noise))).

Definition release (s : TwoLevelStore) : Z * TwoLevelStore :=
  match block_level_store s, single_level_store s with
  | Some bl, Some sl => (psum_noise bl + psum_noise sl, s)
  | Some bl, None => (psum_noise bl, s)
  | None, Some sl => (psum_noise sl, s)
  | None, None => (np_zeros, s)
  end.

End TwoLevelPartialSumStore.

Record HybridStore := mkHybridStore {
  hy_noise_generator : option NoiseGenerator;
  hy_draws : nat;
  tree_store : gmap Z NoisePartialSum;
  log_store : option NoisePartialSum;
  new_noise : option NoisePartialSum;
}.

Module HybridPartialSumStore.

Definition init (ng : option NoiseGenerator) : HybridStore :=
  mkHybridStore ng 0 ∅ None None.

Definition is_power_of_two (val : Z) : bool :=
  (Z.land val (val - 1) =? 0) && (0 <? val).

Fixpoint _consolidate_helper_fuel (fuel : nat) (time : Z) (s : HybridStore)
  : result HybridStore :=
  match fuel with
  | O => Raise OutOfFuel
  | S fuel' =>
      pt ← getitem time (tree_store s);
      let prev_p_sum_time := psum_start pt - psum_size pt in
      match tree_store s !! prev_p_sum_time with
      | None => Ok s
      | Some pp =>
          if decide (psum_size pt = psum_size pp) then
            let new_size := psum_size pt * 2 in
            ng ← the_generator (hy_noise_generator s);
            e ← int_log2 time;
            let right_time_bound := psum_start pp + new_size - 1 in
            let fresh :=
              laplacian ng (R_div R_eps (R_log2 (R_int (2 ^ e))))
                (Some right_time_bound) (hy_draws s) in
            let d := <[prev_p_sum_time :=
                         mkNoisePartialSum prev_p_sum_time new_size fresh]>
                       (tree_store s) in
            d' ← delitem time d;
            _consolidate_helper_fuel fuel' prev_p_sum_time
              (mkHybridStore (hy_noise_generator s) (S (hy_draws s)) d'
                 (log_store s) (new_noise s))
          else Ok s
      end
  end.

Definition _consolidate_helper (time : Z) (s : HybridStore) : result HybridStore :=
  _consolidate_helper_fuel (S (size (tree_store s))) time s.

Definition clear_new_noise (s : HybridStore) : HybridStore :=
  mkHybridStore (hy_noise_generator s) (hy_draws s) (tree_store s) (log_store s) None.

Definition consolidate (s : HybridStore) : result HybridStore :=
  nn ← the_psum (new_noise s);
  let time := psum_start nn in
  let noise := psum_noise nn in
  if decide (time = START) then
    Ok (clear_new_noise
          (mkHybridStore (hy_noise_generator s) (hy_draws s) (tree_store s)
             (Some (mkNoisePartialSum time 1 noise)) (new_noise s)))
  else if is_power_of_two time then
    lg ← the_psum (log_store s);
    let new_noise_ := psum_noise lg + noise in
    Ok (clear_new_noise
          (mkHybridStore (hy_noise_generator s) (hy_draws s) ∅
             (Some (mkNoisePartialSum START time new_noise_)) (new_noise s)))
  else
    s' ← _consolidate_helper time
           (mkHybridStore (hy_noise_generator s) (hy_draws s)
              (<[time := mkNoisePartialSum time 1 noise]> (tree_store s))
              (log_store s) (new_noise s));
    Ok (clear_new_noise s').

Definition add (time noise : Z) (s : HybridStore) : result HybridStore :=
  consolidate
    (mkHybridStore (hy_noise_generator s) (hy_draws s) (tree_store s) (log_store s)
       (Some (mkNoisePartialSum time 1 noise))).

Definition release (s : HybridStore) : Z * HybridStore :=
  match log_store s with
  | None => (np_zeros, s)
  | Some lg =>
      let total_noise := psum_noise lg in
      (foldl (λ total_noise psum, total_noise + psum_noise psum) total_noise
         (map_to_list (tree_store s)).*2, s)
  end.

End HybridPartialSumStore.

(** ** Runs and specification-side notions *)

(** [add_noise(1); add_noise(2); ...; add_noise(n)] *)
Fixpoint add_noise_upto (n : nat) (s : NoisePartialSumStore) : result NoisePartialSumStore :=
  match n with
  | O => Ok s
  | S n' => s' ← add_noise_upto n' s; add_noise (Z.of_nat (S n')) s'
  end.

(** [add(1, noise_at 1); ...; add(n, noise_at n)] for a store whose [add]
    takes the noise from the caller. *)
Fixpoint add_upto {St} (add : Z → Z → St → result St) (noise_at : Z → Z)
    (n : nat) (s : St) : result St :=
  match n with
  | O => Ok s
  | S n' => s' ← add_upto add noise_at n' s; add (Z.of_nat (S n')) (noise_at (Z.of_nat (S n'))) s'
  end.

(** A new store of the given release method, then [n] sequential adds. *)
Definition fresh_run (ng : NoiseGenerator) (method : string) (n : nat)
  : result NoisePartialSumStore :=
  s ← NoisePartialSumStore_init ng method false; add_noise_upto n s.

(** The sum of the noise of a list of partial sums. *)
Definition sum_noise (l : list NoisePartialSum) : Z :=
  foldr (λ p acc, psum_noise p + acc) 0 l.

(** [f 1 + f 2 + ... + f n] *)
Fixpoint sum_upto (f : Z → Z) (n : nat) : Z :=
  match n with
  | O => 0
  | S n' => sum_upto f n' + f (Z.of_nat (S n'))
  end.

(** The sizes of the stored partial sums, as a list read up to order. *)
Definition sizes (d : gmap Z NoisePartialSum) : list Z :=
  psum_size <$> (map_to_list d).*2.

(** The powers of two of the binary representation of [n]: [2^i] for
    every bit [i] that is set in [n]. *)
Definition binary_powers (n : Z) : list Z :=
  (λ i, 2 ^ i) <$> filter (λ i, Z.testbit n i = true) (seqZ 0 (Z.log2 n + 1)).

(** The entries of a two-level store. *)
Definition two_level_entries (s : TwoLevelStore) : list NoisePartialSum :=
  option_list (single_level_store s) ++ option_list (block_level_store s).

(** Sample generators of the scenarios. *)

(** Every draw is the scalar 1. *)
Definition ones_generator : NoiseGenerator :=
  mkNoiseGenerator "laplacian" 8 (λ _ _ _, 1) (λ _ _ _ _, 1).

(** The first draw is 5, every later one 0. *)
Definition five_then_zero : NoiseGenerator :=
  mkNoiseGenerator "laplacian" 10
    (λ _ _ k, match k with O => 5 | _ => 0 end)
    (λ _ _ _ k, match k with O => 5 | _ => 0 end).

(** The draw number [k] (counted from 0) is [k + 1]. *)
Definition counting_generator (kind : string) (horizon : Z) : NoiseGenerator :=
  mkNoiseGenerator kind horizon (λ _ _ k, Z.of_nat k + 1) (λ _ _ _ k, Z.of_nat k + 1).

(** The state of a two-level store after [n] sequential adds. *)
Definition two_level_inv (b : Z) (n : Z) (s : TwoLevelStore) : Prop :=
  block_size s = b
  ∧ new_psum s = None
  ∧ psum_size <$> single_level_store s
    = (if decide (n `mod` b = 0) then None else Some (n `mod` b))
  ∧ psum_size <$> block_level_store s
    = (if decide (n `div` b = 0) then None else Some (n `div` b * b))
  ∧ Z.of_nat (tl_draws s) = n `div` b.

(** *** The layout of a tree-shaped store *)

(** What a dictionary says about where its partial sums lie: start and
    size by key, the noise left out. *)
Definition shape (d : gmap Z NoisePartialSum) : gmap Z (Z * Z) :=
  (λ p, (psum_start p, psum_size p)) <$> d.

(** A tree-shaped store is described by the exponents of its block sizes,
    listed from the latest (rightmost) block to the earliest. *)
Fixpoint total (es : list Z) : Z :=
  match es with
  | [] => 0
  | e :: es' => 2 ^ e + total es'
  end.

(** The blocks tile the time steps from 1 on: a block starts right after
    the blocks to its left. *)
Fixpoint tree_shape (es : list Z) : gmap Z (Z * Z) :=
  match es with
  | [] => ∅
  | e :: es' => <[1 + total es' := (1 + total es', 2 ^ e)]> (tree_shape es')
  end.

(** Exponents at least [j] that grow strictly along the list. *)
Fixpoint ascending_from (j : Z) (es : list Z) : Prop :=
  match es with
  | [] => True
  | e :: es' => j ≤ e ∧ ascending_from (e + 1) es'
  end.

(** Adding a block of size [2^j] to the right of the blocks [es], with the
    carries of a binary increment. *)
Fixpoint carry (j : Z) (es : list Z) : list Z :=
  match es with
  | [] => [j]
  | e :: es' => if decide (j = e) then carry (j + 1) es' else j :: es
  end.

(** The recursion that [consolidate_for_tree] and
    [TreePartialSumStore._consolidate_helper] have in common, on the
    dictionary and the sample count alone; [fresh pp new_size k] is the
    noise sampled for an entry that replaces [pp]. *)
Fixpoint merge_equal_sized (fresh : NoisePartialSum → Z → nat → Z) (fuel : nat)
    (time : Z) (d : gmap Z NoisePartialSum) (k : nat)
  : result (gmap Z NoisePartialSum * nat) :=
  match fuel with
  | O => Raise OutOfFuel
  | S fuel' =>
      pt ← getitem time d;
      let prev_p_sum_time := psum_start pt - psum_size pt in
      match d !! prev_p_sum_time with
      | None => Ok (d, k)
      | Some pp =>
          if decide (psum_size pt = psum_size pp) then
            let new_size := psum_size pt * 2 in
            let d1 := <[prev_p_sum_time :=
                          mkNoisePartialSum prev_p_sum_time new_size (fresh pp new_size k)]> d in
            d' ← delitem time d1;
            merge_equal_sized fresh fuel' prev_p_sum_time d' (S k)
          else Ok (d, k)
      end
  end.

(** *** The layout of a sqrt store *)

(** What a sqrt store with block size [b] holds after [n] sequential adds:
    the completed blocks folded into one entry at START_TIME, and one unit
    entry for each step of the block that is not yet complete. *)
Definition sqrt_shape (b n : Z) (k : Z) : option (Z * Z) :=
  if decide (k = START_TIME ∧ 1 ≤ n `div` b) then Some (START_TIME, n `div` b * b)
  else if decide (n `div` b * b < k ≤ n) then Some (k, 1)
  else None.

(** What [add_noise(t)] under the sqrt method makes of the dictionary [d1]
    that holds the new unit entry, [block_noise] being the sample taken for
    a completed block and [k0] the number of samples taken before the
    add. *)
Definition sqrt_add_outcome (b t block_noise : Z) (k0 : nat)
    (d1 : gmap Z NoisePartialSum) (s' : NoisePartialSumStore) : Prop :=
  let block_start := t - b + 1 in
  match d1 !! block_start with
  | None => store s' = d1 ∧ draws s' = S k0
  | Some _ =>
      draws s' = S (S k0)
      ∧ (∀ k, k ≠ START_TIME →
           store s' !! k = if decide (block_start ≤ k ≤ t) then None else d1 !! k)
      ∧ store s' !! START_TIME
        = Some match (if decide (block_start ≤ START_TIME ≤ t) then None
                      else d1 !! START_TIME) with
               | None => mkNoisePartialSum START_TIME b block_noise
               | Some p0 =>
                   mkNoisePartialSum START_TIME (psum_size p0 + b)
                     (psum_noise p0 + block_noise)
               end
  end.

(** *** Notions used by the further properties *)

(** [f lo + f (lo + 1) + ... + f (lo + len - 1)] *)
Fixpoint sum_range (f : Z → Z) (lo : Z) (len : nat) : Z :=
  match len with
  | O => 0
  | S len' => sum_range f lo len' + f (lo + Z.of_nat len')
  end.

(** The sum of a list of integers. *)
Definition sum_Z (l : list Z) : Z := foldr Z.add 0 l.

(** The calls [add(t, x)] for the pairs [(t, x)] of a list, in order. *)
Fixpoint add_all {St} (add : Z → Z → St → result St) (l : list (Z * Z)) (s : St)
  : result St :=
  match l with
  | [] => Ok s
  | (t, x) :: l' => s' ← add t x s; add_all add l' s'
  end.

(** The sample a two-level store takes when its [j]-th block completes:
    scale [2 * eps], sensitivity the last time step of the block, after
    [j - 1] earlier samples. *)
Definition two_level_block_draw (ng : NoiseGenerator) (b : Z) (j : Z) : Z :=
  laplacian ng (R_mul (R_int 2) R_eps) (Some (j * b)) (Z.to_nat (j - 1)).

(** The two-level store with block size [b] after the adds
    [add(1, noise_at 1) ... add(n, noise_at n)]. *)
Definition two_level_state (ng : NoiseGenerator) (b : Z) (noise_at : Z → Z) (n : Z)
  : TwoLevelStore :=
  let q := n `div` b in
  let r := n `mod` b in
  mkTwoLevelStore ng (Z.to_nat q) b
    (if decide (q = 0) then None
     else Some (mkNoisePartialSum START (q * b)
                  (sum_range (two_level_block_draw ng b) 1 (Z.to_nat q))))
    (if decide (r = 0) then None
     else Some (mkNoisePartialSum (q * b + 1) r
                  (sum_range noise_at (q * b + 1) (Z.to_nat r))))
    None.

(** The partial sums of [d] tile the time steps [1..n]: every entry starts
    at its key, covers at least one step and lies within [1..n], and every
    step of [1..n] is covered by exactly one entry. *)
Definition tiles (n : Z) (d : gmap Z NoisePartialSum) : Prop :=
  (∀ k p, d !! k = Some p →
          psum_start p = k ∧ 1 ≤ psum_size p ∧ 1 ≤ k ∧ k + psum_size p - 1 ≤ n)
  ∧ (∀ t, 1 ≤ t ≤ n →
          ∃ k p, d !! k = Some p
                 ∧ k ≤ t < k + psum_size p
                 ∧ ∀ k' p', d !! k' = Some p' → k' ≤ t < k' + psum_size p' → k' = k).

(** The layout of the tree-level entries of a hybrid store: blocks of the
    sizes [2^e] that tile the time steps after [base], listed from the
    latest block to the earliest. *)
Fixpoint block_shape (base : Z) (es : list Z) : gmap Z (Z * Z) :=
  match es with
  | [] => ∅
  | e :: es' =>
      <[base + 1 + total es' := (base + 1 + total es', 2 ^ e)]> (block_shape base es')
  end.




(** * Properties *)

(** ** Auxiliary facts *)

Lemma foldl_add_noise (l : list NoisePartialSum) (a : Z) :
  foldl (λ N p, N + psum_noise p) a l = a + sum_noise l.
Proof.
  revert a. induction l as [|p l IH]; intros a; simpl.
  - lia.
  - rewrite IH. lia.
Qed.

Lemma sum_noise_perm (l1 l2 : list NoisePartialSum) :
  l1 ≡ₚ l2 → sum_noise l1 = sum_noise l2.
Proof.
  induction 1; simpl; lia.
Qed.

Lemma sum_noise_empty : sum_noise (map_to_list (∅ : gmap Z NoisePartialSum)).*2 = 0.
Proof. by rewrite map_to_list_empty. Qed.

Lemma sum_noise_insert (d : gmap Z NoisePartialSum) (k : Z) (p : NoisePartialSum) :
  sum_noise (map_to_list (<[k := p]> d)).*2
  = psum_noise p + sum_noise (map_to_list (delete k d)).*2.
Proof.
  rewrite <- (insert_delete_eq d k p).
  rewrite (sum_noise_perm _ ((k, p) :: map_to_list (delete k d)).*2).
  - reflexivity.
  - apply fmap_Permutation, map_to_list_insert, lookup_delete_eq.
Qed.

Lemma sum_noise_singleton (k : Z) (p : NoisePartialSum) :
  sum_noise (map_to_list ({[k := p]} : gmap Z NoisePartialSum)).*2 = psum_noise p.
Proof. rewrite map_to_list_singleton. simpl. lia. Qed.

Lemma size_zero_empty (d : gmap Z NoisePartialSum) : size d = 0%nat → d = ∅.
Proof. apply map_size_empty_inv. Qed.

(** ** Release *)

(** C1, as the code has it.  Every release method is a total function
    and hands back the store object as it was.  [release_noise] and the
    [release] of the base class, which the once, every and tree stores
    inherit, return the sum of the noise over the entries of the
    dictionary: zero on the empty one, and for a store with an entry [p]
    at key [k] the noise of [p] plus what the store without that key
    releases.  The two-level store returns the sum of the noise of its
    block-level and single-level entries, those that are there; zero when
    neither is.  The hybrid store returns zero as long as it has no
    log-level entry, whatever [tree_store] holds; with a log-level entry
    it returns the noise of that entry plus the sum of the noise over
    [tree_store]. *)
Theorem release_of_every_store :
  (∀ s, (release_noise s).2 = s)
  ∧ (∀ s, (release_noise s).1 = sum_noise (map_to_list (store s)).*2)
  ∧ (∀ s, (release_noise (set_store ∅ s)).1 = zeros)
  ∧ (∀ s k p,
       (release_noise (set_store (<[k := p]> (store s)) s)).1
       = psum_noise p + (release_noise (set_store (delete k (store s)) s)).1)
  ∧ (∀ s, (_NoisePartialSumStore.release s).2 = s)
  ∧ (∀ s, (_NoisePartialSumStore.release s).1 = sum_noise (map_to_list (base_store s)).*2)
  ∧ (∀ s, (_NoisePartialSumStore.release (_NoisePartialSumStore.set_store ∅ s)).1 = 0)
  ∧ (∀ s k p,
       (_NoisePartialSumStore.release
          (_NoisePartialSumStore.set_store (<[k := p]> (base_store s)) s)).1
       = psum_noise p
         + (_NoisePartialSumStore.release
              (_NoisePartialSumStore.set_store (delete k (base_store s)) s)).1)
  ∧ (∀ s, OncePartialSumStore.release s = (sum_noise (map_to_list (base_store s)).*2, s))
  ∧ (∀ s, EveryPartialSumStore.release s = (sum_noise (map_to_list (base_store s)).*2, s))
  ∧ (∀ s, TreePartialSumStore.release s = (sum_noise (map_to_list (base_store s)).*2, s))
  ∧ (∀ s, TwoLevelPartialSumStore.release s
          = (match block_level_store s, single_level_store s with
             | Some bl, Some sl => psum_noise bl + psum_noise sl
             | Some bl, None => psum_noise bl
             | None, Some sl => psum_noise sl
             | None, None => 0
             end, s))
  ∧ (∀ s, (TwoLevelPartialSumStore.release s).1 = sum_noise (two_level_entries s))
  ∧ (∀ s, HybridPartialSumStore.release s
          = (match log_store s with
             | None => 0
             | Some lg => psum_noise lg + sum_noise (map_to_list (tree_store s)).*2
             end, s)).
Proof.
  assert (Hnew : ∀ s, (_NoisePartialSumStore.release s).1
                      = sum_noise (map_to_list (base_store s)).*2).
  { intros s. unfold _NoisePartialSumStore.release.
    destruct (decide (size (base_store s) = 0%nat)) as [Hz|Hz]; simpl.
    - rewrite (size_zero_empty _ Hz), sum_noise_empty. reflexivity.
    - cbn -[map_to_list]. rewrite foldl_add_noise. unfold np_zeros. lia. }
  assert (Hsame : ∀ s, (_NoisePartialSumStore.release s).2 = s)
    by (intros s; unfold _NoisePartialSumStore.release; by case_decide).
  assert (Hpair : ∀ s, _NoisePartialSumStore.release s
                       = (sum_noise (map_to_list (base_store s)).*2, s)).
  { intros s. specialize (Hnew s). specialize (Hsame s).
    destruct (_NoisePartialSumStore.release s) as [v s']. cbn [fst snd] in *.
    congruence. }
  split_and!.
  - intros s. reflexivity.
  - intros s. unfold release_noise; cbn -[map_to_list].
    rewrite foldl_add_noise. unfold zeros. lia.
  - intros s. unfold release_noise; cbn -[map_to_list].
    rewrite foldl_add_noise, sum_noise_empty. reflexivity.
  - intros s k p. unfold release_noise; cbn -[map_to_list].
    rewrite !foldl_add_noise, sum_noise_insert. unfold zeros. lia.
  - exact Hsame.
  - exact Hnew.
  - intros s. rewrite Hnew. simpl. apply sum_noise_empty.
  - intros s k p. rewrite !Hnew. simpl. apply sum_noise_insert.
  - exact Hpair.
  - exact Hpair.
  - exact Hpair.
  - intros s. unfold TwoLevelPartialSumStore.release.
    destruct (block_level_store s), (single_level_store s); reflexivity.
  - intros s. unfold TwoLevelPartialSumStore.release, two_level_entries.
    destruct (block_level_store s), (single_level_store s); simpl;
      unfold np_zeros; lia.
  - intros s. unfold HybridPartialSumStore.release.
    destruct (log_store s) as [lg|]; [|reflexivity].
    cbn zeta. rewrite foldl_add_noise. reflexivity.
Qed.

(** C1 as stated fails for the hybrid store: after the add at time 3 on a
    new store, the partial sum with noise 7 is in [tree_store], and
    [release] returns zero, not 7, as there is no log-level entry. *)
Lemma hybrid_release_leaves_out_tree_level :
  let s := mkHybridStore None 0 {[3 := mkNoisePartialSum 3 1 7]} None None in
  HybridPartialSumStore.add 3 7 (HybridPartialSumStore.init None) = Ok s
  ∧ sum_noise (map_to_list (tree_store s)).*2 = 7
  ∧ (HybridPartialSumStore.release s).1 = 0.
Proof. vm_compute. repeat split. Qed.

(** The stores that keep their entries in fields of their own release the
    sum of the noise of those entries. *)
Lemma two_level_release (s : TwoLevelStore) :
  TwoLevelPartialSumStore.release s = (sum_noise (two_level_entries s), s).
Proof.
  unfold TwoLevelPartialSumStore.release, two_level_entries.
  destruct (block_level_store s), (single_level_store s); simpl; f_equal;
    unfold np_zeros; lia.
Qed.

Lemma hybrid_release (s : HybridStore) (lg : NoisePartialSum) :
  log_store s = Some lg →
  HybridPartialSumStore.release s
  = (psum_noise lg + sum_noise (map_to_list (tree_store s)).*2, s).
Proof.
  intros Hlg. unfold HybridPartialSumStore.release. rewrite Hlg.
  cbn zeta. rewrite foldl_add_noise. reflexivity.
Qed.

(** ** Dispatch on the release method *)

Lemma consolidate_store_once time s :
  release_method s = "once"%string → consolidate_store time s = consolidate_for_once time s.
Proof. intros H. unfold consolidate_store. rewrite H. reflexivity. Qed.

Lemma consolidate_store_every time s :
  release_method s = "every"%string → consolidate_store time s = consolidate_for_every time s.
Proof. intros H. unfold consolidate_store. rewrite H. reflexivity. Qed.

Lemma consolidate_store_sqrt time s :
  release_method s = "sqrt"%string → consolidate_store time s = consolidate_for_sqrt time s.
Proof. intros H. unfold consolidate_store. rewrite H. reflexivity. Qed.

Lemma consolidate_store_tree time s :
  release_method s = "tree"%string → consolidate_store time s = consolidate_for_tree time s.
Proof. intros H. unfold consolidate_store. rewrite H. reflexivity. Qed.

Lemma consolidate_store_hybrid time s :
  release_method s = "hybrid"%string →
  consolidate_store time s = consolidate_for_hybrid time s.
Proof. intros H. unfold consolidate_store. rewrite H. reflexivity. Qed.

(** ** Construction *)

Lemma init_accepts ng method theta :
  method ∈ recognized_methods →
  method = "tree"%string ∨ noise_type ng = "laplacian"%string →
  NoisePartialSumStore_init ng method theta = Ok (mkNoisePartialSumStore ng method theta ∅ 0).
Proof.
  intros Hin Hor. unfold NoisePartialSumStore_init.
  destruct (decide (method ≠ "tree"%string ∧ noise_type ng ≠ "laplacian"%string))
    as [[? ?]|_]; [tauto|].
  destruct (decide (method ∉ recognized_methods)); [contradiction|reflexivity].
Qed.

(** C6, as the code has it.  Construction raises NotImplementedError, and
    so yields no store, for every method name outside the recognized list
    and for every noise generator whose type is not laplacian when the
    method is not the tree method; the tree method is constructed with a
    noise generator of any type. *)
Theorem init_configuration_errors ng method theta :
  (method ∉ recognized_methods
   ∨ (method ≠ "tree"%string ∧ noise_type ng ≠ "laplacian"%string) →
   NoisePartialSumStore_init ng method theta = Raise NotImplementedError)
  ∧ NoisePartialSumStore_init ng "tree" theta
    = Ok (mkNoisePartialSumStore ng "tree" theta ∅ 0).
Proof.
  split.
  - intros H. unfold NoisePartialSumStore_init.
    destruct (decide (method ≠ "tree"%string ∧ noise_type ng ≠ "laplacian"%string));
      [reflexivity|].
    destruct (decide (method ∉ recognized_methods)); [reflexivity|tauto].
  - apply init_accepts; [|by left]. unfold recognized_methods. set_solver.
Qed.

Lemma init_configuration_errors_witness :
  NoisePartialSumStore_init (counting_generator "gaussian" 8) "every" false
  = Raise NotImplementedError.
Proof.
  apply (proj1 (init_configuration_errors (counting_generator "gaussian" 8) "every" false)).
  right. split; [discriminate|]. simpl. discriminate.
Defined.

(** C6 as stated fails: the tree method with a noise generator that is not
    of type laplacian is constructed without an error. *)
Lemma init_tree_with_gaussian_noise :
  noise_type (counting_generator "gaussian" 8) ≠ "laplacian"%string
  ∧ NoisePartialSumStore_init (counting_generator "gaussian" 8) "tree" false
    = Ok (mkNoisePartialSumStore (counting_generator "gaussian" 8) "tree" false ∅ 0).
Proof. split; [simpl; discriminate|reflexivity]. Qed.

(** ** Adding at a key that is taken *)



(** ** The once strategy *)

Lemma add_noise_once_first ng theta :
  T ng ≠ 0 →
  add_noise 1 (mkNoisePartialSumStore ng "once" theta ∅ 0)
  = Ok (mkNoisePartialSumStore ng "once" theta
          {[START_TIME := mkNoisePartialSum 1 1
                            (laplacian ng (R_div R_eps (R_int (T ng))) None 0)]} 1).
Proof.
  intros HT. unfold add_noise, div_by_int. simpl release_method.
  rewrite decide_True by reflexivity. rewrite decide_True by reflexivity.
  cbn [noise_generator]. rewrite decide_False by exact HT. reflexivity.
Qed.

Lemma add_noise_once_later ng theta p k time :
  time ≠ START_TIME →
  add_noise time (mkNoisePartialSumStore ng "once" theta {[START_TIME := p]} k)
  = Ok (mkNoisePartialSumStore ng "once" theta {[START_TIME := p]} k).
Proof.
  intros Hne. unfold add_noise. simpl release_method.
  rewrite decide_True by reflexivity.
  rewrite decide_False by (simpl; rewrite map_size_singleton; lia).
  cbn [mbind result_bind].
  rewrite consolidate_store_once by reflexivity.
  unfold consolidate_for_once. rewrite decide_True by assumption.
  unfold delitem. simpl store. rewrite lookup_insert_eq. cbn [mbind result_bind].
  unfold set_store. simpl.
  rewrite delete_insert_eq, delete_singleton_ne by (intros ?; apply Hne; congruence).
  reflexivity.
Qed.

Lemma once_run ng n :
  noise_type ng = "laplacian"%string →
  T ng ≠ 0 →
  fresh_run ng "once" (S n)
  = Ok (mkNoisePartialSumStore ng "once" false
          {[START_TIME := mkNoisePartialSum 1 1
                            (laplacian ng (R_div R_eps (R_int (T ng))) None 0)]} 1).
Proof.
  intros Hty HT. unfold fresh_run.
  rewrite init_accepts; [|unfold recognized_methods; set_solver|by right].
  cbn [mbind result_bind].
  induction n as [|n IH].
  - apply add_noise_once_first, HT.
  - change (add_noise_upto (S (S n)) ?s)
      with (s' ← add_noise_upto (S n) s; add_noise (Z.of_nat (S (S n))) s').
    rewrite IH. cbn [mbind result_bind].
    apply add_noise_once_later. unfold START_TIME. lia.
Qed.

Lemma once_new_first g x :
  OncePartialSumStore.add 1 x (OncePartialSumStore.init g)
  = Ok (mkBaseStore {[START := mkNoisePartialSum 1 1 x]} g 0).
Proof. reflexivity. Qed.

Lemma once_new_later g p k time x :
  time ≠ START →
  OncePartialSumStore.add time x (mkBaseStore {[START := p]} g k)
  = Ok (mkBaseStore {[START := p]} g k).
Proof.
  intros Hne. unfold OncePartialSumStore.add, _NoisePartialSumStore.add_with,
    OncePartialSumStore.consolidate. simpl.
  rewrite lookup_insert_ne by congruence.
  rewrite lookup_singleton_eq. reflexivity.
Qed.

Lemma once_new_run g noise_at n :
  add_upto OncePartialSumStore.add noise_at (S n) (OncePartialSumStore.init g)
  = Ok (mkBaseStore {[START := mkNoisePartialSum 1 1 (noise_at 1)]} g 0).
Proof.
  induction n as [|n IH].
  - apply once_new_first.
  - change (add_upto ?a ?f (S (S n)) ?s)
      with (s' ← add_upto a f (S n) s; a (Z.of_nat (S (S n))) (f (Z.of_nat (S (S n)))) s').
    rewrite IH. cbn [mbind result_bind].
    apply once_new_later. unfold START. lia.
Qed.

(** C5.  Under the once strategy, after [n ≥ 1] sequential adds the store
    holds exactly one entry, at START_TIME, and its noise is the value
    sampled at the first add, for every [n]; [release] returns that value.
    This holds for [NoisePartialSumStore] with the once method, which
    samples by itself (at scale [eps / T], for a horizon [T] other than
    0), and for [OncePartialSumStore], which is handed the noise.  With a sampler that returns 5 first and 0 afterwards, the
    release after 10 adds is 5. *)
Theorem once_store_keeps_first_noise ng g noise_at (n : nat) :
  (1 ≤ n)%nat →
  noise_type ng = "laplacian"%string →
  T ng ≠ 0 →
  let first := laplacian ng (R_div R_eps (R_int (T ng))) None 0 in
  (∃ s, fresh_run ng "once" n = Ok s
        ∧ store s = {[START_TIME := mkNoisePartialSum START_TIME 1 first]}
        ∧ (release_noise s).1 = first)
  ∧ (∃ s, add_upto OncePartialSumStore.add noise_at n (OncePartialSumStore.init g) = Ok s
          ∧ base_store s = {[START := mkNoisePartialSum START 1 (noise_at 1)]}
          ∧ (OncePartialSumStore.release s).1 = noise_at 1).
Proof.
  intros Hn Hty HT first. destruct n as [|n]; [lia|]. split.
  - eexists. split; [apply once_run; [exact Hty|exact HT]|]. split; [reflexivity|].
    unfold release_noise. cbn [fst store].
    rewrite foldl_add_noise, sum_noise_singleton. simpl. unfold zeros. lia.
  - eexists. split; [apply once_new_run|]. split; [reflexivity|].
    unfold OncePartialSumStore.release, _NoisePartialSumStore.release.
    cbn [base_store]. rewrite map_size_singleton.
    rewrite decide_False by lia. cbn [fst].
    rewrite foldl_add_noise, sum_noise_singleton.
    simpl. unfold np_zeros. lia.
Qed.

Lemma once_store_keeps_first_noise_witness :
  (∃ s, fresh_run five_then_zero "once" 10 = Ok s
        ∧ store s = {[START_TIME := mkNoisePartialSum START_TIME 1 5]}
        ∧ (release_noise s).1 = 5)
  ∧ (∃ s, add_upto OncePartialSumStore.add (λ t, if decide (t = 1) then 5 else 0) 10
            (OncePartialSumStore.init (Some five_then_zero)) = Ok s
          ∧ base_store s = {[START := mkNoisePartialSum START 1 5]}
          ∧ (OncePartialSumStore.release s).1 = 5).
Proof.
  exact (once_store_keeps_first_noise five_then_zero (Some five_then_zero)
           (λ t, if decide (t = 1) then 5 else 0) 10 ltac:(lia) eq_refl
           ltac:(discriminate)).
Defined.

(** ** The every strategy *)

Lemma add_noise_every_first ng theta :
  add_noise 1 (mkNoisePartialSumStore ng "every" theta ∅ 0)
  = Ok (mkNoisePartialSumStore ng "every" theta
          {[START_TIME := mkNoisePartialSum 1 1
                            (laplacian ng R_eps None 0 + laplacian ng R_eps None 0)]} 1).
Proof. reflexivity. Qed.

Lemma add_noise_every_later ng theta p k time :
  time ≠ START_TIME →
  add_noise time (mkNoisePartialSumStore ng "every" theta {[START_TIME := p]} k)
  = Ok (mkNoisePartialSumStore ng "every" theta
          {[START_TIME := mkNoisePartialSum 1 time
                            (psum_noise p + laplacian ng R_eps None k)]} (S k)).
Proof.
  intros Hne. unfold add_noise. simpl release_method.
  rewrite decide_False by discriminate. rewrite decide_True by reflexivity.
  cbn [mbind result_bind draw_laplacian].
  rewrite consolidate_store_every by reflexivity.
  unfold consolidate_for_every, getitem, delitem. simpl store.
  rewrite (lookup_insert_ne _ time START_TIME) by assumption.
  rewrite lookup_singleton_eq, lookup_insert_eq. cbn [mbind result_bind].
  rewrite decide_True by assumption.
  rewrite (lookup_insert_ne _ START_TIME time) by congruence.
  rewrite lookup_insert_eq.
  cbn [mbind result_bind]. unfold set_store. simpl.
  rewrite delete_insert_ne, delete_insert_eq, delete_singleton_ne, insert_singleton_eq
    by congruence.
  reflexivity.
Qed.

(** What the every method of [NoisePartialSumStore] holds after [n + 1]
    sequential adds: one entry at START_TIME of size [n + 1] whose noise is
    the sum of the samples with the first sample counted twice. *)
Lemma every_run ng n :
  noise_type ng = "laplacian"%string →
  fresh_run ng "every" (S n)
  = Ok (mkNoisePartialSumStore ng "every" false
          {[START_TIME :=
              mkNoisePartialSum 1 (Z.of_nat (S n))
                (laplacian ng R_eps None 0
                 + sum_upto (λ t, laplacian ng R_eps None (Z.to_nat (t - 1))) (S n))]}
          (S n)).
Proof.
  intros Hty. unfold fresh_run.
  rewrite init_accepts; [|unfold recognized_methods; set_solver|by right].
  cbn [mbind result_bind].
  induction n as [|n IH].
  - apply add_noise_every_first.
  - change (add_noise_upto (S (S n)) ?s)
      with (s' ← add_noise_upto (S n) s; add_noise (Z.of_nat (S (S n))) s').
    rewrite IH. cbn [mbind result_bind].
    rewrite add_noise_every_later by (unfold START_TIME; lia).
    cbn [psum_noise sum_upto].
    replace (Z.to_nat (Z.of_nat (S (S n)) - 1)) with (S n) by lia.
    rewrite !Z.add_assoc. reflexivity.
Qed.

Lemma every_new_first g x :
  EveryPartialSumStore.add 1 x (EveryPartialSumStore.init g)
  = Ok (mkBaseStore {[START := mkNoisePartialSum 1 1 x]} g 0).
Proof. reflexivity. Qed.

Lemma every_new_later g p k time x :
  time ≠ START →
  EveryPartialSumStore.add time x (mkBaseStore {[START := p]} g k)
  = Ok (mkBaseStore {[START := mkNoisePartialSum 1 1 (psum_noise p + x)]} g k).
Proof.
  intros Hne. unfold EveryPartialSumStore.add, _NoisePartialSumStore.add_with,
    EveryPartialSumStore.consolidate. cbn [base_store _NoisePartialSumStore.set_store].
  rewrite decide_False.
  2:{ rewrite map_size_insert_None by (rewrite lookup_singleton_ne; congruence). lia. }
  rewrite foldl_add_noise, sum_noise_insert, delete_singleton_ne, sum_noise_singleton
    by congruence.
  unfold _NoisePartialSumStore.set_store.
  cbn [base_noise_generator base_draws psum_noise].
  replace (np_zeros + (x + psum_noise p)) with (psum_noise p + x)
    by (unfold np_zeros; lia).
  reflexivity.
Qed.

(** What [EveryPartialSumStore] holds after [n + 1] sequential adds: one
    entry at START whose noise is the sum of the noise handed to the adds,
    and whose size is 1. *)
Lemma every_new_run g noise_at n :
  add_upto EveryPartialSumStore.add noise_at (S n) (EveryPartialSumStore.init g)
  = Ok (mkBaseStore {[START := mkNoisePartialSum 1 1 (sum_upto noise_at (S n))]} g 0).
Proof.
  induction n as [|n IH].
  - apply every_new_first.
  - change (add_upto ?a ?f (S (S n)) ?s)
      with (s' ← add_upto a f (S n) s; a (Z.of_nat (S (S n))) (f (Z.of_nat (S (S n)))) s').
    rewrite IH. cbn [mbind result_bind].
    rewrite every_new_later by (unfold START; lia). reflexivity.
Qed.

(** C4 on the code.  With a sampler whose first draw is 1, one add under
    the every method of [NoisePartialSumStore] stores the noise 2: the
    first sample is added to itself.  [EveryPartialSumStore] after the two
    adds [add(1, 1)] and [add(2, 2)] holds the noise 3 in an entry of size
    1, not 2. *)
Theorem every_store_misses_sum_and_size :
  laplacian (counting_generator "laplacian" 8) R_eps None 0 = 1
  ∧ fresh_run (counting_generator "laplacian" 8) "every" 1
    = Ok (mkNoisePartialSumStore (counting_generator "laplacian" 8) "every" false
            {[START_TIME := mkNoisePartialSum 1 1 2]} 1)
  ∧ add_upto EveryPartialSumStore.add (λ t, t) 2 (EveryPartialSumStore.init None)
    = Ok (mkBaseStore {[START := mkNoisePartialSum 1 1 3]} None 0).
Proof.
  split; [reflexivity|]. split.
  - rewrite every_run by reflexivity. reflexivity.
  - rewrite every_new_run. reflexivity.
Qed.

(** ** Powers of two *)

Lemma is_power_of_two_spec (val : Z) :
  is_power_of_two val = true ↔ ∃ k, 0 ≤ k ∧ val = 2 ^ k.
Proof.
  unfold is_power_of_two. rewrite andb_true_iff, Z.eqb_eq, Z.ltb_lt. split.
  - intros [Hland Hpos]. exists (Z.log2 val).
    pose proof (Z.log2_nonneg val) as Hk.
    destruct (Z.log2_spec val Hpos) as [Hlo Hhi].
    split; [assumption|].
    destruct (decide (val = 2 ^ Z.log2 val)) as [|Hne]; [assumption|exfalso].
    assert (Hlog : Z.log2 (val - 1) = Z.log2 val)
      by (apply Z.log2_unique; [assumption|lia]).
    assert (Hb1 : Z.testbit val (Z.log2 val) = true) by (apply Z.bit_log2; lia).
    assert (Hb2 : Z.testbit (val - 1) (Z.log2 val) = true).
    { rewrite <- Hlog. apply Z.bit_log2. lia. }
    assert (Hb : Z.testbit (Z.land val (val - 1)) (Z.log2 val) = true)
      by (rewrite Z.land_spec, Hb1, Hb2; reflexivity).
    rewrite Hland, Z.bits_0 in Hb. discriminate.
  - intros (k & Hk & ->). split.
    + replace (2 ^ k - 1) with (Z.ones k) by (rewrite Z.ones_equiv; lia).
      rewrite Z.land_ones by assumption. apply Z_mod_same_full.
    + apply Z.pow_pos_nonneg; lia.
Qed.

(** ** The tree scenario *)

(** C9.  With a sampler that returns the scalar 1 for every draw, seven
    sequential adds under the tree strategy leave three entries, of sizes
    4, 2 and 1, and the release is 3; so for [NoisePartialSumStore] with
    the tree method and for [TreePartialSumStore]. *)
Theorem tree_seven_adds_of_ones :
  (∃ s, fresh_run ones_generator "tree" 7 = Ok s
        ∧ store s = {[1 := mkNoisePartialSum 1 4 1;
                      5 := mkNoisePartialSum 5 2 1;
                      7 := mkNoisePartialSum 7 1 1]}
        ∧ sizes (store s) ≡ₚ [4; 2; 1]
        ∧ (release_noise s).1 = 3)
  ∧ (∃ s, add_upto TreePartialSumStore.add (λ _, 1) 7
            (TreePartialSumStore.init (Some ones_generator)) = Ok s
          ∧ base_store s = {[1 := mkNoisePartialSum 1 4 1;
                             5 := mkNoisePartialSum 5 2 1;
                             7 := mkNoisePartialSum 7 1 1]}
          ∧ sizes (base_store s) ≡ₚ [4; 2; 1]
          ∧ (TreePartialSumStore.release s).1 = 3).
Proof.
  split.
  - eexists. split; [vm_compute; reflexivity|].
    split; [vm_compute; reflexivity|].
    split; [|vm_compute; reflexivity].
    change [4; 2; 1] with (reverse [1; 2; 4]). rewrite reverse_Permutation.
    vm_compute. reflexivity.
  - eexists. split; [vm_compute; reflexivity|].
    split; [vm_compute; reflexivity|].
    split; [|vm_compute; reflexivity].
    change [4; 2; 1] with (reverse [1; 2; 4]). rewrite reverse_Permutation.
    vm_compute. reflexivity.
Qed.

(** ** The two-level strategy *)

Lemma div_mod_succ (n b : Z) :
  0 ≤ n → 1 ≤ b →
  (n `mod` b + 1 < b ∧ (n + 1) `mod` b = n `mod` b + 1 ∧ (n + 1) `div` b = n `div` b)
  ∨ (n `mod` b + 1 = b ∧ (n + 1) `mod` b = 0 ∧ (n + 1) `div` b = n `div` b + 1).
Proof.
  intros Hn Hb.
  pose proof (Z.div_mod n b ltac:(lia)) as Hdm.
  pose proof (Z.mod_pos_bound n b ltac:(lia)) as Hr.
  destruct (decide (n `mod` b + 1 < b)) as [Hlt|Hge].
  - left. split; [assumption|].
    assert (Hq : n `div` b = (n + 1) `div` b ∧ n `mod` b + 1 = (n + 1) `mod` b).
    { apply (Z.div_mod_unique b); [lia|left; apply Z.mod_pos_bound; lia|].
      rewrite <- (Z.div_mod (n + 1) b) by lia. lia. }
    lia.
  - right. split; [lia|].
    assert (Hq : n `div` b + 1 = (n + 1) `div` b ∧ 0 = (n + 1) `mod` b).
    { apply (Z.div_mod_unique b); [lia|left; apply Z.mod_pos_bound; lia|].
      rewrite <- (Z.div_mod (n + 1) b) by lia. lia. }
    lia.
Qed.

Lemma two_level_add_inv (b n : Z) (s : TwoLevelStore) (time noise : Z) :
  0 ≤ n → 1 ≤ b → two_level_inv b n s →
  ∃ s', TwoLevelPartialSumStore.add time noise s = Ok s' ∧ two_level_inv b (n + 1) s'.
Proof.
  intros Hn Hb (Hbs & Hnew & Hsl & Hbl & Hdr).
  destruct s as [ng k bs bl sl np]. simpl in *. subst bs np.
  unfold TwoLevelPartialSumStore.add, TwoLevelPartialSumStore.consolidate.
  cbn [new_psum the_psum mbind result_bind single_level_store block_size
       block_level_store tl_noise_generator tl_draws].
  pose proof (Z.mod_pos_bound n b ltac:(lia)) as Hr.
  pose proof (Z.div_pos n b Hn ltac:(lia)) as Hq.
  remember (match sl with
            | Some sl0 => mkNoisePartialSum (psum_start sl0) (psum_size sl0 + 1)
                            (psum_noise sl0 + psum_noise (mkNoisePartialSum time 1 noise))
            | None => mkNoisePartialSum
                        (psum_start (mkNoisePartialSum time 1 noise))
                        (psum_size (mkNoisePartialSum time 1 noise))
                        (psum_noise (mkNoisePartialSum time 1 noise))
            end) as single eqn:Hsingle.
  assert (Hsize : psum_size single = n `mod` b + 1).
  { subst single. destruct sl as [p|]; simpl in Hsl |- *.
    - destruct (decide (n `mod` b = 0)); [discriminate|]. injection Hsl as ->. reflexivity.
    - destruct (decide (n `mod` b = 0)) as [->|]; [reflexivity|discriminate]. }
  clear Hsingle. rewrite Hsize.
  destruct (div_mod_succ n b Hn Hb) as [(Hlt & Hm & Hd)|(Heq & Hm & Hd)].
  - rewrite decide_False by lia. eexists. split; [reflexivity|].
    unfold two_level_inv. cbn [block_size new_psum single_level_store block_level_store
                               tl_draws fmap option_fmap option_map].
    rewrite Hsize, Hm, Hd. rewrite decide_False by lia. auto.
  - rewrite decide_True by lia. eexists. split; [reflexivity|].
    unfold two_level_inv. cbn [block_size new_psum single_level_store block_level_store
                               tl_draws fmap option_fmap option_map].
    rewrite Hm, Hd.
    rewrite decide_True by reflexivity. rewrite (decide_False (P := _ + 1 = 0)) by lia.
    split_and!; try reflexivity; [|lia].
    destruct bl as [p|]; simpl in Hbl |- *.
    + destruct (decide (n `div` b = 0)); [discriminate|]. injection Hbl as ->.
      f_equal. lia.
    + destruct (decide (n `div` b = 0)) as [->|]; [|discriminate].
      f_equal. lia.
Qed.

Lemma two_level_run_inv ng b noise_at (n : nat) :
  1 ≤ b →
  ∃ s, add_upto TwoLevelPartialSumStore.add noise_at n (TwoLevelPartialSumStore.init ng b)
       = Ok s
       ∧ two_level_inv b (Z.of_nat n) s.
Proof.
  intros Hb. induction n as [|n (s & Hrun & Hinv)].
  - eexists. split; [reflexivity|]. unfold two_level_inv.
    change (Z.of_nat 0) with 0. rewrite Z.mod_0_l, Z.div_0_l by lia.
    split_and!; reflexivity.
  - destruct (two_level_add_inv b (Z.of_nat n) s (Z.of_nat (S n))
                (noise_at (Z.of_nat (S n))) ltac:(lia) Hb Hinv) as (s' & Hadd & Hinv').
    exists s'. split.
    + cbn [add_upto]. rewrite Hrun. exact Hadd.
    + replace (Z.of_nat (S n)) with (Z.of_nat n + 1) by lia. exact Hinv'.
Qed.

(** C10.  Under the two-level strategy with [block_size ≥ 1], after every
    add the single-level entry is either empty or of size strictly below
    [block_size]: after [n] sequential adds it is empty exactly when [n] is
    a multiple of [block_size] and has size [n mod block_size] otherwise;
    the block level has been consolidated [n div block_size] times, once
    each time the unit count reached [block_size]; the store holds at most
    its two entries. *)
Theorem two_level_single_below_block_size ng (b : Z) noise_at (n : nat) :
  1 ≤ b →
  ∃ s, add_upto TwoLevelPartialSumStore.add noise_at n (TwoLevelPartialSumStore.init ng b)
       = Ok s
       ∧ match single_level_store s with
         | None => Z.of_nat n `mod` b = 0
         | Some sl => psum_size sl = Z.of_nat n `mod` b ∧ 1 ≤ psum_size sl < b
         end
       ∧ Z.of_nat (tl_draws s) = Z.of_nat n `div` b
       ∧ (length (two_level_entries s) ≤ 2)%nat.
Proof.
  intros Hb. destruct (two_level_run_inv ng b noise_at n Hb) as (s & Hrun & Hinv).
  exists s. split; [exact Hrun|].
  destruct Hinv as (_ & _ & Hsl & _ & Hdr).
  pose proof (Z.mod_pos_bound (Z.of_nat n) b ltac:(lia)) as Hr.
  split_and!.
  - destruct (single_level_store s) as [p|]; simpl in Hsl.
    + destruct (decide (Z.of_nat n `mod` b = 0)); [discriminate|].
      injection Hsl as ->. lia.
    + destruct (decide (Z.of_nat n `mod` b = 0)); [assumption|discriminate].
  - exact Hdr.
  - unfold two_level_entries.
    destruct (single_level_store s), (block_level_store s); simpl; lia.
Qed.

Lemma two_level_single_below_block_size_witness :
  ∃ s, add_upto TwoLevelPartialSumStore.add (λ t, t) 7
         (TwoLevelPartialSumStore.init ones_generator 3) = Ok s
       ∧ match single_level_store s with
         | None => Z.of_nat 7 `mod` 3 = 0
         | Some sl => psum_size sl = Z.of_nat 7 `mod` 3 ∧ 1 ≤ psum_size sl < 3
         end
       ∧ Z.of_nat (tl_draws s) = Z.of_nat 7 `div` 3
       ∧ (length (two_level_entries s) ≤ 2)%nat.
Proof.
  apply (two_level_single_below_block_size ones_generator 3 (λ t, t) 7). lia.
Defined.

(** ** The hybrid strategy at a power of two *)

(** C7.  Under the hybrid strategy, an add at a time [t] that is a power
    of two above START_TIME leaves exactly one entry, at START_TIME, of
    size [t]; its noise is the noise of the entry that was at START_TIME
    (the log-level entry) plus the noise of this step, and every other
    entry is gone.  [NoisePartialSumStore] samples that noise itself, at
    scale [eps / 2]; [HybridPartialSumStore] is handed it, keeps the
    log-level entry in [log_store] and empties [tree_store]. *)
Theorem hybrid_collapse_at_power_of_two (t : Z) :
  (∃ k, 0 ≤ k ∧ t = 2 ^ k) →
  t > START_TIME →
  (∀ s p0,
     release_method s = "hybrid"%string →
     store s !! START_TIME = Some p0 →
     add_noise t s
     = Ok (mkNoisePartialSumStore (noise_generator s) (release_method s) (is_theta_level s)
             {[START_TIME :=
                 mkNoisePartialSum START_TIME t
                   (psum_noise p0
                    + laplacian (noise_generator s) (R_div R_eps (R_int 2)) None (draws s))]}
             (S (draws s))))
  ∧ (∀ h lg noise,
       log_store h = Some lg →
       HybridPartialSumStore.add t noise h
       = Ok (mkHybridStore (hy_noise_generator h) (hy_draws h) ∅
               (Some (mkNoisePartialSum START t (psum_noise lg + noise))) None)).
Proof.
  intros Hpow Hgt. apply is_power_of_two_spec in Hpow. split.
  - intros s p0 Hm H0. unfold add_noise. rewrite Hm.
    rewrite !decide_False by discriminate. rewrite decide_True by reflexivity.
    rewrite Hpow. cbn [mbind result_bind draw_laplacian].
    rewrite consolidate_store_hybrid by exact Hm.
    unfold consolidate_for_hybrid. cbn [consolidate_for_hybrid_fuel].
    rewrite Hpow, bool_decide_eq_true_2 by exact Hgt.
    cbn [andb]. unfold getitem. cbn [store set_store tick].
    rewrite (lookup_insert_ne _ t START_TIME) by (unfold START_TIME in *; lia).
    rewrite H0, lookup_insert_eq. cbn [mbind result_bind].
    unfold set_store. cbn. rewrite Hm. reflexivity.
  - intros h lg noise Hlg. unfold HybridPartialSumStore.add, HybridPartialSumStore.consolidate.
    cbn [new_noise the_psum mbind result_bind psum_start psum_noise].
    rewrite decide_False by (unfold START, START_TIME in *; lia).
    change (HybridPartialSumStore.is_power_of_two t) with (is_power_of_two t).
    rewrite Hpow. cbn [log_store]. rewrite Hlg. reflexivity.
Qed.

(** A sequential run reaches such a state: after 15 adds the store holds
    the log-level entry at START_TIME and three tree-level entries, and
    the add at time 16 folds its sample (the 21st, 21) into the log-level
    noise (16) and drops the rest. *)
Lemma hybrid_run_of_sixteen :
  fresh_run (counting_generator "laplacian" 16) "hybrid" 15
  = Ok (mkNoisePartialSumStore (counting_generator "laplacian" 16) "hybrid" false
          {[1 := mkNoisePartialSum 1 8 16; 9 := mkNoisePartialSum 9 4 16;
            13 := mkNoisePartialSum 13 2 19; 15 := mkNoisePartialSum 15 1 20]} 20)
  ∧ fresh_run (counting_generator "laplacian" 16) "hybrid" 16
    = Ok (mkNoisePartialSumStore (counting_generator "laplacian" 16) "hybrid" false
            {[1 := mkNoisePartialSum 1 16 37]} 21).
Proof. split; vm_compute; reflexivity. Qed.

Lemma hybrid_collapse_at_power_of_two_witness :
  add_noise 4 (mkNoisePartialSumStore (counting_generator "laplacian" 8) "hybrid" false
                 {[1 := mkNoisePartialSum 1 2 10; 3 := mkNoisePartialSum 3 1 20]} 3)
  = Ok (mkNoisePartialSumStore (counting_generator "laplacian" 8) "hybrid" false
          {[1 := mkNoisePartialSum 1 4 14]} 4)
  ∧ HybridPartialSumStore.add 4 7
      (mkHybridStore None 0 {[3 := mkNoisePartialSum 3 1 20]}
         (Some (mkNoisePartialSum 1 2 10)) None)
    = Ok (mkHybridStore None 0 ∅ (Some (mkNoisePartialSum 1 4 17)) None).
Proof.
  assert (Hpow : ∃ k, 0 ≤ k ∧ 4 = 2 ^ k) by (exists 2; split; [lia|reflexivity]).
  assert (Hgt : 4 > START_TIME) by (unfold START_TIME; lia).
  destruct (hybrid_collapse_at_power_of_two 4 Hpow Hgt) as [Hold Hnew]. split.
  - apply (Hold (mkNoisePartialSumStore (counting_generator "laplacian" 8) "hybrid" false
                   {[1 := mkNoisePartialSum 1 2 10; 3 := mkNoisePartialSum 3 1 20]} 3)
             (mkNoisePartialSum 1 2 10)); reflexivity.
  - apply (Hnew (mkHybridStore None 0 {[3 := mkNoisePartialSum 3 1 20]}
                   (Some (mkNoisePartialSum 1 2 10)) None)
             (mkNoisePartialSum 1 2 10) 7). reflexivity.
Defined.

(** ** The tree strategy *)

Lemma ascending_from_weaken (j j' : Z) (es : list Z) :
  j' ≤ j → ascending_from j es → ascending_from j' es.
Proof. destruct es as [|e es]; simpl; [trivial|]. intros ? [? ?]. split; [lia|assumption]. Qed.

Lemma ascending_from_Forall (j : Z) (es : list Z) :
  ascending_from j es → Forall (λ e, j ≤ e) es.
Proof.
  revert j. induction es as [|e es IH]; intros j; simpl; [constructor|].
  intros [Hje Hasc]. constructor; [assumption|].
  eapply Forall_impl; [apply IH, Hasc|]. simpl. intros. lia.
Qed.

Lemma ascending_from_NoDup (j : Z) (es : list Z) : ascending_from j es → NoDup es.
Proof.
  revert j. induction es as [|e es IH]; intros j; simpl; [constructor|].
  intros [_ Hasc]. constructor; [|eapply IH, Hasc].
  intros Hin. apply ascending_from_Forall in Hasc.
  rewrite Forall_forall in Hasc. specialize (Hasc e Hin). lia.
Qed.

Lemma total_nonneg (es : list Z) : 0 ≤ total es.
Proof.
  induction es as [|e es IH]; simpl; [lia|].
  pose proof (Z.pow_nonneg 2 e). lia.
Qed.

Lemma carry_ascending (j : Z) (es : list Z) :
  ascending_from j es → ascending_from j (carry j es).
Proof.
  revert j. induction es as [|e es IH]; intros j; simpl.
  - intros _. split; [lia|trivial].
  - intros [Hje Hasc]. destruct (decide (j = e)) as [->|Hne].
    + eapply ascending_from_weaken; [|apply IH, Hasc]. lia.
    + simpl. split; [lia|]. split; [lia|assumption].
Qed.

Lemma carry_total (j : Z) (es : list Z) :
  0 ≤ j → total (carry j es) = 2 ^ j + total es.
Proof.
  revert j. induction es as [|e es IH]; intros j Hj; simpl; [reflexivity|].
  destruct (decide (j = e)) as [->|Hne]; simpl; [|reflexivity].
  rewrite IH by lia. rewrite Z.pow_add_r by lia. change (2 ^ 1) with 2. lia.
Qed.

(** The keys of a tree-shaped store lie among the time steps it covers. *)
Lemma tree_shape_key_bound (j : Z) (es : list Z) (k : Z) :
  0 ≤ j → ascending_from j es → is_Some (tree_shape es !! k) → 1 ≤ k ≤ total es.
Proof.
  revert j. induction es as [|e es IH]; intros j Hj; simpl.
  - intros _ [? H]. rewrite lookup_empty in H. discriminate.
  - intros [Hje Hasc] Hk.
    pose proof (total_nonneg es). pose proof (Z.pow_pos_nonneg 2 e).
    destruct (decide (k = 1 + total es)) as [->|Hne]; [lia|].
    rewrite lookup_insert_ne in Hk by congruence.
    specialize (IH (e + 1) ltac:(lia) Hasc Hk). lia.
Qed.

Lemma tree_shape_fresh (j : Z) (es : list Z) (k : Z) :
  0 ≤ j → ascending_from j es → total es < k → tree_shape es !! k = None.
Proof.
  intros Hj Hasc Hk. apply eq_None_not_Some. intros Hsome.
  pose proof (tree_shape_key_bound j es k Hj Hasc Hsome). lia.
Qed.

(** Every entry of a tree-shaped store starts at its key. *)
Lemma tree_shape_start (es : list Z) (k a b : Z) :
  tree_shape es !! k = Some (a, b) → a = k.
Proof.
  induction es as [|e es IH]; simpl.
  - rewrite lookup_empty. discriminate.
  - destruct (decide (k = 1 + total es)) as [->|Hne].
    + rewrite lookup_insert_eq. congruence.
    + rewrite lookup_insert_ne by congruence. exact IH.
Qed.

Lemma shape_lookup_Some (d : gmap Z NoisePartialSum) (k a b : Z) :
  shape d !! k = Some (a, b) →
  ∃ p, d !! k = Some p ∧ psum_start p = a ∧ psum_size p = b.
Proof.
  unfold shape. rewrite lookup_fmap. destruct (d !! k) as [p|]; simpl; [|discriminate].
  intros [= <- <-]. eauto.
Qed.

Lemma shape_lookup_None (d : gmap Z NoisePartialSum) (k : Z) :
  shape d !! k = None → d !! k = None.
Proof.
  unfold shape. rewrite lookup_fmap. destruct (d !! k); simpl; [discriminate|reflexivity].
Qed.

Lemma shape_insert (d : gmap Z NoisePartialSum) (k : Z) (p : NoisePartialSum) :
  shape (<[k := p]> d) = <[k := (psum_start p, psum_size p)]> (shape d).
Proof. unfold shape. by rewrite fmap_insert. Qed.

Lemma shape_delete (d : gmap Z NoisePartialSum) (k : Z) :
  shape (delete k d) = delete k (shape d).
Proof. unfold shape. by rewrite fmap_delete. Qed.

Lemma shape_size (d : gmap Z NoisePartialSum) : size (shape d) = size d.
Proof. unfold shape. by rewrite map_size_fmap. Qed.

Lemma tree_shape_size (j : Z) (es : list Z) :
  0 ≤ j → ascending_from j es → size (tree_shape es) = length es.
Proof.
  revert j. induction es as [|e es IH]; intros j Hj; simpl.
  - intros _. apply map_size_empty.
  - intros [Hje Hasc]. rewrite map_size_insert_None.
    + f_equal. apply (IH (e + 1)); [lia|assumption].
    + apply (tree_shape_fresh (e + 1)); [lia|assumption|lia].
Qed.


(** The merges triggered by a new rightmost block follow the carries of a
    binary increment, and the fuel is never used up. *)
Lemma merge_equal_sized_carry fresh (es : list Z) :
  ∀ (j : Z) (fuel : nat) (d : gmap Z NoisePartialSum) (k : nat),
    0 ≤ j →
    ascending_from j es →
    shape d = tree_shape (j :: es) →
    (length es < fuel)%nat →
    ∃ d' k', merge_equal_sized fresh fuel (1 + total es) d k = Ok (d', k')
             ∧ shape d' = tree_shape (carry j es).
Proof.
  induction es as [|e es IH]; intros j fuel d k Hj Hasc Hshape Hfuel;
    (destruct fuel as [|fuel]; [simpl in Hfuel; lia|]); cbn [merge_equal_sized].
  - assert (Ht : shape d !! (1 + total []) = Some (1 + total [], 2 ^ j))
      by (rewrite Hshape; apply lookup_insert_eq).
    destruct (shape_lookup_Some _ _ _ _ Ht) as (pt & Hpt & Hst & Hsz).
    unfold getitem. rewrite Hpt. cbn [mbind result_bind]. rewrite Hst, Hsz.
    pose proof (Z.pow_pos_nonneg 2 j ltac:(lia) Hj) as Hpos.
    assert (Hprev : d !! (1 + total [] - 2 ^ j) = None).
    { apply shape_lookup_None. rewrite Hshape. simpl.
      rewrite lookup_insert_ne by lia. apply lookup_empty. }
    rewrite Hprev. eexists _, _. split; [reflexivity|exact Hshape].
  - destruct Hasc as [Hje Hasc].
    assert (Ht : shape d !! (1 + total (e :: es)) = Some (1 + total (e :: es), 2 ^ j))
      by (rewrite Hshape; apply lookup_insert_eq).
    destruct (shape_lookup_Some _ _ _ _ Ht) as (pt & Hpt & Hst & Hsz).
    unfold getitem. rewrite Hpt. cbn [mbind result_bind]. rewrite Hst, Hsz.
    pose proof (Z.pow_pos_nonneg 2 j ltac:(lia) Hj) as Hpos.
    pose proof (total_nonneg es) as Htot.
    assert (Hfresh : ∀ x, total es < x → tree_shape es !! x = None)
      by (intros x Hx; apply (tree_shape_fresh (e + 1)); [lia|assumption|lia]).
    destruct (decide (j = e)) as [->|Hne].
    + replace (1 + total (e :: es) - 2 ^ e) with (1 + total es) by (simpl; lia).
      assert (Hp : shape d !! (1 + total es) = Some (1 + total es, 2 ^ e)).
      { rewrite Hshape. simpl. rewrite lookup_insert_ne by lia. apply lookup_insert_eq. }
      destruct (shape_lookup_Some _ _ _ _ Hp) as (pp & Hpp & Hpst & Hpsz).
      rewrite Hpp. rewrite decide_True by congruence.
      unfold delitem. rewrite lookup_insert_ne by (simpl; lia). rewrite Hpt.
      cbn [mbind result_bind].
      simpl carry. rewrite decide_True by reflexivity.
      apply IH; [lia|assumption| |simpl in Hfuel; lia].
      rewrite shape_delete, shape_insert, Hshape. cbn [psum_start psum_size tree_shape].
      rewrite delete_insert_ne by (simpl; lia).
      rewrite delete_insert_eq.
      rewrite delete_insert_ne by (simpl; lia).
      rewrite delete_id by (apply Hfresh; simpl; lia).
      rewrite insert_insert_eq.
      rewrite Z.pow_add_r by lia. reflexivity.
    + assert (Hlt : 2 ^ j < 2 ^ e) by (apply Z.pow_lt_mono_r; lia).
      assert (Hprev : d !! (1 + total (e :: es) - 2 ^ j) = None).
      { apply shape_lookup_None. rewrite Hshape. simpl.
        rewrite !lookup_insert_ne by lia. apply Hfresh. lia. }
      rewrite Hprev. simpl carry. rewrite decide_False by assumption.
      eexists _, _. split; [reflexivity|exact Hshape].
Qed.

Lemma consolidate_for_tree_fuel_merge (fuel : nat) :
  ∀ time s,
    consolidate_for_tree_fuel fuel time s
    = '(d, k) ← merge_equal_sized
                  (λ _ _ k, generate_noise_tree (noise_generator s) R_eps R_delta
                              (T (noise_generator s)) k)
                  fuel time (store s) (draws s);
      Ok (mkNoisePartialSumStore (noise_generator s) (release_method s)
            (is_theta_level s) d k).
Proof.
  induction fuel as [|fuel IH]; intros time s; [reflexivity|].
  destruct s as [ng m th d k]. cbn [consolidate_for_tree_fuel merge_equal_sized store
    noise_generator release_method is_theta_level draws].
  destruct (getitem time d) as [pt|err]; cbn [mbind result_bind]; [|reflexivity].
  destruct (d !! (psum_start pt - psum_size pt)) as [pp|]; [|reflexivity].
  destruct (decide (psum_size pt = psum_size pp)); [|reflexivity].
  cbn [draw_tree tick store noise_generator release_method is_theta_level draws].
  destruct (delitem time _) as [d'|err]; cbn [mbind result_bind]; [|reflexivity].
  rewrite IH. reflexivity.
Qed.

Lemma tree_helper_fuel_merge (ng : NoiseGenerator) (fuel : nat) :
  ∀ time d k,
    TreePartialSumStore._consolidate_helper_fuel fuel time (mkBaseStore d (Some ng) k)
    = '(d', k') ← merge_equal_sized
                    (λ pp new_size k,
                       laplacian ng (R_div R_eps (R_log2 (R_int (T ng))))
                         (Some (psum_start pp + new_size - 1)) k)
                    fuel time d k;
      Ok (mkBaseStore d' (Some ng) k').
Proof.
  induction fuel as [|fuel IH]; intros time d k; [reflexivity|].
  cbn [TreePartialSumStore._consolidate_helper_fuel merge_equal_sized base_store
    base_noise_generator base_draws].
  destruct (getitem time d) as [pt|err]; cbn [mbind result_bind]; [|reflexivity].
  destruct (d !! (psum_start pt - psum_size pt)) as [pp|]; [|reflexivity].
  destruct (decide (psum_size pt = psum_size pp)); [|reflexivity].
  cbn [the_generator mbind result_bind].
  destruct (delitem time _) as [d'|err]; cbn [mbind result_bind]; [|reflexivity].
  rewrite IH. reflexivity.
Qed.

Lemma add_noise_tree_step (s : NoisePartialSumStore) (es : list Z) :
  release_method s = "tree"%string →
  ascending_from 0 es →
  shape (store s) = tree_shape es →
  ∃ s', add_noise (1 + total es) s = Ok s'
        ∧ release_method s' = "tree"%string
        ∧ noise_generator s' = noise_generator s
        ∧ shape (store s') = tree_shape (carry 0 es).
Proof.
  intros Hm Hasc Hshape. unfold add_noise. rewrite Hm.
  rewrite !decide_False by discriminate. rewrite decide_True by reflexivity.
  cbn [mbind result_bind draw_tree].
  rewrite consolidate_store_tree by exact Hm.
  unfold consolidate_for_tree. rewrite consolidate_for_tree_fuel_merge.
  cbn [store set_store tick noise_generator draws release_method is_theta_level].
  match goal with
  | |- context [merge_equal_sized ?f ?fuel _ ?d ?k] =>
      destruct (merge_equal_sized_carry f es 0 fuel d k) as (d' & k' & Hrun & Hsh)
  end.
  - lia.
  - exact Hasc.
  - rewrite shape_insert, Hshape. reflexivity.
  - rewrite <- shape_size, shape_insert, Hshape.
    rewrite map_size_insert_None by (apply (tree_shape_fresh 0); [lia|assumption|lia]).
    rewrite (tree_shape_size 0) by (lia || assumption). lia.
  - rewrite Hrun. cbn [mbind result_bind]. eexists. split; [reflexivity|].
    cbn. auto.
Qed.

Lemma tree_run_shape ng (n : nat) :
  ∃ s es, fresh_run ng "tree" n = Ok s
          ∧ release_method s = "tree"%string
          ∧ ascending_from 0 es
          ∧ total es = Z.of_nat n
          ∧ shape (store s) = tree_shape es.
Proof.
  unfold fresh_run.
  rewrite init_accepts; [|unfold recognized_methods; set_solver|by left].
  cbn [mbind result_bind].
  induction n as [|n (s & es & Hrun & Hm & Hasc & Htot & Hshape)].
  - exists (mkNoisePartialSumStore ng "tree" false ∅ 0), [].
    split_and!; try reflexivity.
  - destruct (add_noise_tree_step s es Hm Hasc Hshape) as (s' & Hadd & Hm' & _ & Hsh').
    exists s', (carry 0 es). cbn [add_noise_upto]. rewrite Hrun. cbn [mbind result_bind].
    replace (Z.of_nat (S n)) with (1 + total es) by lia.
    split_and!; try assumption.
    + apply carry_ascending, Hasc.
    + rewrite carry_total by lia. simpl. lia.
Qed.

(** [max] of a non-empty list is one of its elements and bounds them all. *)
Lemma foldl_max_spec (xs : list Z) (x : Z) :
  foldl Z.max x xs ∈ x :: xs ∧ ∀ y, y ∈ x :: xs → y ≤ foldl Z.max x xs.
Proof.
  revert x. induction xs as [|a xs IHxs]; intros x; simpl.
  - split; [left|]. intros y Hy. apply list_elem_of_singleton in Hy. lia.
  - destruct (IHxs (Z.max x a)) as [Hin Hle].
    assert (Hmax : Z.max x a ≤ foldl Z.max (Z.max x a) xs) by (apply Hle; left).
    split.
    + apply elem_of_cons in Hin as [Hin|Hin].
      * rewrite Hin. destruct (Z.max_spec x a) as [[_ E]|[_ E]]; rewrite E.
        -- right. left.
        -- left.
      * right. right. exact Hin.
    + intros y Hy. rewrite !elem_of_cons in Hy.
      destruct Hy as [->|[->|Hy]]; [lia|lia|].
      apply Hle. right. assumption.
Qed.

Lemma py_max_greatest (xs : list Z) (t : Z) :
  t ∈ xs → (∀ y, y ∈ xs → y ≤ t) → py_max xs = Ok t.
Proof.
  destruct xs as [|x xs]; [intros H; by apply elem_of_nil in H|].
  intros Hin Hle. unfold py_max. f_equal.
  destruct (foldl_max_spec xs x) as [Hmax Hub].
  specialize (Hle _ Hmax). specialize (Hub _ Hin). lia.
Qed.

(** The starts listed by [psum.start for psum in self.store.values()]. *)
Lemma elem_of_starts (d : gmap Z NoisePartialSum) (x : Z) :
  x ∈ psum_start <$> (map_to_list d).*2 ↔ ∃ k p, d !! k = Some p ∧ psum_start p = x.
Proof.
  rewrite list_elem_of_fmap. split.
  - intros (p & -> & Hp). apply list_elem_of_fmap in Hp as ([k p'] & -> & Hkp).
    apply elem_of_map_to_list in Hkp. eauto.
  - intros (k & p & Hkp & <-). exists p. split; [reflexivity|].
    apply list_elem_of_fmap. exists (k, p). split; [reflexivity|].
    by apply elem_of_map_to_list.
Qed.

Lemma tree_add_step ng (d : gmap Z NoisePartialSum) (k : nat) (es : list Z) (noise : Z) :
  ascending_from 0 es →
  shape d = tree_shape es →
  ∃ d' k', TreePartialSumStore.add (1 + total es) noise (mkBaseStore d (Some ng) k)
           = Ok (mkBaseStore d' (Some ng) k')
           ∧ shape d' = tree_shape (carry 0 es).
Proof.
  intros Hasc Hshape.
  unfold TreePartialSumStore.add, _NoisePartialSumStore.add_with,
    TreePartialSumStore.consolidate, _NoisePartialSumStore.set_store.
  cbn [base_store base_noise_generator base_draws].
  set (d1 := <[1 + total es := mkNoisePartialSum (1 + total es) 1 noise]> d).
  assert (Hsh1 : shape d1 = tree_shape (0 :: es))
    by (unfold d1; rewrite shape_insert, Hshape; reflexivity).
  rewrite (py_max_greatest _ (1 + total es)).
  - cbn [mbind result_bind]. unfold TreePartialSumStore._consolidate_helper.
    rewrite tree_helper_fuel_merge. cbn [base_store].
    match goal with
    | |- context [merge_equal_sized ?f ?fuel _ ?d ?k] =>
        destruct (merge_equal_sized_carry f es 0 fuel d k) as (d' & k' & Hrun & Hsh)
    end; [lia|exact Hasc|exact Hsh1| |].
    + rewrite <- shape_size, Hsh1. cbn [tree_shape].
      rewrite map_size_insert_None by (apply (tree_shape_fresh 0); [lia|assumption|lia]).
      rewrite (tree_shape_size 0) by (lia || assumption). lia.
    + rewrite Hrun. cbn [mbind result_bind]. eauto.
  - apply elem_of_starts. exists (1 + total es), (mkNoisePartialSum (1 + total es) 1 noise).
    split; [apply lookup_insert_eq|reflexivity].
  - intros y Hy. apply elem_of_starts in Hy as (key & p & Hkp & <-).
    assert (Hs : shape d1 !! key = Some (psum_start p, psum_size p))
      by (unfold shape; rewrite lookup_fmap, Hkp; reflexivity).
    rewrite Hsh1 in Hs. pose proof (tree_shape_start _ _ _ _ Hs) as ->.
    pose proof (total_nonneg es) as Htot. cbn [tree_shape] in Hs.
    destruct (decide (key = 1 + total es)) as [->|Hne]; [lia|].
    rewrite lookup_insert_ne in Hs by congruence.
    pose proof (tree_shape_key_bound 0 es key ltac:(lia) Hasc ltac:(eauto)). lia.
Qed.

Lemma tree_new_run_shape ng noise_at (n : nat) :
  ∃ d k es, add_upto TreePartialSumStore.add noise_at n (TreePartialSumStore.init (Some ng))
            = Ok (mkBaseStore d (Some ng) k)
            ∧ ascending_from 0 es
            ∧ total es = Z.of_nat n
            ∧ shape d = tree_shape es.
Proof.
  induction n as [|n (d & k & es & Hrun & Hasc & Htot & Hshape)].
  - exists ∅, 0%nat, []. split_and!; reflexivity.
  - destruct (tree_add_step ng d k es (noise_at (1 + total es)) Hasc Hshape)
      as (d' & k' & Hadd & Hsh').
    exists d', k', (carry 0 es). cbn [add_upto]. rewrite Hrun. cbn [mbind result_bind].
    replace (Z.of_nat (S n)) with (1 + total es) by lia.
    split_and!; try assumption.
    + apply carry_ascending, Hasc.
    + rewrite carry_total by lia. simpl. lia.
Qed.

(** The sizes stored in a tree-shaped store are the powers [2^e]. *)
Lemma tree_shape_values (j : Z) (es : list Z) :
  0 ≤ j → ascending_from j es →
  (map_to_list (tree_shape es)).*2.*2 ≡ₚ (λ e, 2 ^ e) <$> es.
Proof.
  revert j. induction es as [|e es IH]; intros j Hj; simpl.
  - intros _. by rewrite map_to_list_empty.
  - intros [Hje Hasc].
    rewrite map_to_list_insert by (apply (tree_shape_fresh (e + 1)); [lia|assumption|lia]).
    simpl. constructor. apply (IH (e + 1)); [lia|assumption].
Qed.

Lemma sizes_of_shape (d : gmap Z NoisePartialSum) :
  sizes d = (map_to_list (shape d)).*2.*2.
Proof.
  unfold sizes, shape. rewrite map_to_list_fmap, <- !list_fmap_compose.
  apply list_fmap_ext. intros _ [k p] _. reflexivity.
Qed.

Lemma sizes_tree_shape (d : gmap Z NoisePartialSum) (es : list Z) :
  ascending_from 0 es → shape d = tree_shape es →
  sizes d ≡ₚ (λ e, 2 ^ e) <$> es.
Proof.
  intros Hasc Hshape. rewrite sizes_of_shape, Hshape.
  apply (tree_shape_values 0); [lia|assumption].
Qed.

(** The bits of a sum of distinct powers of two. *)
Lemma testbit_total (j : Z) (es : list Z) (i : Z) :
  0 ≤ j → ascending_from j es → 0 ≤ i →
  Z.testbit (total es) i = bool_decide (i ∈ es).
Proof.
  revert i j. induction es as [|e es IH]; intros i j Hj; cbn [total ascending_from].
  - intros _ _. rewrite Z.bits_0. symmetry. apply bool_decide_eq_false_2.
    apply not_elem_of_nil.
  - intros [Hje Hasc] Hi.
    assert (Hnotin : e ∉ es).
    { intros Hin. apply ascending_from_Forall in Hasc.
      rewrite Forall_forall in Hasc. specialize (Hasc e Hin). lia. }
    assert (Hbit : ∀ m, 0 ≤ m → Z.testbit (total es) m = bool_decide (m ∈ es))
      by (intros m Hm; apply (IH m (e + 1)); [lia|assumption|assumption]).
    assert (Hland : Z.land (2 ^ e) (total es) = 0).
    { apply Z.bits_inj'. intros m Hm.
      rewrite Z.land_spec, Z.bits_0, Z.pow2_bits_eqb by lia.
      destruct (Z.eqb_spec e m) as [<-|Hne]; [|reflexivity].
      rewrite Hbit by lia. rewrite bool_decide_eq_false_2 by assumption. reflexivity. }
    rewrite (Z.add_nocarry_lxor _ _ Hland), Z.lxor_spec, Z.pow2_bits_eqb, Hbit by lia.
    destruct (Z.eqb_spec e i) as [<-|Hne].
    + rewrite bool_decide_eq_false_2 by assumption.
      rewrite bool_decide_eq_true_2 by left. reflexivity.
    + simpl. apply bool_decide_ext. rewrite elem_of_cons. split; [tauto|].
      intros [->|?]; [contradiction|assumption].
Qed.

Lemma elem_of_binary_powers (n x : Z) :
  x ∈ binary_powers n ↔ ∃ i, 0 ≤ i ≤ Z.log2 n ∧ Z.testbit n i = true ∧ x = 2 ^ i.
Proof.
  unfold binary_powers. rewrite list_elem_of_fmap. split.
  - intros (i & -> & Hi). apply list_elem_of_filter in Hi as [Hbit Hi].
    apply elem_of_seqZ in Hi. exists i. split_and!; [lia|lia|assumption|reflexivity].
  - intros (i & Hi & Hbit & ->). exists i. split; [reflexivity|].
    apply list_elem_of_filter. split; [assumption|]. apply elem_of_seqZ. lia.
Qed.

Lemma NoDup_binary_powers (n : Z) : NoDup (binary_powers n).
Proof.
  unfold binary_powers. apply NoDup_fmap_2_strong.
  - intros i i' Hi Hi' Heq.
    apply list_elem_of_filter in Hi as [_ Hi]. apply elem_of_seqZ in Hi.
    apply list_elem_of_filter in Hi' as [_ Hi']. apply elem_of_seqZ in Hi'.
    apply (Z.pow_inj_r 2); lia.
  - apply NoDup_filter, NoDup_seqZ.
Qed.

(** Distinct powers of two that sum to [n] are the powers of two of the
    binary representation of [n]. *)
Lemma powers_of_total (es : list Z) :
  ascending_from 0 es →
  (λ e, 2 ^ e) <$> es ≡ₚ binary_powers (total es)
  ∧ NoDup ((λ e : Z, 2 ^ e) <$> es).
Proof.
  intros Hasc.
  pose proof (ascending_from_Forall _ _ Hasc) as Hall. rewrite Forall_forall in Hall.
  assert (Hnd : NoDup ((λ e : Z, 2 ^ e) <$> es)).
  { apply NoDup_fmap_2_strong; [|eapply ascending_from_NoDup, Hasc].
    intros e e' He He' Heq. apply (Z.pow_inj_r 2); [lia|apply Hall, He|apply Hall, He'|exact Heq]. }
  split; [|exact Hnd].
  apply NoDup_Permutation; [exact Hnd|apply NoDup_binary_powers|].
  intros x. rewrite elem_of_binary_powers, list_elem_of_fmap. split.
  - intros (e & -> & He). exists e.
    assert (Hbit : Z.testbit (total es) e = true).
    { rewrite (testbit_total 0) by (lia || assumption || apply Hall, He).
      apply bool_decide_eq_true_2, He. }
    split_and!; [apply Hall, He| |exact Hbit|reflexivity].
    destruct (Z_le_gt_dec e (Z.log2 (total es))) as [|Hgt]; [assumption|].
    rewrite Z.bits_above_log2 in Hbit by (pose proof (total_nonneg es); lia).
    discriminate.
  - intros (i & Hi & Hbit & ->). exists i. split; [reflexivity|].
    rewrite (testbit_total 0) in Hbit by (lia || assumption).
    apply bool_decide_eq_true_1 in Hbit. exact Hbit.
Qed.

(** C2.  Under the tree strategy, after [n ≥ 1] sequential adds at times
    [1..n] the sizes of the stored partial sums are, up to order, exactly
    the powers of two of the binary representation of [n], each of them
    once; so for [NoisePartialSumStore] with the tree method and for
    [TreePartialSumStore] built with a noise generator. *)
Theorem tree_sizes_are_binary_powers ng noise_at (n : nat) :
  (1 ≤ n)%nat →
  (∃ s, fresh_run ng "tree" n = Ok s
        ∧ sizes (store s) ≡ₚ binary_powers (Z.of_nat n)
        ∧ NoDup (sizes (store s)))
  ∧ (∃ s, add_upto TreePartialSumStore.add noise_at n (TreePartialSumStore.init (Some ng))
          = Ok s
          ∧ sizes (base_store s) ≡ₚ binary_powers (Z.of_nat n)
          ∧ NoDup (sizes (base_store s))).
Proof.
  intros _. split.
  - destruct (tree_run_shape ng n) as (s & es & Hrun & _ & Hasc & Htot & Hshape).
    exists s. split; [exact Hrun|].
    pose proof (sizes_tree_shape _ _ Hasc Hshape) as Hsz.
    destruct (powers_of_total es Hasc) as [Hperm Hnd].
    rewrite Hsz, <- Htot. split; [exact Hperm|exact Hnd].
  - destruct (tree_new_run_shape ng noise_at n) as (d & k & es & Hrun & Hasc & Htot & Hshape).
    eexists. split; [exact Hrun|]. cbn [base_store].
    pose proof (sizes_tree_shape _ _ Hasc Hshape) as Hsz.
    destruct (powers_of_total es Hasc) as [Hperm Hnd].
    rewrite Hsz, <- Htot. split; [exact Hperm|exact Hnd].
Qed.

Lemma tree_sizes_are_binary_powers_witness :
  (∃ s, fresh_run ones_generator "tree" 12 = Ok s
        ∧ sizes (store s) ≡ₚ binary_powers (Z.of_nat 12)
        ∧ NoDup (sizes (store s)))
  ∧ (∃ s, add_upto TreePartialSumStore.add (λ t, t) 12
            (TreePartialSumStore.init (Some ones_generator))
          = Ok s
          ∧ sizes (base_store s) ≡ₚ binary_powers (Z.of_nat 12)
          ∧ NoDup (sizes (base_store s))).
Proof.
  apply (tree_sizes_are_binary_powers ones_generator (λ t, t) 12). lia.
Defined.

(** ** The sqrt strategy *)

(** The loop [for _t in range(lo, lo + len): del self.store[_t]] on a
    dictionary that holds every key of the range. *)
Lemma for_each_delitem_seqZ (len : nat) :
  ∀ (lo : Z) (d : gmap Z NoisePartialSum),
    (∀ k, lo ≤ k < lo + Z.of_nat len → is_Some (d !! k)) →
    ∃ d', for_each delitem (seqZ lo (Z.of_nat len)) d = Ok d'
          ∧ ∀ k, d' !! k = if decide (lo ≤ k < lo + Z.of_nat len) then None else d !! k.
Proof.
  induction len as [|len IH]; intros lo d Hall.
  - exists d. split; [reflexivity|]. intros k. rewrite decide_False by lia. reflexivity.
  - rewrite seqZ_cons by lia. cbn [for_each].
    destruct (Hall lo ltac:(lia)) as [p Hp].
    assert (Hdel : delitem lo d = Ok (delete lo d))
      by (unfold delitem; rewrite Hp; reflexivity).
    rewrite Hdel. cbn [mbind result_bind].
    replace (Z.pred (Z.of_nat (S len))) with (Z.of_nat len) by lia.
    destruct (IH (Z.succ lo) (delete lo d)) as (d' & Hrun & Hlook).
    { intros k Hk. rewrite lookup_delete_ne by lia. apply Hall. lia. }
    exists d'. split; [exact Hrun|]. intros k. rewrite Hlook.
    destruct (decide (k = lo)) as [->|Hne].
    + rewrite lookup_delete_eq. rewrite decide_False by lia.
      rewrite decide_True by lia. reflexivity.
    + rewrite lookup_delete_ne by congruence.
      destruct (decide (Z.succ lo ≤ k < Z.succ lo + Z.of_nat len)).
      * rewrite decide_True by lia. reflexivity.
      * rewrite decide_False by lia. reflexivity.
Qed.

Lemma add_noise_sqrt (time : Z) (s : NoisePartialSumStore) :
  release_method s = "sqrt"%string →
  add_noise time s
  = consolidate_for_sqrt time
      (mkNoisePartialSumStore (noise_generator s) (release_method s) (is_theta_level s)
         (<[time := mkNoisePartialSum time 1 (laplacian (noise_generator s) R_eps None (draws s))]>
            (store s))
         (S (draws s))).
Proof.
  intros Hm. destruct s as [ng m th d k]. simpl in Hm. subst m. reflexivity.
Qed.

(** In the range of the model the block size is the integer square root. *)
Lemma int_sqrt_exact (v : Z) : 0 ≤ v < 2 ^ 52 → int_sqrt v = Ok (Z.sqrt v).
Proof.
  intros Hv. unfold int_sqrt.
  rewrite decide_False by lia. rewrite decide_True by lia. reflexivity.
Qed.

(** No entry at the start of the block: the store is left as it is. *)
Lemma consolidate_for_sqrt_incomplete (time : Z) (s : NoisePartialSumStore) :
  0 ≤ T (noise_generator s) < 2 ^ 52 →
  store s !! (time - Z.sqrt (T (noise_generator s)) + 1) = None →
  consolidate_for_sqrt time s = Ok s.
Proof.
  intros HT Hnone. unfold consolidate_for_sqrt. rewrite int_sqrt_exact by exact HT.
  cbn [mbind result_bind]. rewrite Hnone. reflexivity.
Qed.

(** A completed block: its entries are deleted, one sample at scale
    [2 * eps] is taken and folded into the entry at START_TIME. *)
Lemma consolidate_for_sqrt_complete (time : Z) (s : NoisePartialSumStore) :
  let b := Z.sqrt (T (noise_generator s)) in
  let block_start := time - b + 1 in
  let block_noise :=
    laplacian (noise_generator s) (R_mul (R_int 2) R_eps) None (draws s) in
  0 ≤ T (noise_generator s) < 2 ^ 52 →
  is_Some (store s !! block_start) →
  (∀ k, block_start ≤ k ≤ time → is_Some (store s !! k)) →
  (block_start = START_TIME ∧ START_TIME ≤ time)
  ∨ (block_start ≠ START_TIME
     ∧ ¬ (block_start ≤ START_TIME ≤ time)
     ∧ is_Some (store s !! START_TIME)) →
  ∃ s', consolidate_for_sqrt time s = Ok s'
        ∧ noise_generator s' = noise_generator s
        ∧ release_method s' = release_method s
        ∧ draws s' = S (draws s)
        ∧ (∀ k, k ≠ START_TIME →
             store s' !! k = if decide (block_start ≤ k ≤ time) then None else store s !! k)
        ∧ store s' !! START_TIME
          = Some match (if decide (block_start ≤ START_TIME ≤ time) then None
                        else store s !! START_TIME) with
                 | None => mkNoisePartialSum START_TIME b block_noise
                 | Some p0 =>
                     mkNoisePartialSum START_TIME (psum_size p0 + b)
                       (psum_noise p0 + block_noise)
                 end.
Proof.
  intros b block_start block_noise HT [p Hp] Hall Hstart.
  pose proof (Z.sqrt_nonneg (T (noise_generator s))) as Hb. fold b in Hb.
  unfold consolidate_for_sqrt. rewrite int_sqrt_exact by exact HT.
  cbn [mbind result_bind].
  fold b. fold block_start. rewrite Hp.
  replace (time + 1 - block_start) with (Z.of_nat (Z.to_nat b)) by (unfold block_start; lia).
  destruct (for_each_delitem_seqZ (Z.to_nat b) block_start (store s)) as (d & Hrun & Hd).
  { intros k Hk. apply Hall. unfold block_start in *. lia. }
  rewrite Hrun. cbn [mbind result_bind draw_laplacian set_store tick
    noise_generator release_method is_theta_level store draws].
  assert (Hd' : ∀ k, d !! k = if decide (block_start ≤ k ≤ time) then None else store s !! k).
  { intros k. rewrite Hd. unfold block_start.
    destruct (decide (time - b + 1 ≤ k ≤ time)).
    - rewrite decide_True by lia. reflexivity.
    - rewrite decide_False by lia. reflexivity. }
  destruct (decide (block_start = START_TIME)) as [Heq|Hne].
  - destruct Hstart as [[_ Hle]|[Hne _]]; [|contradiction].
    eexists. split; [reflexivity|].
    cbn [noise_generator release_method draws store set_store tick].
    split_and!; try reflexivity.
    + intros k Hk. rewrite lookup_insert_ne by congruence. apply Hd'.
    + rewrite lookup_insert_eq. rewrite decide_True by lia. reflexivity.
  - destruct Hstart as [[Heq _]|(_ & Hout & [p0 Hp0])]; [contradiction|].
    assert (Hget : getitem START_TIME d = Ok p0).
    { unfold getitem. rewrite (Hd' START_TIME).
      rewrite decide_False by exact Hout. rewrite Hp0. reflexivity. }
    rewrite Hget.
    cbn [mbind result_bind]. eexists. split; [reflexivity|].
    cbn [noise_generator release_method draws store set_store tick].
    split_and!; try reflexivity.
    + intros k Hk. rewrite lookup_insert_ne by congruence. apply Hd'.
    + rewrite lookup_insert_eq. rewrite decide_False by exact Hout. rewrite Hp0. reflexivity.
Qed.

Lemma shape_lookup (d : gmap Z NoisePartialSum) (k : Z) :
  shape d !! k = (λ p, (psum_start p, psum_size p)) <$> d !! k.
Proof. unfold shape. apply lookup_fmap. Qed.

Lemma shape_is_Some (d : gmap Z NoisePartialSum) (k : Z) :
  is_Some (shape d !! k) ↔ is_Some (d !! k).
Proof. rewrite shape_lookup. apply fmap_is_Some. Qed.

Lemma div_mod_zero (n : Z) : n `div` 0 = 0 ∧ n `mod` 0 = n.
Proof. split; [apply Z.div_0_r|apply Z.mod_0_r]. Qed.

Ltac solve_sqrt_shape :=
  unfold sqrt_shape, START_TIME in *;
  repeat case_decide;
  first [ reflexivity | exfalso; lia | repeat f_equal; lia | solve [eauto] ].

(** One add of a sequential run under the sqrt method. *)
Lemma sqrt_add_step (s : NoisePartialSumStore) (n : Z) :
  let ng := noise_generator s in
  let b := Z.sqrt (T ng) in
  let t := n + 1 in
  let d1 := <[t := mkNoisePartialSum t 1 (laplacian ng R_eps None (draws s))]> (store s) in
  let block_noise := laplacian ng (R_mul (R_int 2) R_eps) None (S (draws s)) in
  0 ≤ n → 0 ≤ T ng < 2 ^ 52 → release_method s = "sqrt"%string →
  (∀ k, shape (store s) !! k = sqrt_shape b n k) →
  ∃ s', add_noise t s = Ok s'
        ∧ noise_generator s' = ng
        ∧ release_method s' = "sqrt"%string
        ∧ (∀ k, shape (store s') !! k = sqrt_shape b (n + 1) k)
        ∧ sqrt_add_outcome b t block_noise (draws s) d1 s'.
Proof.
  intros ng b t d1 block_noise Hn HT Hm Hinv.
  rewrite add_noise_sqrt by exact Hm. fold ng t d1.
  set (s1 := mkNoisePartialSumStore ng (release_method s) (is_theta_level s) d1 (S (draws s))).
  pose proof (Z.sqrt_nonneg (T ng)) as Hb. fold b in Hb.
  assert (Hd1 : ∀ k, shape d1 !! k = if decide (k = t) then Some (t, 1) else sqrt_shape b n k).
  { intros k. unfold d1. rewrite shape_insert. cbn [psum_start psum_size].
    destruct (decide (k = t)) as [->|Hne]; [apply lookup_insert_eq|].
    rewrite lookup_insert_ne by congruence. apply Hinv. }
  assert (Hqn : n `div` b ≤ n).
  { destruct (decide (b = 0)) as [Hb0|Hb0].
    - rewrite Hb0. destruct (div_mod_zero n) as [-> _]. lia.
    - pose proof (Z.div_mod n b Hb0) as Hdm.
      pose proof (Z.mod_pos_bound n b ltac:(lia)) as Hr.
      pose proof (Z.div_pos n b Hn ltac:(lia)) as Hq. nia. }
  assert (Hcases :
    ((n + 1) `div` b = n `div` b ∧ n `div` b * b ≤ n ∧ b ≠ 1 ∧ 0 ≤ n `div` b
     ∧ (n + 1 - b + 1 ≤ n `div` b * b ∨ b = 0)
     ∧ (1 ≤ n `div` b → 2 ≤ n + 1 - b + 1))
    ∨ ((n + 1) `div` b = n `div` b + 1 ∧ n `div` b * b + b = n + 1 ∧ 0 ≤ n `div` b
       ∧ 1 ≤ b ∧ (1 ≤ n `div` b → b ≤ n `div` b * b)
       ∧ (n `div` b = 0 → n `div` b * b = 0))).
  { destruct (decide (b = 0)) as [Hb0|Hb0].
    - left. rewrite Hb0. destruct (div_mod_zero n) as [-> _].
      destruct (div_mod_zero (n + 1)) as [-> _]. lia.
    - pose proof (Z.div_mod n b Hb0) as Hdm.
      pose proof (Z.mod_pos_bound n b ltac:(lia)) as Hr.
      pose proof (Z.div_pos n b Hn ltac:(lia)) as Hq.
      destruct (div_mod_succ n b Hn ltac:(lia)) as [(Hlt & Hmod & Hdiv)|(Heq & Hmod & Hdiv)].
      + left. split_and!; [exact Hdiv|lia|lia|lia|left; lia|].
        intros H1. assert (b ≤ n `div` b * b) by nia. lia.
      + right. split_and!; [exact Hdiv|lia|lia|lia| |].
        * intros H1. nia.
        * intros ->. lia. }
  destruct Hcases as [(E1 & E2 & E3 & E4 & E5 & E6)|(G1 & G2 & G3 & G4 & G5 & G6)].
  - assert (Hnone : d1 !! (t - b + 1) = None).
    { apply shape_lookup_None. rewrite Hd1. unfold t. solve_sqrt_shape. }
    rewrite consolidate_for_sqrt_incomplete by (assumption || exact HT).
    exists s1. split_and!; try reflexivity; [exact Hm| |].
    + intros k. cbn [s1 store]. rewrite Hd1. unfold sqrt_shape, t. rewrite E1.
      unfold t. solve_sqrt_shape.
    + unfold sqrt_add_outcome. rewrite Hnone. split; reflexivity.
  - assert (Hsome : ∀ k, t - b + 1 ≤ k ≤ t → is_Some (d1 !! k)).
    { intros k Hk. apply shape_is_Some. rewrite Hd1. unfold t in *. solve_sqrt_shape. }
    destruct (consolidate_for_sqrt_complete t s1 HT) as
      (s' & Hrun & Hng & Hm' & Hdraws & Hother & Hst).
    { cbn [s1 store noise_generator]. fold b. apply Hsome. lia. }
    { cbn [s1 store noise_generator]. fold b. exact Hsome. }
    { cbn [s1 store noise_generator]. fold b.
      destruct (decide (n `div` b = 0)) as [Hq0|Hq0].
      - left. specialize (G6 Hq0). unfold START_TIME, t. lia.
      - right. specialize (G5 ltac:(lia)). unfold START_TIME, t.
        split_and!; [lia|lia|].
        apply shape_is_Some. rewrite Hd1. unfold t. solve_sqrt_shape. }
    cbn [s1 store noise_generator draws release_method] in Hng, Hm', Hdraws, Hother, Hst.
    fold b in Hother, Hst. fold block_noise in Hst.
    exists s'. split_and!; [exact Hrun|exact Hng|by rewrite Hm'| |].
    + intros k. rewrite shape_lookup.
      destruct (decide (k = START_TIME)) as [->|Hk].
      * rewrite Hst. unfold sqrt_shape, t. rewrite G1.
        destruct (decide (n `div` b = 0)) as [Hq0|Hq0].
        -- specialize (G6 Hq0).
           rewrite (decide_True (P := _ ≤ START_TIME ≤ _)) by (unfold START_TIME, t; lia).
           rewrite decide_True by (split; [reflexivity|lia]).
           cbn. repeat f_equal. lia.
        -- specialize (G5 ltac:(lia)).
           rewrite (decide_False (P := _ ≤ START_TIME ≤ _)) by (unfold START_TIME, t; lia).
           rewrite decide_True by (split; [reflexivity|lia]).
           assert (H1 : shape d1 !! START_TIME = Some (START_TIME, n `div` b * b)).
           { rewrite Hd1. unfold t. solve_sqrt_shape. }
           destruct (shape_lookup_Some _ _ _ _ H1) as (p0 & Hp0 & _ & Hsz).
           rewrite Hp0. cbn. repeat f_equal. lia.
      * rewrite Hother by exact Hk.
        destruct (decide (t - b + 1 ≤ k ≤ t)) as [Hin|Hout].
        -- cbn. unfold sqrt_shape, t. rewrite G1. unfold t in *. solve_sqrt_shape.
        -- rewrite <- shape_lookup, Hd1. unfold sqrt_shape, t. rewrite G1.
           unfold t in *. solve_sqrt_shape.
    + unfold sqrt_add_outcome.
      destruct (Hsome (t - b + 1) ltac:(lia)) as [p Hp]. rewrite Hp.
      split_and!; [exact Hdraws|exact Hother|exact Hst].
Qed.

Lemma sqrt_run_shape ng (n : nat) :
  noise_type ng = "laplacian"%string →
  0 ≤ T ng < 2 ^ 52 →
  ∃ s, fresh_run ng "sqrt" n = Ok s
       ∧ noise_generator s = ng
       ∧ release_method s = "sqrt"%string
       ∧ ∀ k, shape (store s) !! k = sqrt_shape (Z.sqrt (T ng)) (Z.of_nat n) k.
Proof.
  intros Hty. unfold fresh_run.
  rewrite init_accepts; [|unfold recognized_methods; set_solver|by right].
  intros HT. cbn [mbind result_bind].
  induction n as [|n (s & Hrun & Hng & Hm & Hinv)].
  - eexists. split_and!; try reflexivity. intros k. cbn [store].
    unfold shape. rewrite fmap_empty, lookup_empty. unfold sqrt_shape.
    change (Z.of_nat 0) with 0.
    assert (H0 : 0 `div` Z.sqrt (T ng) = 0) by reflexivity.
    rewrite H0. rewrite decide_False by lia. rewrite decide_False by lia. reflexivity.
  - subst ng.
    destruct (sqrt_add_step s (Z.of_nat n) ltac:(lia) HT Hm Hinv)
      as (s' & Hadd & Hng' & Hm' & Hinv' & _).
    exists s'. cbn [add_noise_upto]. rewrite Hrun. cbn [mbind result_bind].
    replace (Z.of_nat (S n)) with (Z.of_nat n + 1) by lia.
    split_and!; assumption.
Qed.

(** C8, as the code has it.  Under the sqrt strategy with a horizon
    [0 ≤ T < 2^52] and block size [b = ⌊√T⌋], consider the
    add at time [t] after the adds at times [1..t-1], let [d1] be the
    store with the new unit entry and [block_start = t - b + 1].  If
    [d1] has an entry at [block_start], then after the add every key of
    [block_start..t] other than START_TIME has no entry, the other keys
    are as in [d1], two samples have been taken (the unit one at scale
    [eps], the block one at scale [2 * eps]), and the entry at START_TIME
    is the block noise with size [b] when no entry is left at START_TIME
    once the block is deleted, and otherwise the entry that was there with
    the block noise added to its noise and [b] added to its size.  If
    [d1] has no entry at [block_start], the add leaves [d1]: the unit
    entries of the incomplete block stay as they are. *)
Theorem sqrt_consolidates_completed_blocks ng (n : nat) :
  noise_type ng = "laplacian"%string →
  0 ≤ T ng < 2 ^ 52 →
  let b := Z.sqrt (T ng) in
  let t := Z.of_nat n + 1 in
  let block_start := t - b + 1 in
  ∃ s s',
    fresh_run ng "sqrt" n = Ok s
    ∧ add_noise t s = Ok s'
    ∧ let d1 := <[t := mkNoisePartialSum t 1 (laplacian ng R_eps None (draws s))]> (store s) in
      let block_noise := laplacian ng (R_mul (R_int 2) R_eps) None (S (draws s)) in
      match d1 !! block_start with
      | None => store s' = d1 ∧ draws s' = S (draws s)
      | Some _ =>
          draws s' = S (S (draws s))
          ∧ (∀ k, k ≠ START_TIME →
               store s' !! k = if decide (block_start ≤ k ≤ t) then None else d1 !! k)
          ∧ store s' !! START_TIME
            = Some match (if decide (block_start ≤ START_TIME ≤ t) then None
                          else d1 !! START_TIME) with
                   | None => mkNoisePartialSum START_TIME b block_noise
                   | Some p0 =>
                       mkNoisePartialSum START_TIME (psum_size p0 + b)
                         (psum_noise p0 + block_noise)
                   end
      end.
Proof.
  intros Hty HT b t block_start.
  destruct (sqrt_run_shape ng n Hty HT) as (s & Hrun & Hng & Hm & Hinv).
  subst ng.
  destruct (sqrt_add_step s (Z.of_nat n) ltac:(lia) HT Hm Hinv)
    as (s' & Hadd & _ & _ & _ & Hout).
  exists s, s'. split; [exact Hrun|]. split; [exact Hadd|]. exact Hout.
Qed.

Lemma sqrt_consolidates_completed_blocks_witness :
  ∃ s s',
    fresh_run (counting_generator "laplacian" 9) "sqrt" 5 = Ok s
    ∧ add_noise 6 s = Ok s'
    ∧ store s' !! 4 = None ∧ store s' !! 5 = None ∧ store s' !! 6 = None
    ∧ psum_size <$> store s' !! START_TIME = Some 6.
Proof.
  destruct (sqrt_consolidates_completed_blocks (counting_generator "laplacian" 9) 5
              eq_refl ltac:(simpl; lia)) as (s & s' & Hrun & Hadd & Hout).
  exists s, s'. split; [exact Hrun|]. split; [exact Hadd|].
  assert (Hs : fresh_run (counting_generator "laplacian" 9) "sqrt" 5
               = Ok (mkNoisePartialSumStore (counting_generator "laplacian" 9) "sqrt" false
                       {[1 := mkNoisePartialSum 1 3 4;
                         4 := mkNoisePartialSum 4 1 5;
                         5 := mkNoisePartialSum 5 1 6]} 6))
    by (vm_compute; reflexivity).
  rewrite Hs in Hrun. injection Hrun as <-.
  cbn in Hout. destruct Hout as (_ & Hother & Hst).
  split_and!.
  - rewrite (Hother 4) by (unfold START_TIME; lia). reflexivity.
  - rewrite (Hother 5) by (unfold START_TIME; lia). reflexivity.
  - rewrite (Hother 6) by (unfold START_TIME; lia). reflexivity.
  - rewrite Hst. reflexivity.
Defined.

(** C8 as stated fails: an entry at [block_start] does not make the block
    complete.  With horizon 9 (block size 3) and adds at the times 1 and
    3, the add at time 3 finds the entry at [block_start = 1], deletes it
    and raises KeyError at the missing key 2; nothing is stored at
    START_TIME. *)
Lemma sqrt_block_with_a_gap_raises :
  let ng := counting_generator "laplacian" 9 in
  let s1 := mkNoisePartialSumStore ng "sqrt" false {[1 := mkNoisePartialSum 1 1 1]} 1 in
  int_sqrt (T ng) = Ok 3
  ∧ fresh_run ng "sqrt" 1 = Ok s1
  ∧ store s1 !! (3 - 3 + 1) = Some (mkNoisePartialSum 1 1 1)
  ∧ store s1 !! 2 = None
  ∧ add_noise 3 s1 = Raise KeyError.
Proof. vm_compute. repeat split. Qed.

(** ** The fuel of the recursive methods is enough *)

(** A merge rewrites the entry at the earlier key and deletes the one at
    [time]: the dictionary loses an entry at every recursive call. *)
Lemma size_after_merge (d : gmap Z NoisePartialSum) (time prev : Z) (p : NoisePartialSum) :
  is_Some (d !! prev) → is_Some (d !! time) →
  S (size (delete time (<[prev := p]> d))) = size d.
Proof.
  intros [pp Hpp] [pt Hpt].
  assert (Hsz : size (<[prev := p]> d) = size d) by (eapply map_size_insert_Some; eauto).
  destruct (decide (time = prev)) as [->|Hne].
  - rewrite delete_insert_eq. rewrite map_size_delete_Some by eauto.
    assert (size d ≠ 0)%nat by (eapply map_size_ne_0_lookup_2; eauto). lia.
  - rewrite map_size_delete_Some by (rewrite lookup_insert_ne by congruence; eauto).
    rewrite Hsz. assert (size d ≠ 0)%nat by (eapply map_size_ne_0_lookup_2; eauto). lia.
Qed.

Lemma delitem_Ok (k : Z) (d d' : gmap Z NoisePartialSum) :
  delitem k d = Ok d' → d' = delete k d ∧ is_Some (d !! k).
Proof.
  unfold delitem. destruct (d !! k) as [p|] eqn:Hk; [|discriminate].
  intros [= <-]. eauto.
Qed.

Lemma delitem_Raise (k : Z) (d : gmap Z NoisePartialSum) (e : exn) :
  delitem k d = Raise e → e = KeyError.
Proof. unfold delitem. destruct (d !! k); [discriminate|]. congruence. Qed.

Lemma merge_equal_sized_fuel fresh (fuel : nat) :
  ∀ time d k, (size d < fuel)%nat →
              merge_equal_sized fresh fuel time d k ≠ Raise OutOfFuel.
Proof.
  induction fuel as [|fuel IH]; intros time d k Hsz; [lia|].
  cbn [merge_equal_sized]. unfold getitem.
  destruct (d !! time) as [pt|] eqn:Hpt; cbn [mbind result_bind]; [|discriminate].
  destruct (d !! (psum_start pt - psum_size pt)) as [pp|] eqn:Hpp; [|discriminate].
  destruct (decide (psum_size pt = psum_size pp)); [|discriminate].
  destruct (delitem time _) as [d'|err] eqn:Hdel; cbn [mbind result_bind].
  - apply IH. apply delitem_Ok in Hdel as [-> _].
    pose proof (size_after_merge d time (psum_start pt - psum_size pt)
                  (mkNoisePartialSum (psum_start pt - psum_size pt) (psum_size pt * 2)
                     (fresh pp (psum_size pt * 2) k)) ltac:(eauto) ltac:(eauto)).
    lia.
  - apply delitem_Raise in Hdel as ->. discriminate.
Qed.

Lemma consolidate_for_tree_fuel_enough (time : Z) (s : NoisePartialSumStore) :
  consolidate_for_tree time s ≠ Raise OutOfFuel.
Proof.
  unfold consolidate_for_tree. rewrite consolidate_for_tree_fuel_merge.
  match goal with
  | |- context [merge_equal_sized ?f ?fuel ?t ?d ?k] =>
      pose proof (merge_equal_sized_fuel f fuel t d k ltac:(lia)) as Hne;
      destruct (merge_equal_sized f fuel t d k) as [[d' k']|err]
  end; cbn [mbind result_bind]; [discriminate|congruence].
Qed.

Lemma tree_helper_fuel_enough (time : Z) (s : BaseStore) :
  TreePartialSumStore._consolidate_helper time s ≠ Raise OutOfFuel.
Proof.
  unfold TreePartialSumStore._consolidate_helper.
  destruct s as [d [ng|] k]; cbn [base_store].
  - rewrite tree_helper_fuel_merge.
    match goal with
    | |- context [merge_equal_sized ?f ?fuel ?t ?d ?k] =>
        pose proof (merge_equal_sized_fuel f fuel t d k ltac:(lia)) as Hne;
        destruct (merge_equal_sized f fuel t d k) as [[d' k']|err]
    end; cbn [mbind result_bind]; [discriminate|congruence].
  - cbn [TreePartialSumStore._consolidate_helper_fuel base_store base_noise_generator].
    unfold getitem.
    destruct (d !! time) as [pt|]; cbn [mbind result_bind]; [|discriminate].
    destruct (d !! (psum_start pt - psum_size pt)) as [pp|]; [|discriminate].
    destruct (decide (psum_size pt = psum_size pp));
      cbn [the_generator mbind result_bind]; discriminate.
Qed.

Lemma consolidate_for_hybrid_fuel_enough (fuel : nat) :
  ∀ time s, (size (store s) < fuel)%nat →
            consolidate_for_hybrid_fuel fuel time s ≠ Raise OutOfFuel.
Proof.
  induction fuel as [|fuel IH]; intros time s Hsz; [lia|].
  cbn [consolidate_for_hybrid_fuel]. unfold getitem.
  destruct (is_power_of_two time && bool_decide (time > START_TIME)).
  - destruct (store s !! START_TIME); cbn [mbind result_bind]; [|discriminate].
    destruct (store s !! time); cbn [mbind result_bind]; discriminate.
  - destruct (store s !! time) as [pt|] eqn:Hpt; cbn [mbind result_bind]; [|discriminate].
    destruct (store s !! (psum_start pt - psum_size pt)) as [pp|] eqn:Hpp; [|discriminate].
    destruct (decide (psum_size pt = psum_size pp)); [|discriminate].
    unfold int_log2. repeat case_decide; cbn [mbind result_bind]; try discriminate.
    cbn [draw_tree tick store].
    destruct (delitem time _) as [d'|err] eqn:Hdel; cbn [mbind result_bind].
    + apply IH. cbn [set_store store]. apply delitem_Ok in Hdel as [-> _].
      match goal with
      | |- context [delete time (<[?prev := ?p]> (store s))] =>
          pose proof (size_after_merge (store s) time prev p ltac:(eauto) ltac:(eauto))
      end. lia.
    + apply delitem_Raise in Hdel as ->. discriminate.
Qed.

Lemma hybrid_helper_fuel_enough (fuel : nat) :
  ∀ time s, (size (tree_store s) < fuel)%nat →
            HybridPartialSumStore._consolidate_helper_fuel fuel time s ≠ Raise OutOfFuel.
Proof.
  induction fuel as [|fuel IH]; intros time s Hsz; [lia|].
  cbn [HybridPartialSumStore._consolidate_helper_fuel]. unfold getitem.
  destruct (tree_store s !! time) as [pt|] eqn:Hpt; cbn [mbind result_bind]; [|discriminate].
  destruct (tree_store s !! (psum_start pt - psum_size pt)) as [pp|] eqn:Hpp; [|discriminate].
  destruct (decide (psum_size pt = psum_size pp)); [|discriminate].
  destruct (hy_noise_generator s) as [ng|]; cbn [the_generator mbind result_bind];
    [|discriminate].
  unfold int_log2. repeat case_decide; cbn [mbind result_bind]; try discriminate.
  destruct (delitem time _) as [d'|err] eqn:Hdel; cbn [mbind result_bind].
  - apply IH. cbn [tree_store]. apply delitem_Ok in Hdel as [-> _].
    match goal with
    | |- context [delete time (<[?prev := ?p]> (tree_store s))] =>
        pose proof (size_after_merge (tree_store s) time prev p ltac:(eauto) ltac:(eauto))
    end. lia.
  - apply delitem_Raise in Hdel as ->. discriminate.
Qed.

(** * Further properties of the stores *)

(** ** Powers of two *)

(** X1.  [is_power_of_two], in [NoisePartialSumStore] and in
    [HybridPartialSumStore], answers True exactly on the powers of two
    [2^k] with [k ≥ 0]; so it is False on zero and on negative numbers. *)
Theorem is_power_of_two_exactly_on_powers (val : Z) :
  (is_power_of_two val = true ↔ ∃ k, 0 ≤ k ∧ val = 2 ^ k)
  ∧ (HybridPartialSumStore.is_power_of_two val = true ↔ ∃ k, 0 ≤ k ∧ val = 2 ^ k)
  ∧ (val ≤ 0 → is_power_of_two val = false).
Proof.
  split_and!.
  - apply is_power_of_two_spec.
  - change (HybridPartialSumStore.is_power_of_two val) with (is_power_of_two val).
    apply is_power_of_two_spec.
  - intros Hle. destruct (is_power_of_two val) eqn:Hp; [|reflexivity].
    apply is_power_of_two_spec in Hp as (k & Hk & ->).
    pose proof (Z.pow_pos_nonneg 2 k ltac:(lia) Hk). lia.
Qed.

Lemma is_power_of_two_exactly_on_powers_witness :
  is_power_of_two (-4) = false.
Proof.
  apply (proj2 (proj2 (is_power_of_two_exactly_on_powers (-4)))). lia.
Defined.

(** ** Adds that do not start at START_TIME *)

(** X2.  [NoisePartialSumStore] reads the entry at START_TIME when it
    consolidates under the every method, and under the hybrid method at a
    power of two above START_TIME: with no entry there, [add_noise] at a
    time other than START_TIME raises KeyError.  So the first add of such a
    store has to be the one at START_TIME. *)
Theorem add_noise_without_start_entry (s : NoisePartialSumStore) (t : Z) :
  store s !! START_TIME = None →
  t ≠ START_TIME →
  (release_method s = "every"%string → add_noise t s = Raise KeyError)
  ∧ (release_method s = "hybrid"%string →
     (∃ k, 0 ≤ k ∧ t = 2 ^ k) →
     add_noise t s = Raise KeyError).
Proof.
  intros Hnone Hne. split.
  - intros Hm. unfold add_noise. rewrite Hm.
    rewrite decide_False by discriminate. rewrite decide_True by reflexivity.
    cbn [mbind result_bind draw_laplacian].
    rewrite consolidate_store_every by exact Hm.
    unfold consolidate_for_every, getitem. cbn [store set_store tick].
    rewrite (lookup_insert_ne _ t START_TIME) by exact Hne.
    rewrite Hnone. reflexivity.
  - intros Hm Hpow. assert (Hgt : t > START_TIME).
    { destruct Hpow as (k & Hk & ->).
      pose proof (Z.pow_pos_nonneg 2 k ltac:(lia) Hk). unfold START_TIME in *. lia. }
    apply is_power_of_two_spec in Hpow.
    unfold add_noise. rewrite Hm.
    rewrite !decide_False by discriminate. rewrite decide_True by reflexivity.
    rewrite Hpow. cbn [mbind result_bind draw_laplacian].
    rewrite consolidate_store_hybrid by exact Hm.
    unfold consolidate_for_hybrid. cbn [consolidate_for_hybrid_fuel].
    rewrite Hpow, bool_decide_eq_true_2 by exact Hgt.
    cbn [andb]. unfold getitem. cbn [store set_store tick].
    rewrite (lookup_insert_ne _ t START_TIME) by exact Hne.
    rewrite Hnone. reflexivity.
Qed.

Lemma add_noise_without_start_entry_witness :
  (s ← NoisePartialSumStore_init (counting_generator "laplacian" 8) "every" false;
   add_noise 2 s) = Raise KeyError
  ∧ (s ← NoisePartialSumStore_init (counting_generator "laplacian" 8) "hybrid" false;
     add_noise 2 s) = Raise KeyError.
Proof.
  split.
  - apply (proj1 (add_noise_without_start_entry
                    (mkNoisePartialSumStore (counting_generator "laplacian" 8)
                       "every" false ∅ 0) 2 (lookup_empty START_TIME)
                    ltac:(discriminate))).
    reflexivity.
  - apply (proj2 (add_noise_without_start_entry
                    (mkNoisePartialSumStore (counting_generator "laplacian" 8)
                       "hybrid" false ∅ 0) 2 (lookup_empty START_TIME)
                    ltac:(discriminate))).
    + reflexivity.
    + exists 1. split; [lia|reflexivity].
Defined.

(** X3.  A once store that has no entry at START keeps nothing of an add at
    another time.  [OncePartialSumStore.add] then empties the dictionary,
    whatever it held; [NoisePartialSumStore] with the once method, empty,
    takes a sample (for a horizon other than 0) and deletes the entry it
    has just stored.  In both cases the release stays zero. *)
Theorem once_add_off_start_stores_nothing (t : Z) :
  t ≠ START →
  (∀ s noise,
     base_store s !! START = None →
     ∃ s', OncePartialSumStore.add t noise s = Ok s'
           ∧ base_store s' = ∅
           ∧ (OncePartialSumStore.release s').1 = 0)
  ∧ (∀ ng theta k,
       T ng ≠ 0 →
       ∃ s', add_noise t (mkNoisePartialSumStore ng "once" theta ∅ k) = Ok s'
             ∧ store s' = ∅
             ∧ draws s' = S k
             ∧ (release_noise s').1 = 0).
Proof.
  intros Hne. split.
  - intros s noise Hnone.
    unfold OncePartialSumStore.add, _NoisePartialSumStore.add_with,
      OncePartialSumStore.consolidate.
    cbn [base_store _NoisePartialSumStore.set_store].
    rewrite (lookup_insert_ne _ t START) by exact Hne. rewrite Hnone.
    eexists. split; [reflexivity|]. split; reflexivity.
  - intros ng theta k HT. unfold add_noise, div_by_int. cbn [release_method store].
    rewrite decide_True by reflexivity. rewrite decide_True by reflexivity.
    cbn [noise_generator]. rewrite decide_False by exact HT.
    cbn [mbind result_bind draw_laplacian].
    rewrite consolidate_store_once by reflexivity.
    unfold consolidate_for_once, delitem. rewrite decide_True by exact Hne.
    cbn [store set_store tick]. rewrite lookup_insert_eq. cbn [mbind result_bind].
    eexists. split; [reflexivity|]. cbn [store set_store draws].
    rewrite delete_insert_eq, delete_empty. split_and!; reflexivity.
Qed.

Lemma once_add_off_start_stores_nothing_witness :
  ∃ s', OncePartialSumStore.add 2 7 (OncePartialSumStore.init None) = Ok s'
        ∧ base_store s' = ∅
        ∧ (OncePartialSumStore.release s').1 = 0.
Proof.
  apply (proj1 (once_add_off_start_stores_nothing 2 ltac:(discriminate))).
  reflexivity.
Defined.

(** X4.  [HybridPartialSumStore] sets its log-level entry only at the add
    at START.  Before that, an add at a power of two raises AttributeError
    (it reads the noise of the missing entry); an add at any other time
    stores its unit entry in [tree_store], and [release] still returns
    zero, the tree-level noise left out. *)
Theorem hybrid_add_before_start (g : option NoiseGenerator) (t noise : Z) :
  t ≠ START →
  (HybridPartialSumStore.is_power_of_two t = true →
   HybridPartialSumStore.add t noise (HybridPartialSumStore.init g) = Raise AttributeError)
  ∧ (HybridPartialSumStore.is_power_of_two t = false →
     ∃ s', HybridPartialSumStore.add t noise (HybridPartialSumStore.init g) = Ok s'
           ∧ tree_store s' = {[t := mkNoisePartialSum t 1 noise]}
           ∧ log_store s' = None
           ∧ (HybridPartialSumStore.release s').1 = 0).
Proof.
  intros Hne. split.
  - intros Hpow. unfold HybridPartialSumStore.add, HybridPartialSumStore.consolidate.
    cbn [new_noise the_psum mbind result_bind psum_start psum_noise
         HybridPartialSumStore.init].
    rewrite decide_False by exact Hne. rewrite Hpow. reflexivity.
  - intros Hpow. unfold HybridPartialSumStore.add, HybridPartialSumStore.consolidate.
    cbn [new_noise the_psum mbind result_bind psum_start psum_noise
         HybridPartialSumStore.init tree_store log_store hy_noise_generator hy_draws].
    rewrite decide_False by exact Hne. rewrite Hpow.
    unfold HybridPartialSumStore._consolidate_helper.
    cbn [HybridPartialSumStore._consolidate_helper_fuel tree_store].
    unfold getitem. rewrite lookup_insert_eq. cbn [mbind result_bind psum_start psum_size].
    rewrite lookup_insert_ne by lia. rewrite lookup_empty. cbn [mbind result_bind].
    eexists. split; [reflexivity|]. split_and!; reflexivity.
Qed.

Lemma hybrid_add_before_start_witness :
  HybridPartialSumStore.add 2 7 (HybridPartialSumStore.init None) = Raise AttributeError.
Proof.
  apply (proj1 (hybrid_add_before_start None 2 7 ltac:(discriminate))). reflexivity.
Defined.



(** ** What the every stores hold after a run *)

(** X6.  [EveryPartialSumStore] after [n ≥ 1] sequential adds holds one
    entry, at START, whose noise is the sum of the noise handed to the
    adds; [release] returns that sum.  The size of the entry stays 1. *)
Theorem every_store_releases_sum_of_adds g noise_at (n : nat) :
  (1 ≤ n)%nat →
  ∃ s, add_upto EveryPartialSumStore.add noise_at n (EveryPartialSumStore.init g) = Ok s
       ∧ base_store s = {[START := mkNoisePartialSum START 1 (sum_upto noise_at n)]}
       ∧ (EveryPartialSumStore.release s).1 = sum_upto noise_at n.
Proof.
  intros Hn. destruct n as [|n]; [lia|].
  eexists. split; [apply every_new_run|]. split; [reflexivity|].
  unfold EveryPartialSumStore.release, _NoisePartialSumStore.release.
  cbn [base_store]. rewrite map_size_singleton.
  rewrite decide_False by lia. cbn [fst].
  rewrite foldl_add_noise, sum_noise_singleton.
  cbn [psum_noise]. unfold np_zeros. lia.
Qed.

Lemma every_store_releases_sum_of_adds_witness :
  ∃ s, add_upto EveryPartialSumStore.add (λ t, t) 4 (EveryPartialSumStore.init None) = Ok s
       ∧ base_store s = {[START := mkNoisePartialSum START 1 (sum_upto (λ t, t) 4)]}
       ∧ (EveryPartialSumStore.release s).1 = sum_upto (λ t, t) 4.
Proof. apply (every_store_releases_sum_of_adds None (λ t, t) 4). lia. Defined.

(** X7.  [NoisePartialSumStore] with the every method after [n ≥ 1]
    sequential adds holds one entry, at START_TIME, of size [n]; it has
    taken [n] samples at scale [eps], and the noise of the entry, which
    [release_noise] returns, is their sum with the first sample added once
    more. *)
Theorem every_method_after_adds ng (n : nat) :
  (1 ≤ n)%nat →
  noise_type ng = "laplacian"%string →
  let sample := λ t, laplacian ng R_eps None (Z.to_nat (t - 1)) in
  ∃ s, fresh_run ng "every" n = Ok s
       ∧ store s = {[START_TIME :=
                       mkNoisePartialSum START_TIME (Z.of_nat n)
                         (sample 1 + sum_upto sample n)]}
       ∧ draws s = n
       ∧ (release_noise s).1 = sample 1 + sum_upto sample n.
Proof.
  intros Hn Hty sample. destruct n as [|n]; [lia|].
  eexists. split; [apply every_run, Hty|]. split; [reflexivity|]. split; [reflexivity|].
  unfold release_noise. cbn [fst store].
  rewrite foldl_add_noise, sum_noise_singleton. cbn [psum_noise].
  subst sample. cbn beta. change (Z.to_nat (1 - 1)) with 0%nat. unfold zeros. lia.
Qed.

Lemma every_method_after_adds_witness :
  ∃ s, fresh_run (counting_generator "laplacian" 8) "every" 3 = Ok s
       ∧ store s = {[START_TIME := mkNoisePartialSum START_TIME 3 7]}
       ∧ draws s = 3%nat
       ∧ (release_noise s).1 = 7.
Proof.
  exact (every_method_after_adds (counting_generator "laplacian" 8) 3 ltac:(lia) eq_refl).
Defined.

(** ** The base store *)

Lemma sum_Z_perm (l1 l2 : list Z) : l1 ≡ₚ l2 → sum_Z l1 = sum_Z l2.
Proof. unfold sum_Z. induction 1; simpl; lia. Qed.

(** Adds at distinct free times: every new entry is there, the others
    are as before. *)
Lemma base_add_all (l : list (Z * Z)) :
  ∀ s, NoDup l.*1 →
       (∀ t, t ∈ l.*1 → base_store s !! t = None) →
       ∃ s', add_all _NoisePartialSumStore.add l s = Ok s'
             ∧ sum_noise (map_to_list (base_store s')).*2
               = sum_noise (map_to_list (base_store s)).*2 + sum_Z l.*2
             ∧ size (base_store s') = (size (base_store s) + length l)%nat
             ∧ (∀ t, t ∉ l.*1 → base_store s' !! t = base_store s !! t)
             ∧ ∀ t x, (t, x) ∈ l → base_store s' !! t = Some (mkNoisePartialSum t 1 x).
Proof.
  induction l as [|[t x] l IH]; intros s Hnd Hfresh.
  - exists s. split; [reflexivity|]. unfold sum_Z. simpl.
    split_and!; [lia|lia|reflexivity|]. intros t x Hin. by apply elem_of_nil in Hin.
  - simpl in Hnd. apply NoDup_cons in Hnd as [Hnotin Hnd].
    assert (Hnone : base_store s !! t = None) by (apply Hfresh; simpl; left).
    cbn [add_all].
    change (_NoisePartialSumStore.add t x s)
      with (Ok (_NoisePartialSumStore.set_store
                  (<[t := mkNoisePartialSum t 1 x]> (base_store s)) s)).
    cbn [mbind result_bind].
    destruct (IH (_NoisePartialSumStore.set_store
                    (<[t := mkNoisePartialSum t 1 x]> (base_store s)) s) Hnd)
      as (s' & Hrun & Hsum & Hsize & Hout & Hlook).
    { intros t' Hin. cbn [base_store _NoisePartialSumStore.set_store].
      rewrite lookup_insert_ne by (intros ->; contradiction).
      apply Hfresh. simpl. right. exact Hin. }
    exists s'. split; [exact Hrun|].
    cbn [base_store _NoisePartialSumStore.set_store] in Hsum, Hsize, Hout.
    rewrite sum_noise_insert, delete_id in Hsum by exact Hnone.
    rewrite map_size_insert_None in Hsize by exact Hnone.
    split_and!.
    + rewrite Hsum, fmap_cons. cbn [snd psum_noise]. change (sum_Z (x :: l.*2)) with (x + sum_Z l.*2). lia.
    + rewrite Hsize. simpl. lia.
    + intros t' Hnot. simpl in Hnot. apply not_elem_of_cons in Hnot as [Hne Hnot].
      rewrite Hout by exact Hnot. apply lookup_insert_ne. congruence.
    + intros t' x' Hin. apply elem_of_cons in Hin as [[= -> ->]|Hin].
      * rewrite Hout by exact Hnotin. apply lookup_insert_eq.
      * apply Hlook, Hin.
Qed.

(** X8.  On the base store, whose [consolidate] does nothing, adds at
    pairwise distinct times all stay: after them the store has one unit
    entry per add, and [release] returns the sum of the noise handed to
    the adds. *)
Theorem base_store_release_after_adds g (l : list (Z * Z)) :
  NoDup l.*1 →
  ∃ s, add_all _NoisePartialSumStore.add l (_NoisePartialSumStore.init g) = Ok s
       ∧ size (base_store s) = length l
       ∧ (∀ t x, (t, x) ∈ l → base_store s !! t = Some (mkNoisePartialSum t 1 x))
       ∧ (_NoisePartialSumStore.release s).1 = sum_Z l.*2.
Proof.
  intros Hnd.
  destruct (base_add_all l (_NoisePartialSumStore.init g) Hnd)
    as (s & Hrun & Hsum & Hsize & _ & Hlook).
  { intros t _. apply lookup_empty. }
  exists s. split; [exact Hrun|]. split; [exact Hsize|]. split; [exact Hlook|].
  cbn [base_store _NoisePartialSumStore.init] in Hsum. rewrite sum_noise_empty in Hsum.
  unfold _NoisePartialSumStore.release.
  destruct (decide (size (base_store s) = 0%nat)) as [Hz|Hz]; cbn [fst].
  - rewrite (size_zero_empty _ Hz), sum_noise_empty in Hsum. unfold np_zeros. lia.
  - rewrite foldl_add_noise, Hsum. unfold np_zeros. lia.
Qed.

Lemma base_store_release_after_adds_witness :
  ∃ s, add_all _NoisePartialSumStore.add [(3, 10); (1, 20); (7, 30)]
         (_NoisePartialSumStore.init None) = Ok s
       ∧ size (base_store s) = 3%nat
       ∧ (∀ t x, (t, x) ∈ [(3, 10); (1, 20); (7, 30)] →
                 base_store s !! t = Some (mkNoisePartialSum t 1 x))
       ∧ (_NoisePartialSumStore.release s).1 = 60.
Proof.
  apply (base_store_release_after_adds None [(3, 10); (1, 20); (7, 30)]).
  apply (bool_decide_unpack _). vm_compute. exact I.
Defined.

(** ** What a two-level store holds after a run *)

Lemma sum_range_S (f : Z → Z) (lo : Z) (len : nat) :
  sum_range f lo (S len) = sum_range f lo len + f (lo + Z.of_nat len).
Proof. reflexivity. Qed.

Lemma two_level_add_state ng (b : Z) noise_at (n : Z) :
  0 ≤ n → 1 ≤ b →
  TwoLevelPartialSumStore.add (n + 1) (noise_at (n + 1)) (two_level_state ng b noise_at n)
  = Ok (two_level_state ng b noise_at (n + 1)).
Proof.
  intros Hn Hb.
  pose proof (Z.div_mod n b ltac:(lia)) as Hdm.
  pose proof (Z.mod_pos_bound n b ltac:(lia)) as Hr.
  pose proof (Z.div_pos n b Hn ltac:(lia)) as Hq.
  unfold two_level_state at 2. cbn zeta.
  unfold TwoLevelPartialSumStore.add, TwoLevelPartialSumStore.consolidate.
  unfold two_level_state. cbn zeta.
  cbn [new_psum the_psum mbind result_bind single_level_store block_size
       block_level_store tl_noise_generator tl_draws].
  set (q := n `div` b) in *. set (r := n `mod` b) in *.
  assert (Hsingle :
    match (if decide (r = 0) then None
           else Some (mkNoisePartialSum (q * b + 1) r
                        (sum_range noise_at (q * b + 1) (Z.to_nat r)))) with
    | Some sl0 => mkNoisePartialSum (psum_start sl0) (psum_size sl0 + 1)
                    (psum_noise sl0 + psum_noise (mkNoisePartialSum (n + 1) 1 (noise_at (n + 1))))
    | None => mkNoisePartialSum
                (psum_start (mkNoisePartialSum (n + 1) 1 (noise_at (n + 1))))
                (psum_size (mkNoisePartialSum (n + 1) 1 (noise_at (n + 1))))
                (psum_noise (mkNoisePartialSum (n + 1) 1 (noise_at (n + 1))))
    end
    = mkNoisePartialSum (q * b + 1) (r + 1)
        (sum_range noise_at (q * b + 1) (Z.to_nat (r + 1)))).
  { replace (Z.to_nat (r + 1)) with (S (Z.to_nat r)) by lia.
    rewrite sum_range_S. replace (q * b + 1 + Z.of_nat (Z.to_nat r)) with (n + 1) by lia.
    destruct (decide (r = 0)) as [Hr0|Hr0]; cbn [psum_start psum_size psum_noise].
    - rewrite Hr0. change (Z.to_nat 0) with 0%nat. cbn [sum_range]. f_equal; lia.
    - reflexivity. }
  rewrite Hsingle. cbn [psum_start psum_size psum_noise].
  destruct (div_mod_succ n b Hn Hb) as [(Hlt & Hmod & Hdiv)|(Heq & Hmod & Hdiv)];
    fold q r in Hlt || fold q r in Heq; fold q r in Hmod, Hdiv; rewrite Hmod, Hdiv.
  - rewrite decide_False by lia. rewrite (decide_False (P := r + 1 = 0)) by lia.
    reflexivity.
  - rewrite decide_True by lia. rewrite (decide_True (P := 0 = 0)) by reflexivity.
    rewrite (decide_False (P := q + 1 = 0)) by lia.
    replace (Z.to_nat (q + 1)) with (S (Z.to_nat q)) by lia.
    f_equal. f_equal. rewrite sum_range_S.
    assert (Hdraw : laplacian ng (R_mul (R_int 2) R_eps) (Some (q * b + 1 + (r + 1) - 1))
                      (Z.to_nat q)
                    = two_level_block_draw ng b (1 + Z.of_nat (Z.to_nat q))).
    { unfold two_level_block_draw. f_equal; [f_equal; lia|lia]. }
    rewrite Hdraw.
    destruct (decide (q = 0)) as [Hq0|Hq0]; cbn [psum_start psum_size psum_noise].
    + rewrite Hq0. change (Z.to_nat 0) with 0%nat. cbn [sum_range]. f_equal. f_equal; lia.
    + f_equal. f_equal; lia.
Qed.

Lemma two_level_run_state ng (b : Z) noise_at (n : nat) :
  1 ≤ b →
  add_upto TwoLevelPartialSumStore.add noise_at n (TwoLevelPartialSumStore.init ng b)
  = Ok (two_level_state ng b noise_at (Z.of_nat n)).
Proof.
  intros Hb. induction n as [|n IH].
  - unfold two_level_state. change (Z.of_nat 0) with 0.
    rewrite Z.mod_0_l, Z.div_0_l by lia. reflexivity.
  - cbn [add_upto]. rewrite IH. cbn [mbind result_bind].
    replace (Z.of_nat (S n)) with (Z.of_nat n + 1) by lia.
    apply two_level_add_state; lia.
Qed.

(** X9.  A two-level store with block size [b ≥ 1], after [n] sequential
    adds, [q = n div b] and [r = n mod b]: the block-level entry (there
    once [q ≥ 1]) starts at START, has size [q * b] and holds the sum of
    the [q] block samples, the [j]-th taken at scale [2 * eps] with
    sensitivity [j * b], the last time step of its block; the single-level
    entry (there unless [r = 0]) starts at [q * b + 1], has size [r] and
    holds the sum of the noise of the last [r] adds.  [release] returns the
    sum of the two: the noise handed to the adds of a completed block is
    no longer part of it. *)
Theorem two_level_store_after_adds ng (b : Z) noise_at (n : nat) :
  1 ≤ b →
  let q := Z.of_nat n `div` b in
  let r := Z.of_nat n `mod` b in
  let block_noise := sum_range (two_level_block_draw ng b) 1 (Z.to_nat q) in
  let single_noise := sum_range noise_at (q * b + 1) (Z.to_nat r) in
  ∃ s, add_upto TwoLevelPartialSumStore.add noise_at n (TwoLevelPartialSumStore.init ng b)
       = Ok s
       ∧ block_level_store s
         = (if decide (q = 0) then None
            else Some (mkNoisePartialSum START (q * b) block_noise))
       ∧ single_level_store s
         = (if decide (r = 0) then None
            else Some (mkNoisePartialSum (q * b + 1) r single_noise))
       ∧ tl_draws s = Z.to_nat q
       ∧ (TwoLevelPartialSumStore.release s).1 = block_noise + single_noise.
Proof.
  intros Hb q r block_noise single_noise.
  exists (two_level_state ng b noise_at (Z.of_nat n)).
  split; [apply two_level_run_state, Hb|].
  unfold two_level_state. cbn zeta. fold q r block_noise single_noise.
  split_and!; try reflexivity.
  unfold TwoLevelPartialSumStore.release.
  cbn [block_level_store single_level_store fst].
  assert (Hq0 : q = 0 → block_noise = 0)
    by (intros H0; unfold block_noise; rewrite H0; reflexivity).
  assert (Hr0 : r = 0 → single_noise = 0)
    by (intros H0; unfold single_noise; rewrite H0; reflexivity).
  destruct (decide (q = 0)) as [Hq|Hq], (decide (r = 0)) as [Hr|Hr];
    cbn [fst psum_noise]; unfold np_zeros;
    try specialize (Hq0 Hq); try specialize (Hr0 Hr); lia.
Qed.

Lemma two_level_store_after_adds_witness :
  ∃ s, add_upto TwoLevelPartialSumStore.add (λ t, 10 * t) 7
         (TwoLevelPartialSumStore.init (counting_generator "laplacian" 9) 3) = Ok s
       ∧ block_level_store s = Some (mkNoisePartialSum START 6 3)
       ∧ single_level_store s = Some (mkNoisePartialSum 7 1 70)
       ∧ tl_draws s = 2%nat
       ∧ (TwoLevelPartialSumStore.release s).1 = 73.
Proof.
  exact (two_level_store_after_adds (counting_generator "laplacian" 9) 3 (λ t, 10 * t) 7
           ltac:(lia)).
Defined.

(** ** What a tree store covers *)

Lemma tree_shape_entry (j : Z) (es : list Z) (k a sz : Z) :
  0 ≤ j → ascending_from j es →
  tree_shape es !! k = Some (a, sz) →
  a = k ∧ 1 ≤ sz ∧ 1 ≤ k ∧ k + sz - 1 ≤ total es.
Proof.
  revert j. induction es as [|e es IH]; intros j Hj; cbn [tree_shape ascending_from total].
  - intros _. rewrite lookup_empty. discriminate.
  - intros [Hje Hasc].
    pose proof (total_nonneg es). pose proof (Z.pow_pos_nonneg 2 e ltac:(lia) ltac:(lia)).
    destruct (decide (k = 1 + total es)) as [->|Hne].
    + rewrite lookup_insert_eq. intros [= <- <-]. lia.
    + rewrite lookup_insert_ne by congruence. intros Hk.
      specialize (IH (e + 1) ltac:(lia) Hasc Hk). lia.
Qed.

Lemma tree_shape_covers (j : Z) (es : list Z) (t : Z) :
  0 ≤ j → ascending_from j es → 1 ≤ t ≤ total es →
  ∃ k sz, tree_shape es !! k = Some (k, sz) ∧ k ≤ t < k + sz.
Proof.
  revert j. induction es as [|e es IH]; intros j Hj; cbn [tree_shape ascending_from total].
  - intros _ Ht. lia.
  - intros [Hje Hasc] Ht.
    destruct (decide (t ≤ total es)) as [Hle|Hgt].
    + destruct (IH (e + 1) ltac:(lia) Hasc ltac:(lia)) as (k & sz & Hk & Hin).
      exists k, sz. split; [|exact Hin].
      rewrite lookup_insert_ne by lia. exact Hk.
    + exists (1 + total es), (2 ^ e). split; [apply lookup_insert_eq|lia].
Qed.

Lemma tree_shape_disjoint (j : Z) (es : list Z) (k a sz k' a' sz' : Z) :
  0 ≤ j → ascending_from j es →
  tree_shape es !! k = Some (a, sz) →
  tree_shape es !! k' = Some (a', sz') →
  k < k' → k + sz ≤ k'.
Proof.
  revert j. induction es as [|e es IH]; intros j Hj; cbn [tree_shape ascending_from].
  - intros _. rewrite lookup_empty. discriminate.
  - intros [Hje Hasc] Hk Hk' Hlt.
    destruct (decide (k' = 1 + total es)) as [->|Hne'].
    + rewrite lookup_insert_ne in Hk by lia.
      pose proof (tree_shape_entry (e + 1) es k a sz ltac:(lia) Hasc Hk). lia.
    + rewrite lookup_insert_ne in Hk' by congruence.
      pose proof (tree_shape_entry (e + 1) es k' a' sz' ltac:(lia) Hasc Hk').
      destruct (decide (k = 1 + total es)) as [->|Hne]; [lia|].
      rewrite lookup_insert_ne in Hk by congruence.
      apply (IH (e + 1)); [lia|assumption..].
Qed.

Lemma tree_shape_tiles (d : gmap Z NoisePartialSum) (es : list Z) :
  ascending_from 0 es → shape d = tree_shape es → tiles (total es) d.
Proof.
  intros Hasc Hshape.
  assert (Hsh : ∀ k p, d !! k = Some p →
                       tree_shape es !! k = Some (psum_start p, psum_size p))
    by (intros k p Hk; rewrite <- Hshape, shape_lookup, Hk; reflexivity).
  split.
  - intros k p Hk. apply (tree_shape_entry 0 es k); [lia|exact Hasc|apply Hsh, Hk].
  - intros t Ht.
    destruct (tree_shape_covers 0 es t ltac:(lia) Hasc Ht) as (k & sz & Hk & Hin).
    assert (Hk0 := Hk). rewrite <- Hshape in Hk.
    destruct (shape_lookup_Some _ _ _ _ Hk) as (p & Hp & _ & Hsz).
    exists k, p. split; [exact Hp|]. split; [lia|].
    intros k' p' Hp' Hin'. specialize (Hsh k' p' Hp').
    destruct (Z.lt_trichotomy k' k) as [Hlt|[Heq|Hgt]]; [exfalso|exact Heq|exfalso].
    + pose proof (tree_shape_disjoint 0 es _ _ _ _ _ _ ltac:(lia) Hasc Hsh Hk0 Hlt). lia.
    + pose proof (tree_shape_disjoint 0 es _ _ _ _ _ _ ltac:(lia) Hasc Hk0 Hsh Hgt). lia.
Qed.

(** X10.  Under the tree strategy the stored partial sums tile the time
    steps seen so far: after [n] sequential adds every entry starts at its
    key and lies within [1..n], and every time step of [1..n] is covered by
    exactly one entry; so for [NoisePartialSumStore] with the tree method
    and for [TreePartialSumStore] built with a noise generator. *)
Theorem tree_blocks_tile_the_steps ng noise_at (n : nat) :
  (∃ s, fresh_run ng "tree" n = Ok s ∧ tiles (Z.of_nat n) (store s))
  ∧ (∃ s, add_upto TreePartialSumStore.add noise_at n (TreePartialSumStore.init (Some ng))
          = Ok s
          ∧ tiles (Z.of_nat n) (base_store s)).
Proof.
  split.
  - destruct (tree_run_shape ng n) as (s & es & Hrun & _ & Hasc & Htot & Hshape).
    exists s. split; [exact Hrun|]. rewrite <- Htot. apply tree_shape_tiles; assumption.
  - destruct (tree_new_run_shape ng noise_at n) as (d & k & es & Hrun & Hasc & Htot & Hshape).
    eexists. split; [exact Hrun|]. cbn [base_store]. rewrite <- Htot.
    apply tree_shape_tiles; assumption.
Qed.

Lemma sum_Z_powers (es : list Z) : sum_Z ((λ e, 2 ^ e) <$> es) = total es.
Proof. induction es as [|e es IH]; [reflexivity|]. cbn. unfold sum_Z in IH. rewrite IH. reflexivity. Qed.

Lemma tree_shape_count_and_sum (d : gmap Z NoisePartialSum) (es : list Z) :
  ascending_from 0 es → shape d = tree_shape es → 1 ≤ total es →
  Z.of_nat (size d) ≤ Z.log2 (total es) + 1 ∧ sum_Z (sizes d) = total es.
Proof.
  intros Hasc Hshape Hpos.
  pose proof (sizes_tree_shape d es Hasc Hshape) as Hsz.
  destruct (powers_of_total es Hasc) as [Hperm _].
  split.
  - rewrite <- length_map_to_list.
    assert (Hlen : length (map_to_list d) = length (binary_powers (total es))).
    { rewrite <- Hperm, <- Hsz. unfold sizes. by rewrite !length_fmap. }
    rewrite Hlen. unfold binary_powers. rewrite length_fmap.
    pose proof (length_filter (λ i, Z.testbit (total es) i = true)
                  (seqZ 0 (Z.log2 (total es) + 1))) as Hf.
    rewrite length_seqZ in Hf. pose proof (Z.log2_nonneg (total es)). lia.
  - rewrite (sum_Z_perm _ _ Hsz). apply sum_Z_powers.
Qed.

(** X11.  Under the tree strategy, after [n ≥ 1] sequential adds the store
    holds at most [⌊log2 n⌋ + 1] partial sums, and their sizes add up to
    [n]; so for both tree stores. *)
Theorem tree_store_is_logarithmic ng noise_at (n : nat) :
  (1 ≤ n)%nat →
  (∃ s, fresh_run ng "tree" n = Ok s
        ∧ Z.of_nat (size (store s)) ≤ Z.log2 (Z.of_nat n) + 1
        ∧ sum_Z (sizes (store s)) = Z.of_nat n)
  ∧ (∃ s, add_upto TreePartialSumStore.add noise_at n (TreePartialSumStore.init (Some ng))
          = Ok s
          ∧ Z.of_nat (size (base_store s)) ≤ Z.log2 (Z.of_nat n) + 1
          ∧ sum_Z (sizes (base_store s)) = Z.of_nat n).
Proof.
  intros Hn. split.
  - destruct (tree_run_shape ng n) as (s & es & Hrun & _ & Hasc & Htot & Hshape).
    exists s. split; [exact Hrun|]. rewrite <- Htot.
    apply tree_shape_count_and_sum; [assumption..|lia].
  - destruct (tree_new_run_shape ng noise_at n) as (d & k & es & Hrun & Hasc & Htot & Hshape).
    eexists. split; [exact Hrun|]. cbn [base_store]. rewrite <- Htot.
    apply tree_shape_count_and_sum; [assumption..|lia].
Qed.

Lemma tree_store_is_logarithmic_witness :
  (∃ s, fresh_run ones_generator "tree" 100 = Ok s
        ∧ Z.of_nat (size (store s)) ≤ Z.log2 (Z.of_nat 100) + 1
        ∧ sum_Z (sizes (store s)) = Z.of_nat 100)
  ∧ (∃ s, add_upto TreePartialSumStore.add (λ t, t) 100
            (TreePartialSumStore.init (Some ones_generator))
          = Ok s
          ∧ Z.of_nat (size (base_store s)) ≤ Z.log2 (Z.of_nat 100) + 1
          ∧ sum_Z (sizes (base_store s)) = Z.of_nat 100).
Proof. apply (tree_store_is_logarithmic ones_generator (λ t, t) 100). lia. Defined.

(** ** What a sqrt store holds after a run *)

(** The step from [n] to [n + 1] adds either continues the current block
    or completes it. *)
Lemma sqrt_step_cases (n b : Z) :
  0 ≤ n → 0 ≤ b →
  ((n + 1) `div` b = n `div` b ∧ (b = 0 ∨ (1 ≤ b ∧ n `mod` b + 1 < b)))
  ∨ ((n + 1) `div` b = n `div` b + 1 ∧ 1 ≤ b ∧ n `mod` b + 1 = b).
Proof.
  intros Hn Hb. destruct (decide (b = 0)) as [->|Hb0].
  - left. destruct (div_mod_zero n) as [-> _].
    destruct (div_mod_zero (n + 1)) as [-> _]. auto.
  - destruct (div_mod_succ n b Hn ltac:(lia)) as [(Hlt & _ & Hdiv)|(Heq & _ & Hdiv)].
    + left. split; [exact Hdiv|]. right. split; [lia|exact Hlt].
    + right. split; [exact Hdiv|]. split; [lia|exact Heq].
Qed.

Lemma sqrt_add_draws (s : NoisePartialSumStore) (n : Z) :
  let ng := noise_generator s in
  let b := Z.sqrt (T ng) in
  0 ≤ n → 0 ≤ T ng < 2 ^ 52 → release_method s = "sqrt"%string →
  (∀ k, shape (store s) !! k = sqrt_shape b n k) →
  ∃ s', add_noise (n + 1) s = Ok s'
        ∧ noise_generator s' = ng
        ∧ release_method s' = "sqrt"%string
        ∧ (∀ k, shape (store s') !! k = sqrt_shape b (n + 1) k)
        ∧ Z.of_nat (draws s')
          = Z.of_nat (draws s) + 1 + ((n + 1) `div` b - n `div` b).
Proof.
  intros ng b Hn HT Hm Hinv.
  destruct (sqrt_add_step s n Hn HT Hm Hinv) as (s' & Hadd & Hng & Hm' & Hinv' & Hout).
  exists s'. split_and!; try assumption.
  fold ng in Hout. fold b in Hout.
  pose proof (Z.sqrt_nonneg (T ng)) as Hb. fold b in Hb.
  unfold sqrt_add_outcome in Hout.
  set (t := n + 1) in *.
  set (d1 := <[t := mkNoisePartialSum t 1 (laplacian ng R_eps None (draws s))]> (store s)) in *.
  assert (Hd1 : ∀ k, shape d1 !! k = if decide (k = t) then Some (t, 1) else sqrt_shape b n k).
  { intros k. unfold d1. rewrite shape_insert. cbn [psum_start psum_size].
    destruct (decide (k = t)) as [->|Hne]; [apply lookup_insert_eq|].
    rewrite lookup_insert_ne by congruence. apply Hinv. }
  pose proof (Z.div_pos n b Hn) as Hq.
  assert (Hqb : b ≠ 0 → n = b * n `div` b + n `mod` b ∧ 0 ≤ n `mod` b < b).
  { intros Hb0. split; [apply Z.div_mod, Hb0|apply Z.mod_pos_bound; lia]. }
  destruct (sqrt_step_cases n b Hn Hb) as [(Hdiv & Hcase)|(Hdiv & Hb1 & Hcase)].
  - assert (Hnone : d1 !! (t - b + 1) = None).
    { apply shape_lookup_None. rewrite Hd1. unfold t.
      destruct Hcase as [Hb0|[Hb1 Hlt]].
      - assert (Hd0 : n `div` b = 0) by (rewrite Hb0; apply Z.div_0_r).
        unfold sqrt_shape. rewrite Hd0. unfold START_TIME.
        repeat case_decide; first [reflexivity|exfalso; lia].
      - destruct (Hqb ltac:(lia)) as [Hdm Hr]. specialize (Hq ltac:(lia)).
        assert (1 ≤ n `div` b → b ≤ n `div` b * b) by nia.
        unfold sqrt_shape, START_TIME.
        repeat case_decide; first [reflexivity|exfalso; lia]. }
    rewrite Hnone in Hout. destruct Hout as [_ ->]. unfold t. lia.
  - destruct (Hqb ltac:(lia)) as [Hdm Hr]. specialize (Hq ltac:(lia)).
    assert (Hsome : is_Some (d1 !! (t - b + 1))).
    { apply shape_is_Some. rewrite Hd1. unfold t.
      assert (n `div` b = 0 → n `div` b * b = 0) by (intros ->; lia).
      unfold sqrt_shape, START_TIME.
      repeat case_decide; first [by eauto|exfalso; lia]. }
    destruct Hsome as [p Hp]. rewrite Hp in Hout. destruct Hout as [-> _]. unfold t. lia.
Qed.

Lemma sqrt_run_layout ng (n : nat) :
  noise_type ng = "laplacian"%string →
  0 ≤ T ng < 2 ^ 52 →
  ∃ s, fresh_run ng "sqrt" n = Ok s
       ∧ noise_generator s = ng
       ∧ release_method s = "sqrt"%string
       ∧ (∀ k, shape (store s) !! k = sqrt_shape (Z.sqrt (T ng)) (Z.of_nat n) k)
       ∧ Z.of_nat (draws s) = Z.of_nat n + Z.of_nat n `div` Z.sqrt (T ng).
Proof.
  intros Hty. unfold fresh_run.
  rewrite init_accepts; [|unfold recognized_methods; set_solver|by right].
  intros HT. cbn [mbind result_bind].
  induction n as [|n (s & Hrun & Hng & Hm & Hinv & Hdr)].
  - eexists. split_and!; try reflexivity.
    intros k. cbn [store]. unfold shape. rewrite fmap_empty, lookup_empty.
    unfold sqrt_shape. change (Z.of_nat 0) with 0.
    assert (H0 : 0 `div` Z.sqrt (T ng) = 0) by reflexivity.
    rewrite H0. rewrite decide_False by lia. rewrite decide_False by lia. reflexivity.
  - subst ng.
    destruct (sqrt_add_draws s (Z.of_nat n) ltac:(lia) HT Hm Hinv)
      as (s' & Hadd & Hng' & Hm' & Hinv' & Hdr').
    exists s'. cbn [add_noise_upto]. rewrite Hrun. cbn [mbind result_bind].
    replace (Z.of_nat (S n)) with (Z.of_nat n + 1) by lia.
    split_and!; try assumption. lia.
Qed.

(** X12.  [NoisePartialSumStore] with the sqrt method, block size
    [b = ⌊√T⌋] for a horizon [0 ≤ T < 2^52], after [n] sequential adds and with
    [q = n div b] completed blocks (none when [b = 0]): once [q ≥ 1] the
    entry at START_TIME starts there and has size [q * b]; every time step
    of the block under way, [q * b + 1 .. n], has its unit entry, keyed and
    started at that step (but for START_TIME once it holds the blocks);
    there is no other entry.  The store has taken [n + q] samples, one per
    add and one per completed block. *)
Theorem sqrt_store_after_adds ng (n : nat) :
  noise_type ng = "laplacian"%string →
  0 ≤ T ng < 2 ^ 52 →
  let b := Z.sqrt (T ng) in
  let q := Z.of_nat n `div` b in
  ∃ s, fresh_run ng "sqrt" n = Ok s
       ∧ (∀ k, (λ p, (psum_start p, psum_size p)) <$> store s !! k
               = if decide (k = START_TIME ∧ 1 ≤ q) then Some (START_TIME, q * b)
                 else if decide (q * b < k ≤ Z.of_nat n) then Some (k, 1)
                 else None)
       ∧ Z.of_nat (draws s) = Z.of_nat n + q.
Proof.
  intros Hty HT b q.
  destruct (sqrt_run_layout ng n Hty HT) as (s & Hrun & _ & _ & Hinv & Hdr).
  exists s. split; [exact Hrun|]. split; [|exact Hdr].
  intros k. rewrite <- shape_lookup. apply Hinv.
Qed.

Lemma sqrt_store_after_adds_witness :
  ∃ s, fresh_run (counting_generator "laplacian" 9) "sqrt" 8 = Ok s
       ∧ (λ p, (psum_start p, psum_size p)) <$> store s !! 1 = Some (1, 6)
       ∧ (λ p, (psum_start p, psum_size p)) <$> store s !! 7 = Some (7, 1)
       ∧ (λ p, (psum_start p, psum_size p)) <$> store s !! 8 = Some (8, 1)
       ∧ store s !! 5 = None
       ∧ Z.of_nat (draws s) = 10.
Proof.
  destruct (sqrt_store_after_adds (counting_generator "laplacian" 9) 8 eq_refl
              ltac:(simpl; lia)) as (s & Hrun & Hlook & Hdr).
  exists s. split; [exact Hrun|].
  split_and!; [apply (Hlook 1)|apply (Hlook 7)|apply (Hlook 8)| |exact Hdr].
  specialize (Hlook 5). destruct (store s !! 5); [discriminate Hlook|reflexivity].
Defined.

Lemma sqrt_shape_dom (d : gmap Z NoisePartialSum) (b n : Z) :
  0 ≤ n → 0 ≤ b →
  (∀ k, shape d !! k = sqrt_shape b n k) →
  Z.of_nat (size d)
  = (if decide (1 ≤ n `div` b) then 1 else 0) + (n - n `div` b * b).
Proof.
  intros Hn Hb Hinv.
  set (q := n `div` b) in *.
  assert (Hq : 0 ≤ q ∧ q * b ≤ n ∧ (1 ≤ q → 1 ≤ q * b)).
  { unfold q. destruct (decide (b = 0)) as [->|Hb0].
    - destruct (div_mod_zero n) as [-> _]. lia.
    - pose proof (Z.div_mod n b Hb0). pose proof (Z.mod_pos_bound n b ltac:(lia)).
      pose proof (Z.div_pos n b Hn ltac:(lia)). split_and!; [lia|lia|nia]. }
  destruct Hq as (Hq0 & Hqb & Hq1).
  set (l := (if decide (1 ≤ q) then [START_TIME] else []) ++ seqZ (q * b + 1) (n - q * b)).
  assert (Hdom : dom d = list_to_set (C := gset Z) l).
  { apply set_eq. intros k.
    rewrite elem_of_dom, <- shape_is_Some, Hinv, elem_of_list_to_set.
    unfold l. rewrite elem_of_app, elem_of_seqZ. unfold sqrt_shape. fold q.
    unfold START_TIME in *.
    assert (Hl : k ∈ (if decide (1 ≤ q) then [1] else []) ↔ (k = 1 ∧ 1 ≤ q)).
    { destruct (decide (1 ≤ q)) as [H1|H1].
      - rewrite list_elem_of_singleton. intuition lia.
      - rewrite elem_of_nil. intuition lia. }
    rewrite Hl.
    destruct (decide (k = 1 ∧ 1 ≤ q)) as [Ha|Ha].
    - split; [intros _; left; exact Ha|intros _; eauto].
    - destruct (decide (q * b < k ≤ n)) as [Hin|Hout].
      + split; [intros _; right; lia|intros _; eauto].
      + split; [intros [? Hx]; discriminate|intros [Hx|Hx]; [contradiction|lia]]. }
  assert (Hnd : NoDup l).
  { unfold l. apply NoDup_app. split_and!.
    - case_decide; [apply NoDup_singleton|apply NoDup_nil_2].
    - intros k Hk Hk'. apply elem_of_seqZ in Hk'. unfold START_TIME in *.
      case_decide; [|by apply elem_of_nil in Hk].
      apply list_elem_of_singleton in Hk. specialize (Hq1 ltac:(lia)). lia.
    - apply NoDup_seqZ. }
  rewrite <- size_dom, Hdom, size_list_to_set by exact Hnd.
  unfold l. rewrite length_app, length_seqZ.
  case_decide; simpl; lia.
Qed.

(** X13.  The number of entries of a sqrt store with a horizon
    [0 ≤ T < 2^52] and block size [b = ⌊√T⌋] after [n] sequential adds
    is [n - q * b], the steps of the block under way, plus one once a
    block has been completed ([q = n div b ≥ 1]).  So with a block size
    [b ≥ 1] the store never holds more than [b] entries; with [b = 0] (a
    horizon [T = 0]) nothing is ever consolidated and it holds [n]. *)
Theorem sqrt_store_entry_count ng (n : nat) :
  noise_type ng = "laplacian"%string →
  0 ≤ T ng < 2 ^ 52 →
  let b := Z.sqrt (T ng) in
  let q := Z.of_nat n `div` b in
  ∃ s, fresh_run ng "sqrt" n = Ok s
       ∧ Z.of_nat (size (store s))
         = (if decide (1 ≤ q) then 1 else 0) + (Z.of_nat n - q * b)
       ∧ (1 ≤ b → Z.of_nat (size (store s)) ≤ b)
       ∧ (b = 0 → size (store s) = n).
Proof.
  intros Hty HT b q.
  destruct (sqrt_run_layout ng n Hty HT) as (s & Hrun & _ & _ & Hinv & _).
  pose proof (Z.sqrt_nonneg (T ng)) as Hb. fold b in Hb, Hinv.
  pose proof (sqrt_shape_dom (store s) b (Z.of_nat n) ltac:(lia) Hb Hinv) as Hsize.
  fold q in Hsize.
  exists s. split; [exact Hrun|]. split; [exact Hsize|]. split.
  - intros Hb1. rewrite Hsize.
    pose proof (Z.div_mod (Z.of_nat n) b ltac:(lia)) as Hdm.
    pose proof (Z.mod_pos_bound (Z.of_nat n) b ltac:(lia)) as Hr.
    pose proof (Z.div_pos (Z.of_nat n) b ltac:(lia) ltac:(lia)) as Hq.
    fold q in Hdm, Hq. case_decide; [lia|].
    assert (q = 0) by lia. nia.
  - intros Hb0. assert (Hq0 : q = 0) by (unfold q; rewrite Hb0; apply Z.div_0_r).
    rewrite Hq0 in Hsize. rewrite decide_False in Hsize by lia. lia.
Qed.

Lemma sqrt_store_entry_count_witness :
  ∃ s, fresh_run (counting_generator "laplacian" 9) "sqrt" 8 = Ok s
       ∧ Z.of_nat (size (store s)) = 3
       ∧ Z.of_nat (size (store s)) ≤ 3.
Proof.
  destruct (sqrt_store_entry_count (counting_generator "laplacian" 9) 8 eq_refl
              ltac:(simpl; lia)) as (s & Hrun & Hsize & Hle & _).
  exists s. split; [exact Hrun|]. split; [exact Hsize|]. apply Hle. simpl. lia.
Defined.

(** ** The hybrid strategy along a run *)

Lemma block_shape_entry (base j : Z) (es : list Z) (k a sz : Z) :
  0 ≤ j → ascending_from j es →
  block_shape base es !! k = Some (a, sz) →
  a = k ∧ 1 ≤ sz ∧ base + 1 ≤ k ∧ k + sz - 1 ≤ base + total es.
Proof.
  revert j. induction es as [|e es IH]; intros j Hj; cbn [block_shape ascending_from total].
  - intros _. rewrite lookup_empty. discriminate.
  - intros [Hje Hasc].
    pose proof (total_nonneg es). pose proof (Z.pow_pos_nonneg 2 e ltac:(lia) ltac:(lia)).
    destruct (decide (k = base + 1 + total es)) as [->|Hne].
    + rewrite lookup_insert_eq. intros [= <- <-]. lia.
    + rewrite lookup_insert_ne by congruence. intros Hk.
      specialize (IH (e + 1) ltac:(lia) Hasc Hk). lia.
Qed.

Lemma block_shape_fresh (base j : Z) (es : list Z) (k : Z) :
  0 ≤ j → ascending_from j es →
  k ≤ base ∨ base + total es < k →
  block_shape base es !! k = None.
Proof.
  intros Hj Hasc Hk. destruct (block_shape base es !! k) as [[a sz]|] eqn:Hl; [|reflexivity].
  pose proof (block_shape_entry base j es k a sz Hj Hasc Hl). lia.
Qed.

Lemma block_shape_values (base j : Z) (es : list Z) :
  0 ≤ j → ascending_from j es →
  (map_to_list (block_shape base es)).*2.*2 ≡ₚ (λ e, 2 ^ e) <$> es.
Proof.
  revert j. induction es as [|e es IH]; intros j Hj; cbn [block_shape ascending_from].
  - intros _. by rewrite map_to_list_empty.
  - intros [Hje Hasc].
    rewrite map_to_list_insert
      by (apply (block_shape_fresh base (e + 1)); [lia|assumption|lia]).
    simpl. constructor. apply (IH (e + 1)); [lia|assumption].
Qed.

Lemma block_shape_size (base j : Z) (es : list Z) :
  0 ≤ j → ascending_from j es → size (block_shape base es) = length es.
Proof.
  revert j. induction es as [|e es IH]; intros j Hj; cbn [block_shape ascending_from].
  - intros _. apply map_size_empty.
  - intros [Hje Hasc]. rewrite map_size_insert_None.
    + simpl. f_equal. apply (IH (e + 1)); [lia|assumption].
    + apply (block_shape_fresh base (e + 1)); [lia|assumption|lia].
Qed.

Lemma sizes_block_shape (d : gmap Z NoisePartialSum) (base : Z) (es : list Z) :
  ascending_from 0 es → shape d = block_shape base es →
  sizes d ≡ₚ (λ e, 2 ^ e) <$> es.
Proof.
  intros Hasc Hshape. rewrite sizes_of_shape, Hshape.
  apply (block_shape_values base 0); [lia|assumption].
Qed.

(** A number strictly between two consecutive powers of two is not one. *)
Lemma not_power_of_two_between (k x : Z) :
  0 ≤ k → 2 ^ k < x < 2 ^ (k + 1) → is_power_of_two x = false.
Proof.
  intros Hk Hx. destruct (is_power_of_two x) eqn:Hp; [|reflexivity].
  apply is_power_of_two_spec in Hp as (m & Hm & ->).
  destruct Hx as [Hlo Hhi].
  apply Z.pow_lt_mono_r_iff in Hlo; [|lia|lia].
  apply Z.pow_lt_mono_r_iff in Hhi; [|lia|lia]. lia.
Qed.

(** The merges of [HybridPartialSumStore._consolidate_helper] after a new
    rightmost tree-level block. *)
Lemma hybrid_helper_carry ng (base : Z) (es : list Z) :
  ∀ (j : Z) (fuel : nat) (s : HybridStore),
    0 ≤ base → 0 ≤ j →
    ascending_from j es →
    hy_noise_generator s = Some ng →
    shape (tree_store s) = block_shape base (j :: es) →
    (length es < fuel)%nat →
    ∃ s', HybridPartialSumStore._consolidate_helper_fuel fuel (base + 1 + total es) s = Ok s'
          ∧ shape (tree_store s') = block_shape base (carry j es)
          ∧ hy_noise_generator s' = Some ng
          ∧ log_store s' = log_store s
          ∧ new_noise s' = new_noise s.
Proof.
  induction es as [|e es IH]; intros j fuel s Hbase Hj Hasc Hng Hshape Hfuel;
    (destruct fuel as [|fuel]; [simpl in Hfuel; lia|]);
    cbn [HybridPartialSumStore._consolidate_helper_fuel].
  - assert (Ht : shape (tree_store s) !! (base + 1 + total [])
                 = Some (base + 1 + total [], 2 ^ j))
      by (rewrite Hshape; apply lookup_insert_eq).
    destruct (shape_lookup_Some _ _ _ _ Ht) as (pt & Hpt & Hst & Hsz).
    unfold getitem. rewrite Hpt. cbn [mbind result_bind]. rewrite Hst, Hsz.
    pose proof (Z.pow_pos_nonneg 2 j ltac:(lia) Hj) as Hpos.
    assert (Hprev : tree_store s !! (base + 1 + total [] - 2 ^ j) = None).
    { apply shape_lookup_None. rewrite Hshape. cbn [block_shape total].
      rewrite lookup_insert_ne by lia. apply lookup_empty. }
    rewrite Hprev. eexists. split; [reflexivity|]. auto.
  - destruct Hasc as [Hje Hasc].
    assert (Ht : shape (tree_store s) !! (base + 1 + total (e :: es))
                 = Some (base + 1 + total (e :: es), 2 ^ j))
      by (rewrite Hshape; apply lookup_insert_eq).
    destruct (shape_lookup_Some _ _ _ _ Ht) as (pt & Hpt & Hst & Hsz).
    unfold getitem. rewrite Hpt. cbn [mbind result_bind]. rewrite Hst, Hsz.
    pose proof (Z.pow_pos_nonneg 2 j ltac:(lia) Hj) as Hpos.
    pose proof (total_nonneg es) as Htot.
    pose proof (Z.pow_pos_nonneg 2 e ltac:(lia) ltac:(lia)) as Hpose.
    assert (Hfresh : ∀ x, x ≤ base ∨ base + total es < x → block_shape base es !! x = None)
      by (intros x Hx; apply (block_shape_fresh base (e + 1)); [lia|assumption|exact Hx]).
    destruct (decide (j = e)) as [->|Hne].
    + replace (base + 1 + total (e :: es) - 2 ^ e) with (base + 1 + total es)
        by (simpl; lia).
      assert (Hp : shape (tree_store s) !! (base + 1 + total es)
                   = Some (base + 1 + total es, 2 ^ e)).
      { rewrite Hshape. cbn [block_shape total].
        rewrite lookup_insert_ne by lia. apply lookup_insert_eq. }
      destruct (shape_lookup_Some _ _ _ _ Hp) as (pp & Hpp & Hpst & Hpsz).
      rewrite Hpp. rewrite decide_True by congruence.
      rewrite Hng. cbn [the_generator mbind result_bind].
      unfold int_log2. rewrite decide_False by (simpl; lia).
      rewrite decide_False by (simpl; lia). cbn [mbind result_bind].
      unfold delitem. rewrite lookup_insert_ne by (simpl; lia). rewrite Hpt.
      cbn [mbind result_bind].
      simpl carry. rewrite decide_True by reflexivity.
      match goal with
      | |- context [HybridPartialSumStore._consolidate_helper_fuel fuel _ ?s1] =>
          destruct (IH (e + 1) fuel s1) as (s' & Hrun & Hsh & Hng' & Hlog & Hnew)
      end; [lia|lia|assumption|reflexivity| |simpl in Hfuel; lia|].
      * cbn [tree_store]. rewrite shape_delete, shape_insert, Hshape.
        cbn [psum_start psum_size block_shape total].
        rewrite delete_insert_ne by lia.
        rewrite delete_insert_eq.
        rewrite delete_insert_ne by lia.
        rewrite delete_id by (apply Hfresh; lia).
        rewrite insert_insert_eq.
        rewrite Z.pow_add_r by lia. reflexivity.
      * exists s'. split; [exact Hrun|]. split; [exact Hsh|]. auto.
    + assert (Hlt : 2 ^ j < 2 ^ e) by (apply Z.pow_lt_mono_r; lia).
      assert (Hprev : tree_store s !! (base + 1 + total (e :: es) - 2 ^ j) = None).
      { apply shape_lookup_None. rewrite Hshape. cbn [block_shape total].
        rewrite !lookup_insert_ne by lia. apply Hfresh. lia. }
      rewrite Hprev. simpl carry. rewrite decide_False by assumption.
      eexists. split; [reflexivity|]. auto.
Qed.

Lemma hybrid_new_run ng noise_at (n : nat) :
  ∃ s (kk : nat) es,
    add_upto HybridPartialSumStore.add noise_at (S n) (HybridPartialSumStore.init (Some ng))
    = Ok s
    ∧ hy_noise_generator s = Some ng
    ∧ new_noise s = None
    ∧ log_store s
      = Some (mkNoisePartialSum START (2 ^ Z.of_nat kk)
                (sum_range (λ i, noise_at (2 ^ i)) 0 (S kk)))
    ∧ ascending_from 0 es
    ∧ shape (tree_store s) = block_shape (2 ^ Z.of_nat kk) es
    ∧ 2 ^ Z.of_nat kk + total es = Z.of_nat (S n)
    ∧ total es < 2 ^ Z.of_nat kk.
Proof.
  induction n as [|n (s & kk & es & Hrun & Hng & Hnew & Hlog & Hasc & Hshape & Htot & Hlt)].
  - eexists _, 0%nat, []. split; [reflexivity|]. split_and!; try reflexivity.
  - cbn [add_upto] in Hrun |- *. rewrite Hrun. cbn [mbind result_bind].
    set (t := Z.of_nat (S (S n))). assert (Ht : t = 2 ^ Z.of_nat kk + total es + 1) by lia.
    clearbody t. clear Hrun.
    destruct s as [g k d lg nn]. cbn [hy_noise_generator new_noise log_store tree_store] in *.
    subst g nn lg.
    pose proof (Z.pow_pos_nonneg 2 (Z.of_nat kk) ltac:(lia) ltac:(lia)) as Hpos.
    pose proof (total_nonneg es) as Htn.
    unfold HybridPartialSumStore.add, HybridPartialSumStore.consolidate.
    cbn [new_noise the_psum mbind result_bind psum_start psum_noise
         hy_noise_generator hy_draws tree_store log_store].
    rewrite decide_False by (unfold START; lia).
    change (HybridPartialSumStore.is_power_of_two t) with (is_power_of_two t).
    destruct (decide (total es + 1 = 2 ^ Z.of_nat kk)) as [Hfull|Hpart].
    + assert (Hpow : is_power_of_two t = true).
      { apply is_power_of_two_spec. exists (Z.of_nat kk + 1). split; [lia|].
        rewrite Z.pow_add_r by lia. lia. }
      rewrite Hpow. cbn [the_psum mbind result_bind psum_noise].
      eexists _, (S kk), []. split; [reflexivity|].
      unfold HybridPartialSumStore.clear_new_noise.
      cbn [hy_noise_generator new_noise log_store tree_store].
      assert (Ht2 : t = 2 ^ Z.of_nat (S kk)).
      { replace (Z.of_nat (S kk)) with (Z.of_nat kk + 1) by lia.
        rewrite Z.pow_add_r by lia. lia. }
      split_and!.
      * reflexivity.
      * reflexivity.
      * rewrite (sum_range_S _ 0 (S kk)). cbn beta. rewrite Z.add_0_l, <- Ht2. reflexivity.
      * exact I.
      * unfold shape. rewrite fmap_empty. reflexivity.
      * cbn [total]. lia.
      * cbn [total]. lia.
    + assert (Hpow : is_power_of_two t = false).
      { apply (not_power_of_two_between (Z.of_nat kk)); [lia|].
        rewrite Z.pow_add_r by lia. lia. }
      rewrite Hpow. unfold HybridPartialSumStore._consolidate_helper.
      cbn [tree_store].
      match goal with
      | |- context [HybridPartialSumStore._consolidate_helper_fuel ?fuel t ?s1] =>
          destruct (hybrid_helper_carry ng (2 ^ Z.of_nat kk) es 0 fuel s1)
            as (s' & Hrun & Hsh & Hng' & Hlog' & Hnew')
      end; [lia|lia|exact Hasc|reflexivity| | |].
      * cbn [tree_store]. rewrite shape_insert, Hshape. cbn [psum_start psum_size block_shape].
        rewrite Ht. replace (2 ^ Z.of_nat kk + total es + 1)
          with (2 ^ Z.of_nat kk + 1 + total es) by lia. reflexivity.
      * rewrite <- shape_size, shape_insert, Hshape.
        rewrite map_size_insert_None
          by (apply (block_shape_fresh _ 0); [lia|assumption|cbn; lia]).
        rewrite (block_shape_size _ 0) by (lia || assumption). lia.
      * replace (2 ^ Z.of_nat kk + 1 + total es) with t in Hrun by lia.
        rewrite Hrun. cbn [mbind result_bind].
        cbn [log_store new_noise] in Hlog', Hnew'.
        eexists _, kk, (carry 0 es). split; [reflexivity|].
        unfold HybridPartialSumStore.clear_new_noise.
        cbn [hy_noise_generator new_noise log_store tree_store].
        split_and!; [exact Hng'|reflexivity|exact Hlog'| |exact Hsh| |].
        -- apply carry_ascending, Hasc.
        -- rewrite carry_total by lia. change (2 ^ 0) with 1 in *. lia.
        -- rewrite carry_total by lia. change (2 ^ 0) with 1 in *. lia.
Qed.

Lemma log2_of_split (kk : nat) (m n : Z) :
  2 ^ Z.of_nat kk + m = n → 0 ≤ m < 2 ^ Z.of_nat kk → Z.log2 n = Z.of_nat kk.
Proof.
  intros Hsum Hm. apply Z.log2_unique; [lia|].
  rewrite Z.pow_succ_r by lia. lia.
Qed.

(** X14.  [HybridPartialSumStore], built with a noise generator, after
    [n ≥ 1] sequential adds, with [k = ⌊log2 n⌋]: the log-level entry
    starts at START, has size [2^k] and holds the sum of the noise handed
    in at the times [1, 2, 4, ..., 2^k]; the tree-level entries start at
    their keys, lie within the time steps [2^k + 1 .. n], and their sizes
    are, up to order, the powers of two of the binary representation of
    [n - 2^k]. *)
Theorem hybrid_store_after_adds ng noise_at (n : nat) :
  (1 ≤ n)%nat →
  let k := Z.log2 (Z.of_nat n) in
  ∃ s, add_upto HybridPartialSumStore.add noise_at n (HybridPartialSumStore.init (Some ng))
       = Ok s
       ∧ log_store s
         = Some (mkNoisePartialSum START (2 ^ k)
                   (sum_range (λ i, noise_at (2 ^ i)) 0 (Z.to_nat (k + 1))))
       ∧ (∀ key p, tree_store s !! key = Some p →
                   psum_start p = key ∧ 2 ^ k < key ∧ key + psum_size p - 1 ≤ Z.of_nat n)
       ∧ sizes (tree_store s) ≡ₚ binary_powers (Z.of_nat n - 2 ^ k).
Proof.
  intros Hn k. destruct n as [|n]; [lia|].
  destruct (hybrid_new_run ng noise_at n)
    as (s & kk & es & Hrun & _ & _ & Hlog & Hasc & Hshape & Htot & Hlt).
  pose proof (total_nonneg es) as Htn.
  assert (Hk : k = Z.of_nat kk) by (apply (log2_of_split kk (total es)); lia).
  exists s. split; [exact Hrun|]. rewrite Hk.
  replace (Z.to_nat (Z.of_nat kk + 1)) with (S kk) by lia.
  split; [exact Hlog|]. split.
  - intros key p Hp.
    assert (Hs : block_shape (2 ^ Z.of_nat kk) es !! key = Some (psum_start p, psum_size p))
      by (rewrite <- Hshape, shape_lookup, Hp; reflexivity).
    pose proof (block_shape_entry _ 0 es key _ _ ltac:(lia) Hasc Hs). lia.
  - rewrite (sizes_block_shape _ _ _ Hasc Hshape).
    replace (Z.of_nat (S n) - 2 ^ Z.of_nat kk) with (total es) by lia.
    apply powers_of_total, Hasc.
Qed.

Lemma hybrid_store_after_adds_witness :
  ∃ s, add_upto HybridPartialSumStore.add (λ t, t) 13
         (HybridPartialSumStore.init (Some ones_generator)) = Ok s
       ∧ log_store s = Some (mkNoisePartialSum START 8 15)
       ∧ (∀ key p, tree_store s !! key = Some p →
                   psum_start p = key ∧ 8 < key ∧ key + psum_size p - 1 ≤ 13)
       ∧ sizes (tree_store s) ≡ₚ binary_powers 5.
Proof.
  exact (hybrid_store_after_adds ones_generator (λ t, t) 13 ltac:(lia)).
Defined.

(** The merges of [consolidate_for_hybrid] after a new rightmost tree-level
    block, next to the log-level entry at START_TIME. *)
Lemma consolidate_for_hybrid_carry (kk : Z) (lgs : Z * Z) (es : list Z) :
  ∀ (j : Z) (fuel : nat) (s : NoisePartialSumStore),
    0 ≤ kk → 0 ≤ j →
    ascending_from j es →
    2 ^ j + total es < 2 ^ kk →
    shape (store s) = <[START_TIME := lgs]> (block_shape (2 ^ kk) (j :: es)) →
    (length es < fuel)%nat →
    ∃ s', consolidate_for_hybrid_fuel fuel (2 ^ kk + 1 + total es) s = Ok s'
          ∧ shape (store s') = <[START_TIME := lgs]> (block_shape (2 ^ kk) (carry j es))
          ∧ store s' !! START_TIME = store s !! START_TIME
          ∧ noise_generator s' = noise_generator s
          ∧ release_method s' = release_method s.
Proof.
  induction es as [|e es IH]; intros j fuel s Hkk Hj Hasc Hsmall Hshape Hfuel;
    (destruct fuel as [|fuel]; [simpl in Hfuel; lia|]);
    cbn [consolidate_for_hybrid_fuel];
    pose proof (Z.pow_pos_nonneg 2 kk ltac:(lia) Hkk) as Hbase;
    pose proof (Z.pow_pos_nonneg 2 j ltac:(lia) Hj) as Hpos.
  - cbn [total] in *.
    rewrite (not_power_of_two_between kk)
      by (try exact Hkk; rewrite Z.pow_add_r by lia; lia).
    cbn [andb].
    assert (Ht : shape (store s) !! (2 ^ kk + 1 + 0) = Some (2 ^ kk + 1 + 0, 2 ^ j)).
    { rewrite Hshape. rewrite lookup_insert_ne by (unfold START_TIME; lia).
      apply lookup_insert_eq. }
    destruct (shape_lookup_Some _ _ _ _ Ht) as (pt & Hpt & Hst & Hsz).
    unfold getitem. rewrite Hpt. cbn [mbind result_bind]. rewrite Hst, Hsz.
    assert (Hprev : store s !! (2 ^ kk + 1 + 0 - 2 ^ j) = None).
    { apply shape_lookup_None. rewrite Hshape. cbn [block_shape total].
      rewrite !lookup_insert_ne by (unfold START_TIME; lia). apply lookup_empty. }
    rewrite Hprev. eexists. split; [reflexivity|]. split; [exact Hshape|]. auto.
  - destruct Hasc as [Hje Hasc].
    pose proof (total_nonneg es) as Htot.
    pose proof (Z.pow_pos_nonneg 2 e ltac:(lia) ltac:(lia)) as Hpose.
    cbn [total] in Hsmall.
    rewrite (not_power_of_two_between kk)
      by (try exact Hkk; rewrite Z.pow_add_r by lia; cbn [total]; lia).
    cbn [andb].
    assert (Ht : shape (store s) !! (2 ^ kk + 1 + total (e :: es))
                 = Some (2 ^ kk + 1 + total (e :: es), 2 ^ j)).
    { rewrite Hshape. rewrite lookup_insert_ne by (unfold START_TIME; cbn [total]; lia).
      apply lookup_insert_eq. }
    destruct (shape_lookup_Some _ _ _ _ Ht) as (pt & Hpt & Hst & Hsz).
    unfold getitem. rewrite Hpt. cbn [mbind result_bind]. rewrite Hst, Hsz.
    assert (Hfresh : ∀ x, x ≤ 2 ^ kk ∨ 2 ^ kk + total es < x →
                          block_shape (2 ^ kk) es !! x = None)
      by (intros x Hx; apply (block_shape_fresh _ (e + 1)); [lia|assumption|exact Hx]).
    destruct (decide (j = e)) as [->|Hne].
    + replace (2 ^ kk + 1 + total (e :: es) - 2 ^ e) with (2 ^ kk + 1 + total es)
        by (simpl; lia).
      assert (Hp : shape (store s) !! (2 ^ kk + 1 + total es)
                   = Some (2 ^ kk + 1 + total es, 2 ^ e)).
      { rewrite Hshape. cbn [block_shape total].
        rewrite lookup_insert_ne by (unfold START_TIME; lia).
        rewrite lookup_insert_ne by lia. apply lookup_insert_eq. }
      destruct (shape_lookup_Some _ _ _ _ Hp) as (pp & Hpp & Hpst & Hpsz).
      rewrite Hpp. rewrite decide_True by congruence.
      unfold int_log2. rewrite decide_False by (simpl; lia).
      rewrite decide_False by (simpl; lia). cbn [mbind result_bind draw_tree tick store].
      unfold delitem. rewrite lookup_insert_ne by (simpl; lia). rewrite Hpt.
      cbn [mbind result_bind].
      simpl carry. rewrite decide_True by reflexivity.
      match goal with
      | |- context [consolidate_for_hybrid_fuel fuel _ ?s1] =>
          destruct (IH (e + 1) fuel s1) as (s' & Hrun & Hsh & Hst' & Hng' & Hm')
      end; [lia|lia|assumption| | |simpl in Hfuel; lia|].
      * rewrite Z.pow_add_r by lia. lia.
      * cbn [store set_store]. rewrite shape_delete, shape_insert, Hshape.
        cbn [psum_start psum_size block_shape total].
        rewrite (insert_insert_ne _ (2 ^ kk + 1 + total es) START_TIME)
          by (unfold START_TIME; lia).
        rewrite delete_insert_ne by (unfold START_TIME; lia).
        rewrite delete_insert_ne by lia.
        rewrite delete_insert_eq.
        rewrite delete_insert_ne by lia.
        rewrite delete_id by (apply Hfresh; lia).
        rewrite insert_insert_eq.
        rewrite Z.pow_add_r by lia. reflexivity.
      * exists s'. split; [exact Hrun|]. split; [exact Hsh|].
        cbn [store set_store noise_generator release_method tick] in Hst', Hng', Hm'.
        split_and!; [|exact Hng'|exact Hm'].
        rewrite Hst'. rewrite lookup_delete_ne by (unfold START_TIME; simpl; lia).
        apply lookup_insert_ne. unfold START_TIME. lia.
    + assert (Hlt : 2 ^ j < 2 ^ e) by (apply Z.pow_lt_mono_r; lia).
      assert (Hprev : store s !! (2 ^ kk + 1 + total (e :: es) - 2 ^ j) = None).
      { apply shape_lookup_None. rewrite Hshape. cbn [block_shape total].
        rewrite !lookup_insert_ne by (unfold START_TIME; lia). apply Hfresh. lia. }
      rewrite Hprev. simpl carry. rewrite decide_False by assumption.
      eexists. split; [reflexivity|]. split; [exact Hshape|]. auto.
Qed.

Lemma hybrid_method_run ng (n : nat) :
  noise_type ng = "laplacian"%string →
  ∃ s (kk : nat) es,
    fresh_run ng "hybrid" (S n) = Ok s
    ∧ noise_generator s = ng
    ∧ release_method s = "hybrid"%string
    ∧ ascending_from 0 es
    ∧ shape (store s)
      = <[START_TIME := (START_TIME, 2 ^ Z.of_nat kk)]> (block_shape (2 ^ Z.of_nat kk) es)
    ∧ 2 ^ Z.of_nat kk + total es = Z.of_nat (S n)
    ∧ total es < 2 ^ Z.of_nat kk.
Proof.
  intros Hty. unfold fresh_run.
  rewrite init_accepts; [|unfold recognized_methods; set_solver|by right].
  cbn [mbind result_bind].
  induction n as [|n (s & kk & es & Hrun & Hng & Hm & Hasc & Hshape & Htot & Hlt)].
  - eexists _, 0%nat, []. split; [reflexivity|]. split_and!; try reflexivity.
  - cbn [add_noise_upto] in Hrun |- *. rewrite Hrun. cbn [mbind result_bind].
    set (t := Z.of_nat (S (S n))). assert (Ht : t = 2 ^ Z.of_nat kk + total es + 1) by lia.
    clearbody t. clear Hrun.
    destruct s as [g m th d dr]. cbn [noise_generator release_method store] in *.
    subst g m.
    pose proof (Z.pow_pos_nonneg 2 (Z.of_nat kk) ltac:(lia) ltac:(lia)) as Hpos.
    pose proof (total_nonneg es) as Htn.
    unfold add_noise. cbn [release_method noise_generator].
    rewrite decide_False by discriminate. rewrite decide_False by discriminate.
    rewrite decide_False by discriminate. rewrite decide_False by discriminate.
    rewrite decide_True by reflexivity.
    destruct (decide (total es + 1 = 2 ^ Z.of_nat kk)) as [Hfull|Hpart].
    + assert (Ht2 : t = 2 ^ Z.of_nat (S kk)).
      { replace (Z.of_nat (S kk)) with (Z.of_nat kk + 1) by lia.
        rewrite Z.pow_add_r by lia. lia. }
      assert (Hpow : is_power_of_two t = true).
      { apply is_power_of_two_spec. exists (Z.of_nat (S kk)). split; [lia|exact Ht2]. }
      rewrite Hpow. cbn [mbind result_bind draw_laplacian tick store set_store
                         noise_generator release_method draws is_theta_level].
      unfold consolidate_store. cbn [release_method].
      rewrite decide_False by discriminate. rewrite decide_False by discriminate.
      rewrite decide_False by discriminate. rewrite decide_False by discriminate.
      rewrite decide_True by reflexivity.
      unfold consolidate_for_hybrid.
      cbn [consolidate_for_hybrid_fuel store set_store tick
           noise_generator release_method draws is_theta_level].
      rewrite Hpow. rewrite bool_decide_eq_true_2 by (unfold START_TIME; lia).
      cbn [andb].
      assert (H0 : shape d !! START_TIME = Some (START_TIME, 2 ^ Z.of_nat kk))
        by (rewrite Hshape; apply lookup_insert_eq).
      destruct (shape_lookup_Some _ _ _ _ H0) as (p0 & Hp0 & _ & _).
      unfold getitem.
      rewrite (lookup_insert_ne _ t START_TIME) by (unfold START_TIME; lia). rewrite Hp0.
      rewrite lookup_insert_eq. cbn [mbind result_bind].
      eexists _, (S kk), []. split; [reflexivity|].
      cbn [noise_generator release_method store set_store].
      split_and!.
      * reflexivity.
      * reflexivity.
      * exact I.
      * unfold shape. rewrite map_fmap_singleton. cbn [psum_start psum_size block_shape].
        rewrite insert_empty, Ht2. reflexivity.
      * cbn [total]. lia.
      * cbn [total]. lia.
    + assert (Hnp : is_power_of_two t = false).
      { apply (not_power_of_two_between (Z.of_nat kk)); [lia|].
        rewrite Z.pow_add_r by lia. lia. }
      rewrite Hnp. unfold int_log2.
      rewrite decide_False by lia. rewrite decide_False by lia.
      cbn [mbind result_bind draw_laplacian tick store set_store
           noise_generator release_method draws is_theta_level].
      unfold consolidate_store. cbn [release_method].
      rewrite decide_False by discriminate. rewrite decide_False by discriminate.
      rewrite decide_False by discriminate. rewrite decide_False by discriminate.
      rewrite decide_True by reflexivity.
      unfold consolidate_for_hybrid.
      match goal with
      | |- context [consolidate_for_hybrid_fuel ?f _ ?s1] =>
          destruct (consolidate_for_hybrid_carry (Z.of_nat kk)
                      (START_TIME, 2 ^ Z.of_nat kk) es 0 f s1)
            as (s' & Hrun & Hsh & _ & Hng' & Hm')
      end; [lia|lia|exact Hasc|change (2 ^ 0) with 1; lia| | |].
      * cbn [store set_store]. rewrite shape_insert, Hshape.
        cbn [psum_start psum_size block_shape].
        rewrite insert_insert_ne by (unfold START_TIME; lia).
        replace (2 ^ Z.of_nat kk + 1 + total es) with t by lia. reflexivity.
      * cbn [store set_store].
        assert (Hsz : size (shape d) = S (length es)).
        { rewrite Hshape. rewrite map_size_insert_None.
          - f_equal. apply (block_shape_size _ 0); [lia|exact Hasc].
          - apply (block_shape_fresh _ 0); [lia|exact Hasc|unfold START_TIME; lia]. }
        unfold shape in Hsz. rewrite map_size_fmap in Hsz.
        rewrite map_size_insert_None.
        -- lia.
        -- apply shape_lookup_None. rewrite Hshape.
           rewrite lookup_insert_ne by (unfold START_TIME; lia).
           apply (block_shape_fresh _ 0); [lia|exact Hasc|lia].
      * replace (2 ^ Z.of_nat kk + 1 + total es) with t in Hrun by lia.
        rewrite Hrun.
        cbn [noise_generator release_method] in Hng', Hm'.
        eexists _, kk, (carry 0 es). split; [reflexivity|].
        split_and!; [exact Hng'|exact Hm'| |exact Hsh| |].
        -- apply carry_ascending, Hasc.
        -- rewrite carry_total by lia. change (2 ^ 0) with 1 in *. lia.
        -- rewrite carry_total by lia. change (2 ^ 0) with 1 in *. lia.
Qed.

(** X15.  [NoisePartialSumStore] with the hybrid method and Laplacian
    noise, after [n ≥ 1] sequential [add_noise] calls, with
    [k = ⌊log2 n⌋]: the entry at START_TIME starts there and has size
    [2^k]; every other entry starts at its key and lies within the time
    steps [2^k + 1 .. n]; the sizes of these other entries are, up to
    order, the powers of two of the binary representation of [n - 2^k]. *)
Theorem hybrid_method_after_adds ng (n : nat) :
  noise_type ng = "laplacian"%string →
  (1 ≤ n)%nat →
  let k := Z.log2 (Z.of_nat n) in
  ∃ s lg, fresh_run ng "hybrid" n = Ok s
          ∧ store s !! START_TIME = Some lg
          ∧ psum_start lg = START_TIME
          ∧ psum_size lg = 2 ^ k
          ∧ (∀ key p, key ≠ START_TIME → store s !! key = Some p →
                      psum_start p = key ∧ 2 ^ k < key
                      ∧ key + psum_size p - 1 ≤ Z.of_nat n)
          ∧ sizes (delete START_TIME (store s)) ≡ₚ binary_powers (Z.of_nat n - 2 ^ k).
Proof.
  intros Hty Hn k. destruct n as [|n]; [lia|].
  destruct (hybrid_method_run ng n Hty)
    as (s & kk & es & Hrun & _ & _ & Hasc & Hshape & Htot & Hlt).
  pose proof (total_nonneg es) as Htn.
  assert (Hk : k = Z.of_nat kk) by (apply (log2_of_split kk (total es)); lia).
  assert (H0 : shape (store s) !! START_TIME = Some (START_TIME, 2 ^ Z.of_nat kk))
    by (rewrite Hshape; apply lookup_insert_eq).
  destruct (shape_lookup_Some _ _ _ _ H0) as (lg & Hlg & Hst & Hsz).
  exists s, lg. rewrite Hk. split_and!; try assumption.
  - intros key p Hkey Hp.
    assert (Hs : block_shape (2 ^ Z.of_nat kk) es !! key = Some (psum_start p, psum_size p)).
    { rewrite <- (lookup_insert_ne (block_shape (2 ^ Z.of_nat kk) es) START_TIME key
                    (START_TIME, 2 ^ Z.of_nat kk)) by congruence.
      rewrite <- Hshape, shape_lookup, Hp. reflexivity. }
    pose proof (block_shape_entry _ 0 es key _ _ ltac:(lia) Hasc Hs). lia.
  - rewrite (sizes_block_shape _ (2 ^ Z.of_nat kk) es Hasc).
    + replace (Z.of_nat (S n) - 2 ^ Z.of_nat kk) with (total es) by lia.
      apply powers_of_total, Hasc.
    + rewrite shape_delete, Hshape, delete_insert_eq.
      apply delete_id, (block_shape_fresh _ 0); [lia|exact Hasc|].
      pose proof (Z.pow_pos_nonneg 2 (Z.of_nat kk) ltac:(lia) ltac:(lia)).
      unfold START_TIME. lia.
Qed.

Lemma hybrid_method_after_adds_witness :
  ∃ s lg, fresh_run (counting_generator "laplacian" 9) "hybrid" 13 = Ok s
          ∧ store s !! START_TIME = Some lg
          ∧ psum_start lg = START_TIME
          ∧ psum_size lg = 8
          ∧ (∀ key p, key ≠ START_TIME → store s !! key = Some p →
                      psum_start p = key ∧ 8 < key ∧ key + psum_size p - 1 ≤ 13)
          ∧ sizes (delete START_TIME (store s)) ≡ₚ binary_powers 5.
Proof.
  exact (hybrid_method_after_adds (counting_generator "laplacian" 9) 13 eq_refl ltac:(lia)).
Defined.

(** ** The layout of a store does not depend on the noise *)

















(** ** Further edge behaviour *)

(** X17.  [HybridPartialSumStore] built without a noise generator (the
    default) accepts the sequential adds at the times 1 to 5, where no two
    tree-level entries meet, and raises AttributeError at time 6, where the
    first merge asks the generator for its [eps]; no later add is
    reached. *)
Theorem hybrid_store_without_generator (noise_at : Z → Z) (n : nat) :
  if decide (n ≤ 5)%nat
  then is_ok (add_upto HybridPartialSumStore.add noise_at n (HybridPartialSumStore.init None))
       = true
  else add_upto HybridPartialSumStore.add noise_at n (HybridPartialSumStore.init None)
       = Raise AttributeError.
Proof.
  do 6 (destruct n as [|n]; [reflexivity|]).
  rewrite decide_False by lia.
  induction n as [|n IH].
  - reflexivity.
  - change (add_upto ?a ?f (S ?m) ?s)
      with (s' ← add_upto a f m s; a (Z.of_nat (S m)) (f (Z.of_nat (S m))) s').
    rewrite IH. reflexivity.
Qed.

(** X18.  [TwoLevelPartialSumStore] with a block size of at most one
    (zero and negative sizes included) raises nothing: every add completes
    a block, so after [n ≥ 1] sequential adds the block-level entry starts
    at START, has size [n] and holds the sum of [n] samples, the i-th one
    drawn with sensitivity [i]; the single level is empty and the noise
    handed to the adds is not part of the store. *)
Theorem two_level_block_size_at_most_one ng (b : Z) noise_at (n : nat) :
  b ≤ 1 → (1 ≤ n)%nat →
  add_upto TwoLevelPartialSumStore.add noise_at n (TwoLevelPartialSumStore.init ng b)
  = Ok (mkTwoLevelStore ng n b
          (Some (mkNoisePartialSum START (Z.of_nat n)
                   (sum_upto (λ i, laplacian ng (R_mul (R_int 2) R_eps) (Some i)
                                     (Z.to_nat (i - 1))) n)))
          None None).
Proof.
  intros Hb Hn. destruct n as [|n]; [lia|]. clear Hn.
  induction n as [|n IH].
  - cbn [add_upto mbind result_bind]. unfold TwoLevelPartialSumStore.add,
      TwoLevelPartialSumStore.init, TwoLevelPartialSumStore.consolidate.
    cbn [new_psum the_psum mbind result_bind single_level_store block_level_store
         block_size tl_noise_generator tl_draws psum_start psum_size psum_noise].
    rewrite decide_True by lia. reflexivity.
  - change (add_upto ?a ?f (S ?m) ?s)
      with (s' ← add_upto a f m s; a (Z.of_nat (S m)) (f (Z.of_nat (S m))) s').
    rewrite IH. cbn [mbind result_bind].
    unfold TwoLevelPartialSumStore.add, TwoLevelPartialSumStore.consolidate.
    cbn [new_psum the_psum mbind result_bind single_level_store block_level_store
         block_size tl_noise_generator tl_draws psum_start psum_size psum_noise].
    rewrite decide_True by lia.
    cbn [sum_upto].
    replace (Z.of_nat (S (S n)) + 1 - 1) with (Z.of_nat (S (S n))) by lia.
    replace (Z.to_nat (Z.of_nat (S (S n)) - 1)) with (S n) by lia.
    replace (Z.of_nat (S n) + 1) with (Z.of_nat (S (S n))) by lia.
    reflexivity.
Qed.

Lemma two_level_block_size_at_most_one_witness :
  add_upto TwoLevelPartialSumStore.add (λ t, t) 3
    (TwoLevelPartialSumStore.init (counting_generator "laplacian" 9) (-2))
  = Ok (mkTwoLevelStore (counting_generator "laplacian" 9) 3 (-2)
          (Some (mkNoisePartialSum START 3 6)) None None).
Proof.
  exact (two_level_block_size_at_most_one (counting_generator "laplacian" 9) (-2) (λ t, t) 3
           ltac:(lia) ltac:(lia)).
Defined.

(** ** Samples drawn by the tree strategy *)

(** A merge takes one sample and removes one entry. *)
Lemma merge_equal_sized_accounting fresh (fuel : nat) :
  ∀ time d k d' k',
    merge_equal_sized fresh fuel time d k = Ok (d', k') →
    (k' + size d' = k + size d)%nat.
Proof.
  induction fuel as [|fuel IH]; intros time d k d' k' Hrun; [discriminate|].
  cbn [merge_equal_sized] in Hrun. unfold getitem in Hrun.
  destruct (d !! time) as [pt|] eqn:Hpt; cbn [mbind result_bind] in Hrun; [|discriminate].
  destruct (d !! (psum_start pt - psum_size pt)) as [pp|] eqn:Hpp;
    [|injection Hrun as <- <-; reflexivity].
  destruct (decide (psum_size pt = psum_size pp)); [|injection Hrun as <- <-; reflexivity].
  destruct (delitem time _) as [d1|err] eqn:Hdel; cbn [mbind result_bind] in Hrun;
    [|discriminate].
  apply IH in Hrun. apply delitem_Ok in Hdel as [-> _].
  pose proof (size_after_merge d time (psum_start pt - psum_size pt)
                (mkNoisePartialSum (psum_start pt - psum_size pt) (psum_size pt * 2)
                   (fresh pp (psum_size pt * 2) k)) ltac:(eauto) ltac:(eauto)).
  lia.
Qed.

Lemma tree_method_add_accounting (s s' : NoisePartialSumStore) (time : Z) :
  release_method s = "tree"%string →
  store s !! time = None →
  add_noise time s = Ok s' →
  (draws s' + size (store s') = draws s + size (store s) + 2)%nat.
Proof.
  destruct s as [ng m th d k]. cbn [release_method store draws]. intros -> Hfresh.
  unfold add_noise. cbn [release_method noise_generator].
  rewrite decide_False by discriminate. rewrite decide_False by discriminate.
  rewrite decide_False by discriminate. rewrite decide_True by reflexivity.
  cbn [mbind result_bind draw_tree tick store set_store noise_generator release_method
       is_theta_level draws].
  unfold consolidate_store. cbn [release_method].
  rewrite decide_False by discriminate. rewrite decide_False by discriminate.
  rewrite decide_False by discriminate. rewrite decide_True by reflexivity.
  unfold consolidate_for_tree. rewrite consolidate_for_tree_fuel_merge.
  cbn [store draws noise_generator release_method is_theta_level].
  destruct (merge_equal_sized _ _ _ _ _) as [[d1 k1]|err] eqn:Hrun;
    cbn [mbind result_bind]; [|discriminate].
  intros [= <-]. cbn [draws store].
  apply merge_equal_sized_accounting in Hrun.
  cbn [store set_store tick draws noise_generator release_method is_theta_level] in Hrun.
  rewrite map_size_insert_None in Hrun by exact Hfresh. lia.
Qed.

Lemma tree_store_add_accounting ng (d : gmap Z NoisePartialSum) (k : nat)
    (time noise : Z) (s' : BaseStore) :
  d !! time = None →
  TreePartialSumStore.add time noise (mkBaseStore d (Some ng) k) = Ok s' →
  (base_draws s' + size (base_store s') = k + size d + 1)%nat.
Proof.
  intros Hfresh.
  unfold TreePartialSumStore.add, _NoisePartialSumStore.add_with,
    TreePartialSumStore.consolidate, _NoisePartialSumStore.set_store.
  cbn [base_store base_noise_generator base_draws].
  destruct (py_max _) as [mx|err]; cbn [mbind result_bind]; [|discriminate].
  unfold TreePartialSumStore._consolidate_helper.
  rewrite tree_helper_fuel_merge. cbn [base_store].
  destruct (merge_equal_sized _ _ _ _ _) as [[d1 k1]|err] eqn:Hrun;
    cbn [mbind result_bind]; [|discriminate].
  intros [= <-]. cbn [base_draws base_store].
  apply merge_equal_sized_accounting in Hrun.
  rewrite map_size_insert_None in Hrun by exact Hfresh. lia.
Qed.

(** X19.  The samples taken by the tree strategy: after [n] sequential
    adds a [NoisePartialSumStore] with the tree method has drawn
    [2 * n] samples less the number of entries it holds (one per add, one
    per merge), and a [TreePartialSumStore], whose adds bring their own
    noise, [n] samples less the number of its entries (one per merge). *)
Theorem tree_samples_drawn ng noise_at (n : nat) :
  (∃ s, fresh_run ng "tree" n = Ok s
        ∧ (draws s + size (store s) = 2 * n)%nat)
  ∧ (∃ s, add_upto TreePartialSumStore.add noise_at n (TreePartialSumStore.init (Some ng))
          = Ok s
          ∧ (base_draws s + size (base_store s) = n)%nat).
Proof.
  split.
  - induction n as [|n (s & Hrun & Hacc)].
    + unfold fresh_run.
      rewrite init_accepts; [|unfold recognized_methods; set_solver|by left].
      eexists. split; [reflexivity|]. cbn [draws store]. rewrite map_size_empty. lia.
    + destruct (tree_run_shape ng n) as (s0 & es & Hrun0 & Hm & Hasc & Htot & Hshape).
      destruct (tree_run_shape ng (S n)) as (s1 & es1 & Hrun1 & _).
      rewrite Hrun in Hrun0. injection Hrun0 as <-.
      exists s1. split; [exact Hrun1|].
      unfold fresh_run in Hrun, Hrun1.
      destruct (NoisePartialSumStore_init ng "tree" false) as [s_init|];
        cbn [mbind result_bind] in Hrun, Hrun1; [|discriminate].
      cbn [add_noise_upto] in Hrun1. rewrite Hrun in Hrun1. cbn [mbind result_bind] in Hrun1.
      pose proof (tree_method_add_accounting s s1 (Z.of_nat (S n)) Hm) as Hstep.
      rewrite Hstep; [lia| |exact Hrun1].
      apply shape_lookup_None. rewrite Hshape.
      apply (tree_shape_fresh 0); [lia|exact Hasc|lia].
  - induction n as [|n (s & Hrun & Hacc)].
    + eexists. split; [reflexivity|]. reflexivity.
    + destruct (tree_new_run_shape ng noise_at n)
        as (d & k & es & Hrun0 & Hasc & Htot & Hshape).
      destruct (tree_new_run_shape ng noise_at (S n)) as (d1 & k1 & es1 & Hrun1 & _).
      rewrite Hrun in Hrun0. injection Hrun0 as ->.
      eexists. split; [exact Hrun1|].
      cbn [add_upto] in Hrun1. rewrite Hrun in Hrun1. cbn [mbind result_bind] in Hrun1.
      cbn [base_draws base_store] in Hacc.
      pose proof (tree_store_add_accounting ng d k (Z.of_nat (S n))
                    (noise_at (Z.of_nat (S n))) (mkBaseStore d1 (Some ng) k1)) as Hstep.
      rewrite Hstep; [lia| |exact Hrun1].
      apply shape_lookup_None. rewrite Hshape.
      apply (tree_shape_fresh 0); [lia|exact Hasc|lia].
Qed.

(** ** The depth of the recursive merges *)

(** X20.  The recursive merging of [consolidate_for_tree],
    [consolidate_for_hybrid] and the two [_consolidate_helper] methods
    stops on every store and at every time, whatever the entries hold: a
    recursive call follows the deletion of an entry, so the depth is at
    most the number of entries plus one. *)
Theorem consolidation_recursion_is_bounded :
  (∀ time s, consolidate_for_tree time s ≠ Raise OutOfFuel)
  ∧ (∀ time s, consolidate_for_hybrid time s ≠ Raise OutOfFuel)
  ∧ (∀ time s, TreePartialSumStore._consolidate_helper time s ≠ Raise OutOfFuel)
  ∧ (∀ time s, HybridPartialSumStore._consolidate_helper time s ≠ Raise OutOfFuel).
Proof.
  split_and!.
  - apply consolidate_for_tree_fuel_enough.
  - intros time s. apply consolidate_for_hybrid_fuel_enough. lia.
  - apply tree_helper_fuel_enough.
  - intros time s. apply hybrid_helper_fuel_enough. lia.
Qed.
